(** * Stylus: the evaluator and the parser

    A shallow embedding of [lib/visitor/evaluator.js], of [lib/stack/frame.js]
    and of the productions of the parser: those that read expressions,
    assignments and property values, and those that read statements.

    Conventions of the embedding.
    - A node of the AST is a value of [Node].  Where the JavaScript updates
      a node in place and hands the same object back ([expr.nodes[i] = ...],
      [prop.expr = ...]) the visitor returns the updated value; [clone()] is
      therefore the identity on values.  A value that a scope binds is
      visited where it is looked up: the visitor returns what the visit
      makes of it and the binding keeps the value that was bound.
    - The objects that are reached through two references while they are
      updated are the blocks: [visitBlock] iterates over a block while
      [invoke], [visitEach] and [visitIf] reach it through
      [stack.currentFrame.block] or [group.block].  A block under visit
      therefore lives in a store, by identity, and a frame carries an
      identity and references its block.  A block has one owner: no two
      nodes share it.
    - Numbers are integers; the arithmetic is that of [operate], which is
      a parameter.
    - Exceptions are explicit: a visitor yields [Ok], [Throw] or runs out
      of fuel. *)

From Stdlib Require Import ZArith String List Bool Lia.
From stdpp Require Import base option list gmap strings pretty.

Set Warnings "-register-all".
Open Scope string_scope.
Open Scope list_scope.

(** ** Nodes *)

(** A native function (the [fn] of [new nodes.Function(name, fn)]): one of
    [options.functions] or one of the built-ins. *)
Inductive Native :=
| UserFn (name : string)
| Bif (name : string).

Inductive Node :=
| Undefined                                   (* JavaScript's undefined *)
| JsString (s : string)                       (* a bare JavaScript string *)
| Null
| Boolean (val : bool)
| Unit (val : Z) (type : string)
| String_ (val : string)
| Literal (val : string)
| Color (r g b a : Z)
| Ident (name : string) (val : Node) (rest : bool)
| Expression (isList : bool) (nodes : list Node)
| BinOp (op : string) (left right : Node)
| UnaryOp (op : string) (expr : Node)
| Ternary (cond trueExpr falseExpr : Node)
| Call (name : string) (args : Node)
| Return (expr : Node)
| Property (segments : list Node) (expr : Node) (name : option string)
           (literal : bool)
| Block (scope : bool) (nodes : list Node)
| Root
| Group (selectors : list string) (block : Node)
| If (cond block : Node) (elses : list Node) (negate : bool)
| Each (val : string) (key : option string) (expr block : Node)
| Function (name : string) (params : list Node)
           (bscope : bool) (body : list Node) (fn : option Native)
| Import (path : string)
| Charset (val : string)
| Media (val : string) (block : Node)
| Page (selector : option string) (block : Node)
| Keyframes (name : Node) (frames : list (Node * Node)).

(** [node.nodeName] *)
Definition nodeName (n : Node) : string :=
  match n with
  | Undefined => "undefined" | JsString _ => "jsstring"
  | Null => "null" | Boolean _ => "boolean" | Unit _ _ => "unit"
  | String_ _ => "string" | Literal _ => "literal" | Color _ _ _ _ => "color"
  | Ident _ _ _ => "ident" | Expression _ _ => "expression"
  | BinOp _ _ _ => "binop" | UnaryOp _ _ => "unaryop"
  | Ternary _ _ _ => "ternary" | Call _ _ => "call" | Return _ => "return"
  | Property _ _ _ _ => "property" | Block _ _ => "block" | Root => "root"
  | Group _ _ => "group" | If _ _ _ _ => "if" | Each _ _ _ _ => "each"
  | Function _ _ _ _ _ => "function" | Import _ => "import"
  | Charset _ => "charset" | Media _ _ => "media" | Page _ _ => "page"
  | Keyframes _ _ => "keyframes"
  end.

Definition is_function (n : Node) : bool :=
  match n with Function _ _ _ _ _ => true | _ => false end.

Definition is_null (n : Node) : bool :=
  match n with Null => true | _ => false end.

Definition is_true (n : Node) : bool :=
  match n with Boolean true => true | _ => false end.

Definition is_false (n : Node) : bool :=
  match n with Boolean false => true | _ => false end.

(** ** Exceptions *)

Inductive Exn :=
| ThrowReturn (expr : Node)        (* [throw ret] of visitReturn *)
| RangeError (msg : string)
| Error (msg : string)
| TypeError (msg : string)
| MissingArgument (param : string) (fn : string)
| Foreign (msg : string).          (* thrown by code outside this file *)

Definition is_return (e : Exn) : bool :=
  match e with ThrowReturn _ => true | _ => false end.

(** ** Frames and the evaluator's state *)

Inductive BlockKind := KRoot | KBlock.

Definition kindName (k : BlockKind) : string :=
  match k with KRoot => "root" | KBlock => "block" end.

(** The fields of a block (or of the root) that a frame references.
    [arr] tells one [nodes] array from the next: [block.nodes = ...]
    installs a new array, [push] keeps the array. *)
Record BlockState := mkBlockState {
  bkind : BlockKind;
  bnodes : list Node;
  bindex : option nat;
  bscope_flag : bool;
  barr : nat
}.

(** lib/stack/frame.js: [this.scope = new Scope; this.block = block].
    The block is referenced, not copied: [fblock] is its identity. *)
Record Frame := mkFrame {
  fid : nat;
  fscope : gmap string Node;
  fblock : nat
}.

Record Evaluator := mkEvaluator {
  stack : list Frame;             (* innermost frame first *)
  return_ : bool;                 (* this.return *)
  calling : list string;          (* this.calling, latest push first *)
  group : option nat;             (* this.group, by the identity of its block *)
  rootIndex : option nat;         (* undefined before visitRoot *)
  importPath : option string;
  paths : list string;
  blocks : gmap nat BlockState;   (* the blocks under visit, by identity *)
  fresh : nat                     (* next identity *)
}.

Inductive Outcome (A : Type) :=
| Ok (a : A) (s : Evaluator)
| Throw (e : Exn) (s : Evaluator)
| OutOfFuel.
Arguments Ok {A} a s.
Arguments Throw {A} e s.
Arguments OutOfFuel {A}.

Definition M (A : Type) := Evaluator -> Outcome A.

Definition ret {A} (a : A) : M A := fun s => Ok a s.
Definition throw {A} (e : Exn) : M A := fun s => Throw e s.
Definition bind {A B} (m : M A) (k : A -> M B) : M B :=
  fun s => match m s with
           | Ok a s' => k a s'
           | Throw e s' => Throw e s'
           | OutOfFuel => OutOfFuel
           end.
Definition get : M Evaluator := fun s => Ok s s.
Definition put (s : Evaluator) : M unit := fun _ => Ok tt s.
Definition modify (f : Evaluator -> Evaluator) : M unit := fun s => Ok tt (f s).

Declare Scope eval_scope.
Delimit Scope eval_scope with eval.
Notation "'do' x <- m ; k" := (bind m (fun x => k))
  (at level 10, x name, m at level 100, k at level 200) : eval_scope.
Notation "'run' m ; k" := (bind m (fun _ => k))
  (at level 10, m at level 100, k at level 200) : eval_scope.
Open Scope eval_scope.

(** State setters. *)
Definition set_stack (x : list Frame) (s : Evaluator) : Evaluator :=
  mkEvaluator x (return_ s) (calling s) (group s) (rootIndex s) (importPath s) (paths s) (blocks s) (fresh s).
Definition set_return (x : bool) (s : Evaluator) : Evaluator :=
  mkEvaluator (stack s) x (calling s) (group s) (rootIndex s) (importPath s) (paths s) (blocks s) (fresh s).
Definition set_calling (x : list string) (s : Evaluator) : Evaluator :=
  mkEvaluator (stack s) (return_ s) x (group s) (rootIndex s) (importPath s) (paths s) (blocks s) (fresh s).
Definition set_group (x : option nat) (s : Evaluator) : Evaluator :=
  mkEvaluator (stack s) (return_ s) (calling s) x (rootIndex s) (importPath s) (paths s) (blocks s) (fresh s).
Definition set_rootIndex (x : option nat) (s : Evaluator) : Evaluator :=
  mkEvaluator (stack s) (return_ s) (calling s) (group s) x (importPath s) (paths s) (blocks s) (fresh s).
Definition set_importPath (x : option string) (s : Evaluator) : Evaluator :=
  mkEvaluator (stack s) (return_ s) (calling s) (group s) (rootIndex s) x (paths s) (blocks s) (fresh s).
Definition set_paths (x : list string) (s : Evaluator) : Evaluator :=
  mkEvaluator (stack s) (return_ s) (calling s) (group s) (rootIndex s) (importPath s) x (blocks s) (fresh s).
Definition set_blocks (x : gmap nat BlockState) (s : Evaluator) : Evaluator :=
  mkEvaluator (stack s) (return_ s) (calling s) (group s) (rootIndex s) (importPath s) (paths s) x (fresh s).
Definition set_fresh (x : nat) (s : Evaluator) : Evaluator :=
  mkEvaluator (stack s) (return_ s) (calling s) (group s) (rootIndex s) (importPath s) (paths s) (blocks s) x.

(** ** What the evaluator calls outside [lib/visitor/evaluator.js]

    The node classes ([lib/nodes]), [lib/utils], the built-ins, the colour
    table and the file system are not part of this development; the
    evaluator is parameterised by them. *)
Record Env := mkEnv {
  first : Node -> Node;                         (* node.first *)
  toBoolean : Node -> Node;                     (* node.toBoolean() *)
  coerce : Node -> Node -> Exn + Node;          (* left.coerce(right) *)
  operate : string -> Node -> Node -> Exn + Node; (* left.operate(op, right) *)
  isEmpty : Node -> bool;                       (* node.isEmpty *)
  unwrap : Node -> Node;                        (* utils.unwrap *)
  functions : string -> bool;                   (* options.functions[name] *)
  bifs : string -> bool;                        (* bifs[name] *)
  native_raw : Native -> bool;                  (* fn.raw *)
  native_apply : Native -> list Node -> Exn + Node; (* fn.apply(this, args) *)
  colors : list (string * (Z * Z * Z));         (* lib/colors *)
  lookup_file : string -> list string -> option string; (* utils.lookup *)
  dirname : string -> string;
  parse_file : string -> Exn + list Node        (* fs.readFileSync, parse *)
}.

Definition lift {A} (r : Exn + A) : M A :=
  match r with inl e => throw e | inr a => ret a end.

(** ** Stack and scope

    Modelled from the spec: [lib/stack/index.js] and [lib/stack/scope.js]
    are not under src/.  [Scope.add(ident)] inserts or overwrites by
    [ident.name]; [Stack.lookup(name)] searches the frames from the
    innermost to the outermost and returns the first hit;
    [Stack.currentFrame] is the innermost frame.  What a name is bound to
    is the ident's value: [visitCall] and [visitProperty] test the node
    that [lookup] hands back for being a function. *)
Definition currentFrame (s : Evaluator) : option Frame := head (stack s).

Fixpoint stack_lookup (fs : list Frame) (name : string) : option Node :=
  match fs with
  | [] => None
  | f :: rest =>
      match fscope f !! name with
      | Some v => Some v
      | None => stack_lookup rest name
      end
  end.

Definition frame_add (name : string) (v : Node) (f : Frame) : Frame :=
  mkFrame (fid f) (<[name := v]> (fscope f)) (fblock f).

(** [scope.add(ident)] on the scope of the frame with identity [id]. *)
Definition scope_add (id : nat) (name : string) (v : Node) : M unit :=
  modify (fun s =>
    set_stack (map (fun f => if Nat.eqb (fid f) id
                             then frame_add name v f else f) (stack s)) s).

Definition stack_push (blk : nat) : M nat :=
  fun s =>
    let id := fresh s in
    Ok id (set_fresh (S id) (set_stack (mkFrame id ∅ blk :: stack s) s)).

Definition stack_pop : M unit :=
  modify (fun s => set_stack (tail (stack s)) s).

Definition new_id : M nat :=
  fun s => Ok (fresh s) (set_fresh (S (fresh s)) s).

(** A block becomes an object of the store. *)
Definition alloc_block (k : BlockKind) (scope : bool) (nodes : list Node)
  : M nat :=
  do id <- new_id;
  do a <- new_id;
  run modify (fun s =>
        set_blocks (<[id := mkBlockState k nodes None scope a]> (blocks s)) s);
  ret id.

Definition get_block (id : nat) : M BlockState :=
  fun s => match blocks s !! id with
           | Some b => Ok b s
           | None => Throw (TypeError "no such block") s
           end.

Definition update_block (id : nat) (f : BlockState -> BlockState) : M unit :=
  modify (fun s => set_blocks (alter f id (blocks s)) s).

Definition with_nodes (l : list Node) (b : BlockState) : BlockState :=
  mkBlockState (bkind b) l (bindex b) (bscope_flag b) (barr b).
Definition with_new_nodes (l : list Node) (a : nat) (b : BlockState)
  : BlockState :=
  mkBlockState (bkind b) l (bindex b) (bscope_flag b) a.
Definition with_index (i : nat) (b : BlockState) : BlockState :=
  mkBlockState (bkind b) (bnodes b) (Some i) (bscope_flag b) (barr b).
Definition with_scope (c : bool) (b : BlockState) : BlockState :=
  mkBlockState (bkind b) (bnodes b) (bindex b) c (barr b).

(** [arr[i] = v] on a JavaScript array: past the end the array grows. *)
Definition js_set (i : nat) (v : Node) (l : list Node) : list Node :=
  if Nat.ltb i (length l) then <[i := v]> l
  else l ++ replicate (i - length l) Undefined ++ [v].

(** [this.stack.currentFrame], a TypeError on its fields when absent. *)
Definition the_frame : M Frame :=
  fun s => match currentFrame s with
           | Some f => Ok f s
           | None => Throw (TypeError "currentFrame is undefined") s
           end.

(** The root block is the block of the global frame: [new Frame(root)]. *)
Definition root_id : nat := 0.

(** ** mixin and eval (evaluator.js, 688-724) *)

(** [mixin(nodes, dest)]: the nodes pushed onto [dest], in order, by a
    call that meets no entry that is undefined.  A [return] ends the call
    at hand, a nested block is mixed in place.  [mixin_node] is the body
    of the loop for a node that is no [return]. *)
Fixpoint mixin_node (node : Node) : list Node :=
  match node with
  | Block _ inner =>
      (fix go (l : list Node) : list Node :=
         match l with
         | [] => []
         | Return _ :: _ => []
         | x :: rest => mixin_node x ++ go rest
         end) inner
  | _ => [node]
  end.

Fixpoint mixin (nodes : list Node) : list Node :=
  match nodes with
  | [] => []
  | Return _ :: _ => []
  | x :: rest => mixin_node x ++ mixin rest
  end.

(** Whether the loop of [mixin] comes to an entry that is undefined:
    [(node = nodes[i]).nodeName] throws a TypeError there.  [invoke]
    tests it. *)
Fixpoint mixin_undefined_node (node : Node) : bool :=
  match node with
  | Undefined => true
  | Block _ inner =>
      (fix go (l : list Node) : bool :=
         match l with
         | [] => false
         | Return _ :: _ => false
         | x :: rest => mixin_undefined_node x || go rest
         end) inner
  | _ => false
  end.

Fixpoint mixin_undefined (nodes : list Node) : bool :=
  match nodes with
  | [] => false
  | Return _ :: _ => false
  | x :: rest => mixin_undefined_node x || mixin_undefined rest
  end.

(** [eval(nodes)].  [eval_block b] is [this.eval(b.nodes)] for a block
    [b]; [eval_from node nodes] is the loop, [node] being what the loop
    variable holds.  At an entry that is undefined
    [(node = nodes[i]).nodeName] throws a TypeError: the scan yields
    nothing. *)
Fixpoint eval_block (b : Node) : option Node :=
  match b with
  | Block _ inner =>
      (fix go (l : list Node) (node : Node) : option Node :=
         match l with
         | [] => Some node
         | Undefined :: _ => None
         | Return expr :: _ => Some expr
         | (Block _ _ as n) :: _ => eval_block n
         | n :: rest => go rest n
         end) inner Undefined
  | _ => Some Undefined
  end.

Fixpoint eval_from (node : Node) (nodes : list Node) : option Node :=
  match nodes with
  | [] => Some node
  | Undefined :: _ => None
  | Return expr :: _ => Some expr
  | (Block _ _ as n) :: _ => eval_block n
  | n :: rest => eval_from n rest
  end.

Definition eval (nodes : list Node) : option Node :=
  eval_from Undefined nodes.

(** [~x] on a JavaScript number: ToInt32, then the complement. *)
Definition toInt32 (x : Z) : Z :=
  ((x + 2147483648) mod 4294967296 - 2147483648)%Z.
Definition js_bitnot (x : Z) : Z := Z.lnot (toInt32 x).

(** What JavaScript takes for true in [if (x)], for the values at hand. *)
Definition truthy (n : Node) : bool :=
  match n with
  | Undefined => false
  | JsString s => negb (String.eqb s "")
  | _ => true
  end.

Definition js_opt (o : option Node) : option Node :=
  match o with
  | Some n => if truthy n then Some n else None
  | None => None
  end.

(** [node.nodes] *)
Definition node_nodes (n : Node) : option (list Node) :=
  match n with
  | Expression _ ns => Some ns
  | Block _ ns => Some ns
  | _ => None
  end.

(** [node.name] *)
Definition node_name (n : Node) : Node :=
  match n with
  | Ident name _ _ => JsString name
  | Function name _ _ _ _ => JsString name
  | Call name _ => JsString name
  | Property _ _ (Some name) _ => JsString name
  | _ => Undefined
  end.

Definition ends_with_css (path : string) : bool :=
  let n := String.length path in
  String.eqb (String.substring (n - 4) 4 path) ".css" && Nat.leb 4 n.

(** ** The visitors of [Evaluator.prototype]

    The visitors call one another through [this.visit]; they are written
    over the visitor [visit] they recurse through, and [fuel] bounds the
    loops whose bound is read again at every turn. *)
Section Visitors.
Variable env : Env.
Variable visit : Node -> M Node.
Variable fuel : nat.

(** evaluator.js, 797-800 *)
Definition lookupFunction (name : string) : option Node :=
  if functions env name then Some (Function name [] true [] (Some (UserFn name)))
  else if bifs env name then Some (Function name [] true [] (Some (Bif name)))
  else None.

(** evaluator.js, 748-755 *)
Definition lookup (s : Evaluator) (name : string) : option Node :=
  match js_opt (stack_lookup (stack s) name) with
  | Some val => Some (unwrap env val)
  | None => lookupFunction name
  end.

(** [var _ = this.return; this.return = true; ...; this.return = _] *)
Definition in_return_mode {A} (m : M A) : M A :=
  do s0 <- get;
  run modify (set_return true);
  do a <- m;
  run modify (set_return (return_ s0));
  ret a.

(** evaluator.js, 128-133 *)
Definition visitGroup (selectors : list string) (block : Node) : M Node :=
  do s <- get;
  run modify (set_group (Some (fresh s)));
  do b <- visit block;
  run modify (set_group None);
  ret (Group selectors b).

(** evaluator.js, 147-150 *)
Definition visitReturn (expr : Node) : M Node :=
  do e <- visit expr;
  throw (ThrowReturn e).

(** evaluator.js, 156-159 *)
Definition visitMedia (val : string) (block : Node) : M Node :=
  do b <- visit block;
  ret (Media val b).

(** evaluator.js, 165-168 *)
Definition visitKeyframes (name : Node) (frames : list (Node * Node))
  : M Node :=
  do n <- visit name;
  match first env n with
  | Undefined => throw (TypeError "name of undefined")
  | f => ret (Keyframes (node_name f) frames)
  end.

(** evaluator.js, 174-188; the warnings are console output only. *)
Definition visitFunction (fn : Node) : M Node := ret fn.

(** evaluator.js, 734-737 *)
Definition literalCall (name : string) (args : Node) : M Node :=
  do a <- visit args;
  ret (Call name a).

(** evaluator.js, 663-678 *)
Definition invoke (body : list Node) : M Node :=
  do f <- the_frame;
  do s <- get;
  if return_ s then
    match eval body with
    | Some node => ret node
    | None => throw (TypeError "nodeName of undefined")
    end
  else
    do b <- get_block (fblock f);
    let head := match bindex b with
                | Some i => take i (bnodes b)
                | None => bnodes b
                end in
    let tail := match bindex b with
                | Some i => drop (S i) (bnodes b)
                | None => bnodes b
                end in
    if mixin_undefined body then throw (TypeError "nodeName of undefined")
    else
      do a <- new_id;
      run update_block (fblock f)
            (with_new_nodes (head ++ mixin body ++ tail) a);
      ret Null.

(** The [forEach] over [fn.params.nodes] of invokeFunction
    (evaluator.js, 586-608); [scope] is the scope of frame [fr]. *)
Fixpoint bind_params (fr : nat) (fname : string)
         (args : option (list Node)) (params : list Node) (i : nat)
  : M unit :=
  match params with
  | [] => ret tt
  | Ident pname pval rest_flag :: rest =>
      match args with
      | None => throw (TypeError "args.nodes is undefined")
      | Some anodes =>
          if rest_flag then
            run scope_add fr pname (Expression false (drop i anodes));
            bind_params fr fname args rest (S i)
          else
            let val := match anodes !! i with
                       | Some arg => if truthy arg && negb (isEmpty env arg)
                                     then arg else pval
                       | None => pval
                       end in
            if is_null val then throw (MissingArgument pname fname)
            else
              run scope_add fr pname val;
              bind_params fr fname args rest (S i)
      end
  | _ :: _ => throw (TypeError "parameter is not an ident")
  end.

(** evaluator.js, 561-616.  [new nodes.Block(...)] is an empty block
    with a scope of its own. *)
Definition invokeFunction (fname : string) (params : list Node)
           (bscope : bool) (body : list Node) (args : Node) : M Node :=
  do f0 <- the_frame;
  do blk <- alloc_block KBlock true [];
  do fr <- stack_push blk;
  run scope_add fr "arguments" args;
  do s <- get;
  do mixin_val <-
    (if return_ s then ret (Boolean false)
     else do mb <- get_block (fblock f0);
          ret (String_ (kindName (bkind mb))));
  run scope_add fr "mixin" mixin_val;
  run bind_params fr fname (node_nodes args) params 0;
  do b <- visit (Block bscope body);
  run stack_pop;
  match node_nodes b with
  | Some ns => invoke ns
  | None => throw (TypeError "body.nodes is undefined")
  end.

(** evaluator.js, 627-653 *)
Definition invokeBuiltin (fn : Native) (args : Node) : M Node :=
  do args' <-
    (if native_raw env fn then ret (default [] (node_nodes args))
     else match node_nodes args with
          | Some anodes => ret (map (first env) anodes)
          | None => throw (TypeError "args.nodes is undefined")
          end);
  do body <- lift (native_apply env fn args');
  invoke [body].

(** The node that [call.name] stands for once visitCall has unwrapped a
    variable function and fallen back on the host functions and the
    built-ins (evaluator.js, 223-234). *)
Definition resolve (s : Evaluator) (name : string) : option Node :=
  let fn := lookup s name in
  let fn := match js_opt fn with
            | Some (Expression _ ns) => head ns
            | other => other
            end in
  match js_opt fn with
  | Some f => if is_function f then Some f else lookupFunction name
  | None => None
  end.

(** evaluator.js, 222-264 *)
Definition visitCall (name : string) (args : Node) : M Node :=
  do s <- get;
  match js_opt (resolve s name) with
  | Some (Function fname params bscope body native) =>
      run modify (fun s => set_calling (name :: calling s) s);
      do s1 <- get;
      if Nat.ltb 200 (length (calling s1))
      then throw (RangeError "Maximum call stack size exceeded")
      else
        do args' <- in_return_mode (visit args);
        do r <- match native with
                | Some nat => invokeBuiltin nat args'
                | None => invokeFunction fname params bscope body args'
                end;
        run modify (fun s => set_calling (tail (calling s)) s);
        ret r
  | _ => literalCall name args
  end.

(** evaluator.js, 810-816 *)
Definition isDefined (node : Node) : M Node :=
  match node with
  | Ident name _ _ =>
      do s <- get;
      ret (Boolean (match js_opt (lookup s name) with
                    | Some _ => true | None => false end))
  | _ => throw (Error "invalid is defined check on non-variable")
  end.

(** evaluator.js, 270-284 *)
Definition visitIdent (name : string) (val : Node) (rest : bool) : M Node :=
  if is_null val then
    do s <- get;
    match js_opt (lookup s name) with
    | Some v => visit v
    | None => ret (Ident name val rest)
    end
  else
    do v <- in_return_mode (visit val);
    do f <- the_frame;
    run scope_add (fid f) name v;
    ret v.

(** evaluator.js, 290-345 *)
Definition visitBinOp (op : string) (left right : Node) : M Node :=
  if String.eqb op "is defined" then isDefined left
  else
    do lr <- in_return_mode (do l <- visit left;
                             do r <- visit right;
                             ret (l, r));
    let '(l, r) := lr in
    let '(l, r) := if String.eqb op "[]" || String.eqb op "in"
                   then (l, r) else (first env l, first env r) in
    if String.eqb op "[]" || String.eqb op "in" || String.eqb op "||"
       || String.eqb op "&&" || String.eqb op "is a"
    then
      do n <- lift (operate env op l r);
      visit n
    else
      match String.eqb op "-", l, r with
      | true, Ident _ _ _, Unit v t =>
          ret (Expression false [l; Unit (- v) t])
      | _, _, _ =>
          match coerce env l r with
          | inr r' =>
              do n <- lift (operate env op l r');
              visit n
          | inl err =>
              if String.eqb op "==" || String.eqb op "!="
              then ret (Boolean false)
              else throw err
          end
      end.

(** evaluator.js, 351-372; [utils.assertType(node, nodes.Unit)] throws
    unless the node is a unit. *)
Definition visitUnaryOp (op : string) (expr : Node) : M Node :=
  do e <- visit expr;
  let node := first env e in
  if String.eqb op "!" then
    match toBoolean env node with
    | Boolean b => ret (Boolean (negb b))
    | _ => throw (TypeError "negate is not a function")
    end
  else
    match node with
    | Unit v t =>
        if String.eqb op "-" then ret (Unit (- v) t)
        else if String.eqb op "+" then ret (Unit v t)
        else if String.eqb op "~" then ret (Unit (js_bitnot v) t)
        else ret node
    | _ => throw (Error "expected Unit")
    end.

(** evaluator.js, 378-383 *)
Definition visitTernary (cond trueExpr falseExpr : Node) : M Node :=
  do c <- visit cond;
  if is_true (toBoolean env c) then visit trueExpr else visit falseExpr.

(** evaluator.js, 389-394 *)
Fixpoint visit_nodes (nodes : list Node) : M (list Node) :=
  match nodes with
  | [] => ret []
  | n :: rest =>
      do n' <- visit n;
      do rest' <- visit_nodes rest;
      ret (n' :: rest')
  end.

Definition visitExpression (isList : bool) (nodes : list Node) : M Node :=
  do ns <- visit_nodes nodes;
  ret (Expression isList ns).

(** The [toString] of interpolate (evaluator.js, 768-784): the text
    joined for the segment ([undefined] joins as the empty string), and
    the segment as the visit leaves it. *)
Fixpoint toString (k : nat) (node : Node) : M (string * Node) :=
  match node with
  | Function name _ _ _ _ => ret (name, node)
  | Ident name _ _ => ret (name, node)
  | Literal val => ret (val, node)
  | String_ val => ret (val, node)
  | Unit val _ => ret (pretty val, node)
  | Expression _ _ =>
      match k with
      | 0 => fun _ => OutOfFuel
      | S k' =>
          in_return_mode (do e <- visit node;
                          do r <- toString k' (first env e);
                          ret (fst r, e))
      end
  | _ => ret ("", node)
  end.

(** evaluator.js, 765-787 *)
Fixpoint interpolate (segments : list Node) : M (string * list Node) :=
  match segments with
  | [] => ret ("", [])
  | seg :: rest =>
      do r <- toString fuel seg;
      do rs <- interpolate rest;
      ret (String.append (fst r) (fst rs), snd r :: snd rs)
  end.

(** evaluator.js, 400-422 *)
Definition visitProperty (segments : list Node) (expr : Node)
           (pname : option string) (literal : bool) : M Node :=
  do r <- interpolate segments;
  let '(name, segments') := r in
  do s <- get;
  let fn := lookup s name in
  let call := match fn with Some f => is_function f | None => false end in
  let on_stack := bool_decide (name ∈ calling s) in
  if call && negb on_stack && negb literal then
    run modify (fun s => set_calling (name :: calling s) s);
    do r <- visit (Call name expr);
    run modify (fun s => set_calling (tail (calling s)) s);
    ret r
  else
    do e <- in_return_mode (visit expr);
    ret (Property segments' e (Some name) true).

(** The statement loop of visitRoot and visitBlock, on the block with
    identity [id].  [block.nodes[i] = this.visit(block.nodes[i])] stores
    into the array that [block.nodes] was before the visit; the store of
    the [catch] clause goes to the array that it is afterwards. *)
Fixpoint statements (k : nat) (id : nat) (is_root : bool) (i : nat)
  : M unit :=
  match k with
  | 0 => fun _ => OutOfFuel
  | S k' =>
      do b <- get_block id;
      match bnodes b !! i with
      | None => ret tt
      | Some n =>
          run update_block id (with_index i);
          run (if is_root then modify (set_rootIndex (Some i)) else ret tt);
          fun s =>
            match visit n s with
            | Ok v s' =>
                (do b' <- get_block id;
                 run (if Nat.eqb (barr b') (barr b)
                      then update_block id (with_nodes (js_set i v (bnodes b')))
                      else ret tt);
                 statements k' id is_root (S i)) s'
            | Throw (ThrowReturn e) s' =>
                if is_root then Throw (ThrowReturn e) s'
                else
                  (do b' <- get_block id;
                   update_block id (with_nodes (js_set i (Return e) (bnodes b'))))
                  s'
            | Throw e s' => Throw e s'
            | OutOfFuel => OutOfFuel
            end
      end
  end.

(** evaluator.js, 428-434 *)
Definition visitRoot : M Node :=
  run statements fuel root_id true 0;
  ret Root.

(** evaluator.js, 440-457 *)
Definition visitBlock (scope : bool) (nodes : list Node) : M Node :=
  do id <- alloc_block KBlock scope nodes;
  run (if scope then (do _ <- stack_push id; ret tt) else ret tt);
  run statements fuel id false 0;
  do b <- get_block id;
  run (if bscope_flag b then stack_pop else ret tt);
  ret (Block (bscope_flag b) (bnodes b)).

(** The loop over [node.elses] of visitIf (evaluator.js, 487-498). *)
Fixpoint visit_elses (elses : list Node) (r : option Node)
  : M (option Node) :=
  match elses with
  | [] => ret r
  | If cond block _ _ :: rest =>
      do c <- visit cond;
      if is_true (toBoolean env (first env c))
      then do b <- visit block; ret (Some b)
      else visit_elses rest r
  | e :: rest =>
      do b <- visit e;
      visit_elses rest (Some b)
  end.

(** evaluator.js, 463-509 *)
Definition visitIf (cond block : Node) (elses : list Node) (negate : bool)
  : M Node :=
  do s0 <- get;
  do c <- in_return_mode (visit cond);
  let ok := toBoolean env (first env c) in
  do r <- (if negate then
             if is_false ok then do b <- visit block; ret (Some b)
             else ret None
           else
             if is_true ok then do b <- visit block; ret (Some b)
             else visit_elses elses None);
  do s <- get;
  match group s0, js_opt r with
  | Some g, Some (Block _ ns as blk) =>
      if negb (return_ s) then
        run update_block g (fun b => with_nodes (bnodes b ++ mixin ns) b);
        ret Null
      else ret blk
  | _, Some n => ret n
  | _, None => ret Null
  end.

(** The loop of visitEach (evaluator.js, 205-212); [fr] is the frame
    whose scope and block the visitor holds on to. *)
Fixpoint each_loop (fr : Frame) (val key : string) (body : Node)
         (items : list Node) (i : nat) : M unit :=
  match items with
  | [] => ret tt
  | item :: rest =>
      run scope_add (fid fr) val item;
      run scope_add (fid fr) key (Unit (Z.of_nat i) "");
      do b <- visit body;
      match node_nodes b with
      | None => throw (TypeError "nodes is undefined")
      | Some ns =>
          run update_block (fblock fr)
                (fun b => with_nodes (bnodes b ++ mixin ns) b);
          each_loop fr val key body rest (S i)
      end
  end.

(** evaluator.js, 194-216 *)
Definition visitEach (val : string) (key : option string)
           (expr block : Node) : M Node :=
  do e <- visit (unwrap env expr);
  match node_nodes (unwrap env e) with
  | None => throw (TypeError "expr.nodes is undefined")
  | Some items =>
      do fr <- the_frame;
      let eachBlock := match block with
                       | Block _ ns => Block false ns
                       | other => other
                       end in
      run each_loop fr val (default "__index__" key) eachBlock items 0;
      run update_block (fblock fr) (with_scope true);
      ret Null
  end.

(** evaluator.js, 515-550 *)
Definition visitImport (path : string) : M Node :=
  if ends_with_css path then ret (Import path)
  else
    let path' := String.append path ".styl" in
    do s <- get;
    let search := match importPath s with
                  | Some relative => paths s ++ [relative]
                  | None => paths s
                  end in
    match lookup_file env path' search with
    | None => throw (Error "failed to locate @import file")
    | Some found =>
        run modify (set_importPath (Some (dirname env found)));
        do root <- get_block root_id;
        let i := match rootIndex s with Some i => S i | None => 0 end in
        run update_block root_id (with_nodes (take i (bnodes root)));
        do parsed <- lift (parse_file env found);
        run update_block root_id
              (fun b => with_nodes (bnodes b ++ parsed ++ drop i (bnodes root)) b);
        ret Null
    end.

(** [Visitor.prototype.visit]: the method named after the node's class,
    the node itself where the evaluator has none. *)
Definition visit_node (node : Node) : M Node :=
  match node with
  | Undefined => throw (TypeError "constructor of undefined")
  | Group selectors block => visitGroup selectors block
  | Return expr => visitReturn expr
  | Media val block => visitMedia val block
  | Keyframes name frames => visitKeyframes name frames
  | Function _ _ _ _ _ => visitFunction node
  | Each val key expr block => visitEach val key expr block
  | Call name args => visitCall name args
  | Ident name val rest => visitIdent name val rest
  | BinOp op l r => visitBinOp op l r
  | UnaryOp op expr => visitUnaryOp op expr
  | Ternary cond t f => visitTernary cond t f
  | Expression isList nodes => visitExpression isList nodes
  | Property segments expr name literal =>
      visitProperty segments expr name literal
  | Root => visitRoot
  | Block scope nodes => visitBlock scope nodes
  | If cond block elses negate => visitIf cond block elses negate
  | Import path => visitImport path
  | _ => ret node
  end.
End Visitors.

(** [this.visit], with [fuel] bounding the depth of the recursion.  The
    proxy of evaluator.js, 66-77, only adds the line number and the stack
    trace to an error on its way up. *)
Fixpoint visit (env : Env) (fuel : nat) (node : Node) : M Node :=
  match fuel with
  | 0 => fun _ => OutOfFuel
  | S f => visit_node env (visit env f) f node
  end.

(** ** The constructor and [evaluate] (evaluator.js, 36-122) *)

(** evaluator.js, 103-111 *)
Definition populateGlobalScope (env : Env) (global : Frame) : Frame :=
  fold_left (fun f c => frame_add (fst c)
                          (Color (snd c).1.1 (snd c).1.2 (snd c).2 1) f)
            (colors env) global.

(** [this.imports.forEach(...)] of setup (evaluator.js, 88-93) *)
Fixpoint visit_imports (env : Env) (fuel : nat) (imports : list string)
  : M unit :=
  match imports with
  | [] => ret tt
  | file :: rest =>
      do _ <- visit env fuel (Import file);
      visit_imports env fuel rest
  end.

(** The state that [new Evaluator(root, options)] starts from, before the
    imports of [options.imports] are visited. *)
Definition new_evaluator (env : Env) (root : list Node)
           (search : list string) : Evaluator :=
  {| stack := [populateGlobalScope env (mkFrame 1 ∅ root_id)];
     return_ := false;
     calling := [];
     group := None;
     rootIndex := None;
     importPath := None;
     paths := search;
     blocks := {[ root_id := mkBlockState KRoot root None true 2 ]};
     fresh := 3 |}.

(** [new Evaluator(root, options).evaluate()]: the nodes of the root once
    evaluated. *)
Definition evaluate (env : Env) (fuel : nat) (root : list Node)
           (imports search : list string) : Outcome (list Node) :=
  (run visit_imports env fuel imports;
   do _ <- visit env fuel Root;
   do b <- get_block root_id;
   ret (bnodes b)) (new_evaluator env root search).

(** ** An environment for the examples

    Modelled from the spec: [lib/nodes] and [lib/utils] are not under src/.
    [first] is the first primary of an expression and the node itself
    otherwise; a node coerces to a node of its own kind only; [unwrap]
    strips the expressions that hold a single expression; of [operate]
    only what the examples use is given.  There are no host functions, no
    built-ins, no colours and no files. *)
Module Std.

Fixpoint first (n : Node) : Node :=
  match n with
  | Expression _ ns =>
      match ns with
      | [] => Null
      | x :: _ => first x
      end
  | _ => n
  end.

Definition toBoolean (n : Node) : Node :=
  match first n with
  | Boolean b => Boolean b
  | Null => Boolean false
  | Unit v _ => Boolean (negb (Z.eqb v 0))
  | _ => Boolean true
  end.

Definition coerce (l r : Node) : Exn + Node :=
  if String.eqb (nodeName l) (nodeName r) then inr r
  else inl (Error "cannot coerce").

Definition operate (op : string) (l r : Node) : Exn + Node :=
  match l, r with
  | Unit a t, Unit b u =>
      let t' := if String.eqb t "" then u else t in
      if String.eqb op "+" then inr (Unit (a + b) t')
      else if String.eqb op "-" then inr (Unit (a - b) t')
      else if String.eqb op "*" then inr (Unit (a * b) t')
      else if String.eqb op "==" then inr (Boolean (Z.eqb a b))
      else if String.eqb op "!=" then inr (Boolean (negb (Z.eqb a b)))
      else if String.eqb op ">" then inr (Boolean (Z.ltb b a))
      else if String.eqb op "<" then inr (Boolean (Z.ltb a b))
      else inl (Error "unsupported operation")
  | _, _ => inl (Error "unsupported operation")
  end.

Definition isEmpty (n : Node) : bool :=
  match n with Expression _ [] => true | _ => false end.

Fixpoint unwrap (n : Node) : Node :=
  match n with
  | Expression _ ns =>
      match ns with
      | [Expression _ _ as inner] => unwrap inner
      | _ => n
      end
  | _ => n
  end.

Definition env : Env :=
  mkEnv first toBoolean coerce operate isEmpty unwrap
        (fun _ => false) (fun _ => false) (fun _ => false)
        (fun _ _ => inl (Foreign "no such function"))
        [] (fun _ _ => None) (fun p => p)
        (fun _ => inl (Foreign "no such file")).

End Std.

(** * The parser: expressions, assignments and property values

    [src/examples/middleware.js] holds the parser ([Stylus - Parser]). *)
Module Parser.

(** Modelled from the spec: the lexer and [lib/token.js] are not under
    src/.  A token is [{kind, payload, line}]; [text] is what the token
    yields where the parser takes it for a string (['/' == op]): the
    operator itself for an operator token. *)
Record Token := mkToken {
  type : string;
  val : Node;
  text : string
}.

Definition eos : Token := mkToken "eos" Undefined "eos".

(** An operator token: its payload is the operator ([range] builds its
    node from [op.val]). *)
Definition op_tok (op : string) : Token := mkToken op (JsString op) op.

Record State := mkState {
  tokens : list Token;            (* what the lexer has yet to yield *)
  state : list string;            (* this.state, current state first *)
  prevState : option string;
  inProperty : bool;
  parens : bool;
  operand : bool;
  ident_ : option nat;            (* this._ident, by its position *)
  allowPostfix : bool
}.

Inductive Result (A : Type) :=
| Parsed (a : A) (p : State)
| Failed (msg : string) (p : State)
| Unsupported (what : string)     (* a production that is not embedded *)
| NoFuel.
Arguments Parsed {A} a p.
Arguments Failed {A} msg p.
Arguments Unsupported {A} what.
Arguments NoFuel {A}.

Definition P (A : Type) := State -> Result A.

Definition pret {A} (a : A) : P A := fun p => Parsed a p.
Definition pfail {A} (msg : string) : P A := fun p => Failed msg p.
Definition pbind {A B} (m : P A) (k : A -> P B) : P B :=
  fun p => match m p with
           | Parsed a p' => k a p'
           | Failed msg p' => Failed msg p'
           | Unsupported w => Unsupported w
           | NoFuel => NoFuel
           end.
Definition pget : P State := fun p => Parsed p p.
Definition pmodify (f : State -> State) : P unit := fun p => Parsed tt (f p).

Declare Scope parse_scope.
Delimit Scope parse_scope with parse.
Notation "'let*' x := m 'in' k" := (pbind m (fun x => k))
  (at level 10, x name, m at level 100, k at level 200) : parse_scope.
Notation "'exec' m 'in' k" := (pbind m (fun _ => k))
  (at level 10, m at level 100, k at level 200) : parse_scope.
Open Scope parse_scope.

Definition set_tokens (x : list Token) (p : State) : State :=
  mkState x (state p) (prevState p) (inProperty p) (parens p) (operand p)
          (ident_ p) (allowPostfix p).
Definition set_state (x : list string) (y : option string) (p : State)
  : State :=
  mkState (tokens p) x y (inProperty p) (parens p) (operand p)
          (ident_ p) (allowPostfix p).
Definition set_inProperty (x : bool) (p : State) : State :=
  mkState (tokens p) (state p) (prevState p) x (parens p) (operand p)
          (ident_ p) (allowPostfix p).
Definition set_parens (x : bool) (p : State) : State :=
  mkState (tokens p) (state p) (prevState p) (inProperty p) x (operand p)
          (ident_ p) (allowPostfix p).
Definition set_operand (x : bool) (p : State) : State :=
  mkState (tokens p) (state p) (prevState p) (inProperty p) (parens p) x
          (ident_ p) (allowPostfix p).
Definition set_ident (x : option nat) (p : State) : State :=
  mkState (tokens p) (state p) (prevState p) (inProperty p) (parens p)
          (operand p) x (allowPostfix p).
Definition set_allowPostfix (x : bool) (p : State) : State :=
  mkState (tokens p) (state p) (prevState p) (inProperty p) (parens p)
          (operand p) (ident_ p) x.

(** [this.state.push(s)], and [this.state.pop()] as the constructor
    redefines it (middleware.js, 117-120). *)
Definition push_state (s : string) : P unit :=
  pmodify (fun p => set_state (s :: state p) (prevState p) p).
Definition pop_state : P unit :=
  pmodify (fun p => set_state (tail (state p)) (head (state p)) p).
Definition currentState (p : State) : string := default "" (head (state p)).

(** [this.peek], [this.lookahead(n)], [this.next] *)
Definition peek (p : State) : Token := default eos (head (tokens p)).
Definition lookahead (n : nat) (p : State) : Token :=
  default eos (tokens p !! (n - 1)).
Definition next : P Token :=
  fun p => Parsed (peek p) (set_tokens (tail (tokens p)) p).

(** middleware.js, 190-194: the token, or nothing. *)
Definition accept (ty : string) : P (option Token) :=
  fun p => if String.eqb ty (type (peek p))
           then pbind next (fun t => pret (Some t)) p
           else Parsed None p.

(** middleware.js, 204-209 *)
Definition expect (ty : string) : P Token :=
  fun p => if String.eqb ty (type (peek p)) then next p
           else Failed ("expected " +:+ ty) p.

(** [this.accept(a) || this.accept(b) || ...] *)
Fixpoint accept_any (tys : list string) : P (option Token) :=
  match tys with
  | [] => pret None
  | ty :: rest =>
      let* t := accept ty in
      match t with
      | Some t => pret (Some t)
      | None => accept_any rest
      end
  end.

(** [node.name] and [expr.isEmpty], for what the parser asks them of. *)
Definition name_of (n : Node) : string :=
  match node_name n with JsString s => s | _ => "" end.
Definition isEmpty (n : Node) : bool :=
  match n with Expression _ [] => true | _ => false end.

(** ** The productions

    They are getters that call one another and, through [primary],
    [expression] again: they are written over the [expression] they
    recurse through, and [fuel] bounds their loops. *)
Section Grammar.
Variable expression : P Node.
Variable fuel : nat.

(** middleware.js, 710-714 *)
Definition id : P Node :=
  let* tok := expect "ident" in
  exec accept "space" in
  pret (val tok).

(** middleware.js, 1051-1057 *)
Fixpoint args_loop (k : nat) (acc : list Node) : P Node :=
  match k with
  | 0 => fun _ => NoFuel
  | S k' =>
      let* e := expression in
      let* c := accept "," in
      match c with
      | Some _ => args_loop k' (acc ++ [e])
      | None => pret (Expression false (acc ++ [e]))
      end
  end.
Definition args : P Node := args_loop fuel [].

(** middleware.js, 993-1000 *)
Definition functionCall : P Node :=
  let* tok := expect "function" in
  exec push_state "function arguments" in
  let* a := args in
  exec expect ")" in
  exec pop_state in
  pret (Call (name_of (val tok)) a).

(** middleware.js, 1063-1076 *)
Fixpoint list_loop (k : nat) (node : Node) : P Node :=
  match k with
  | 0 => fun _ => NoFuel
  | S k' =>
      let* c := accept "," in
      match c with
      | None => pret node
      | Some _ =>
          let* e := expression in
          match node with
          | Expression true ns => list_loop k' (Expression true (ns ++ [e]))
          | _ => list_loop k' (Expression true [node; e])
          end
      end
  end.
Definition list_ : P Node :=
  let* node := expression in
  list_loop fuel node.

Definition assignment_ops : list string :=
  ["="; "?="; "-="; "+="; "*="; "/="; "%="].
Definition operation_ops : list string :=
  ["-"; "+"; "/"; "*"; "%"; "**"; "and"; "or"; "&&"; "||"; ">"; "<";
   ">="; "<="; "!="; "=="; "["; "?"; "in"; "is a"; "is defined"].

(** [while ('space' == la) la = this.lookahead(++i).type] *)
Fixpoint skip_space (k : nat) (i : nat) (p : State) : option string :=
  match k with
  | 0 => None
  | S k' =>
      let la := type (lookahead i p) in
      if String.eqb la "space" then skip_space k' (S i) p else Some la
  end.

Definition mem (x : string) (l : list string) : bool :=
  existsb (String.eqb x) l.

(** middleware.js, 919-955 *)
Definition assignment : P Node :=
  let* i := id in
  let name := name_of i in
  let* op := accept_any ["="; "?="; "+="; "-="; "*="; "/="; "%="] in
  match op with
  | None => pret Undefined
  | Some op =>
      exec push_state "assignment" in
      let* expr := list_ in
      if isEmpty expr
      then pfail "invalid right-hand side operand in assignment"
      else
        let node := Ident name expr false in
        exec pop_state in
        if String.eqb (type op) "?=" then
          let defined := BinOp "is defined" node Undefined in
          let lookup := Ident name Null false in
          pret (Ternary defined lookup node)
        else if String.eqb (type op) "+=" || String.eqb (type op) "-="
                || String.eqb (type op) "*=" || String.eqb (type op) "/="
                || String.eqb (type op) "%="
        then
          pret (Ident name
                  (BinOp (String.substring 0 1 (type op))
                         (Ident name Null false) expr) false)
        else pret node
  end.

(** middleware.js, 723-798.  The states [for], [selector], [root] and
    the like lead to [property] and [selector], which parse
    statements. *)
Definition ident : P Node :=
  fun p =>
    match skip_space fuel 2 p with
    | None => NoFuel
    | Some la =>
        if mem la assignment_ops then assignment p
        else if mem la operation_ops then
          if bool_decide (ident_ p = Some (length (tokens p))) then id p
          else
            let p := set_ident (Some (length (tokens p))) p in
            let st := currentState p in
            if mem st ["for"; "selector"] then Unsupported "property"
            else if String.eqb st "root" then Unsupported "selector"
            else if operand p then id p else expression p
        else
          let st := currentState p in
          if String.eqb st "root" then Unsupported "selector"
          else if mem st ["for"; "page"; "media"; "selector"; "function";
                          "keyframe"; "conditional"]
          then Unsupported "property"
          else id p
    end.

(** middleware.js, 1320-1347 *)
Definition primary : P Node :=
  let* open := accept "(" in
  match open with
  | Some _ =>
      exec pmodify (set_parens true) in
      let* expr := expression in
      exec expect ")" in
      exec pmodify (set_parens false) in
      pret expr
  | None =>
      let* p := pget in
      let ty := type (peek p) in
      if mem ty ["null"; "unit"; "color"; "string"; "literal"; "boolean"]
      then let* tok := next in pret (val tok)
      else if String.eqb ty "ident" then ident
      else if String.eqb ty "function" then functionCall
      else pret Undefined
  end.

(** middleware.js, 1300-1307 *)
Fixpoint subscript_loop (k : nat) (node : Node) : P Node :=
  match k with
  | 0 => fun _ => NoFuel
  | S k' =>
      let* b := accept "[" in
      match b with
      | None => pret node
      | Some _ =>
          let* e := expression in
          exec expect "]" in
          subscript_loop k' (BinOp "[]" node e)
      end
  end.
Definition subscript : P Node :=
  let* node := primary in
  subscript_loop fuel node.

(** middleware.js, 1279-1293 *)
Fixpoint unary_rec (k : nat) : P Node :=
  match k with
  | 0 => fun _ => NoFuel
  | S k' =>
      let* op := accept_any ["!"; "~"; "+"; "-"] in
      match op with
      | Some op =>
          exec pmodify (set_operand true) in
          let* e := unary_rec k' in
          exec pmodify (set_operand false) in
          pret (UnaryOp (type op) e)
      | None => subscript
      end
  end.
Definition unary : P Node := unary_rec fuel.

(** middleware.js, 1265-1272 *)
Definition defined : P Node :=
  let* node := unary in
  let* d := accept "is defined" in
  match d with
  | Some _ =>
      if truthy node then pret (BinOp "is defined" node Undefined)
      else pfail "illegal use of is defined"
  | None => pret node
  end.

(** middleware.js, 1237-1258 *)
Fixpoint multiplicative_loop (k : nat) (node : Node) : P Node :=
  match k with
  | 0 => fun _ => NoFuel
  | S k' =>
      let* op := accept_any ["**"; "*"; "/"; "%"] in
      match op with
      | None => pret node
      | Some op =>
          exec pmodify (set_operand true) in
          let* p := pget in
          if String.eqb "/" (text op) && inProperty p && negb (parens p)
          then pret (Expression false [node; Literal "/"])
          else
            if truthy node then
              let* r := defined in
              exec pmodify (set_operand false) in
              multiplicative_loop k' (BinOp (type op) node r)
            else pfail "illegal unary"
      end
  end.
Definition multiplicative : P Node :=
  let* node := defined in
  multiplicative_loop fuel node.
(** [while (op = accept ...) { operand = true; check; node = new
    BinOp(op.type, node, next level); operand = false }], the loop of
    the left-associative levels; [checked] is the test [if (!node)
    throw]. *)
Fixpoint binary_loop (ops : list string) (checked : bool)
         (level : P Node) (k : nat) (node : Node) : P Node :=
  match k with
  | 0 => fun _ => NoFuel
  | S k' =>
      let* op := accept_any ops in
      match op with
      | None => pret node
      | Some op =>
          exec pmodify (set_operand true) in
          if checked && negb (truthy node) then pfail "illegal unary"
          else
            let* r := level in
            exec pmodify (set_operand false) in
            binary_loop ops checked level k' (BinOp (type op) node r)
      end
  end.

(** middleware.js, 1222-1231 *)
Definition additive : P Node :=
  let* node := multiplicative in
  binary_loop ["+"; "-"] false multiplicative fuel node.

(** middleware.js, 1206-1216 *)
Definition range : P Node :=
  let* node := additive in
  let* op := accept_any ["..."; ".."] in
  match op with
  | None => pret node
  | Some op =>
      exec pmodify (set_operand true) in
      if negb (truthy node) then pfail "illegal unary"
      else
        let* r := additive in
        exec pmodify (set_operand false) in
        pret (BinOp (match val op with JsString s => s | _ => "" end)
                    node r)
  end.

(** middleware.js, 1185-1200 *)
Definition relational : P Node :=
  let* node := range in
  binary_loop [">="; "<="; "<"; ">"] true range fuel node.

(** middleware.js, 1170-1179 *)
Definition in_ : P Node :=
  let* node := relational in
  binary_loop ["in"] true relational fuel node.

(** middleware.js, 1154-1164 *)
Definition equality : P Node :=
  let* node := in_ in
  binary_loop ["=="; "!="] true in_ fuel node.

(** middleware.js, 1138-1148 *)
Definition typecheck : P Node :=
  let* node := equality in
  binary_loop ["is a"] true equality fuel node.

(** middleware.js, 1125-1132; here [operand] is left alone. *)
Fixpoint logical_loop (k : nat) (node : Node) : P Node :=
  match k with
  | 0 => fun _ => NoFuel
  | S k' =>
      let* op := accept_any ["&&"; "||"] in
      match op with
      | None => pret node
      | Some op =>
          let* r := typecheck in
          logical_loop k' (BinOp (type op) node r)
      end
  end.
Definition logical : P Node :=
  let* node := typecheck in
  logical_loop fuel node.

(** middleware.js, 1110-1119 *)
Definition ternary : P Node :=
  let* node := logical in
  let* q := accept "?" in
  match q with
  | None => pret node
  | Some _ =>
      let* trueExpr := expression in
      exec expect ":" in
      let* falseExpr := expression in
      pret (Ternary node trueExpr falseExpr)
  end.

(** middleware.js, 1099-1104 *)
Fixpoint negation_rec (k : nat) : P Node :=
  match k with
  | 0 => fun _ => NoFuel
  | S k' =>
      let* n := accept "not" in
      match n with
      | Some _ =>
          let* e := negation_rec k' in
          pret (UnaryOp "!" e)
      | None => ternary
      end
  end.
Definition negation : P Node := negation_rec fuel.

(** middleware.js, 1082-1092 *)
Fixpoint expression_loop (k : nat) (acc : list Node) : P Node :=
  match k with
  | 0 => fun _ => NoFuel
  | S k' =>
      let* node := negation in
      if truthy node then expression_loop k' (acc ++ [node])
      else pret (Expression false acc)
  end.
Definition expression_body : P Node :=
  exec push_state "expression" in
  let* expr := expression_loop fuel [] in
  exec pop_state in
  pret expr.
End Grammar.

(** [this.expression]; [fuel] bounds the nesting. *)
Fixpoint expression (fuel : nat) : P Node :=
  match fuel with
  | 0 => fun _ => NoFuel
  | S k => expression_body (expression k) k
  end.

(** middleware.js, 839-850: [property] once the name [ident] has been
    read by [interpolate] and the optional [':'] has been passed. *)
Definition property_value (fuel : nat) (ident : list Node) : P Node :=
  exec push_state "property" in
  exec pmodify (set_inProperty true) in
  let* expr := list_ (expression fuel) fuel in
  exec pmodify (set_inProperty false) in
  exec pmodify (set_allowPostfix true) in
  exec pop_state in
  exec accept ";" in
  pret (if isEmpty expr then default Undefined (head ident)
        else Property ident expr None false).

(** [new Parser(str, options)], the lexer having [toks] to yield. *)
Definition new_parser (toks : list Token) : State :=
  mkState toks ["root"] None false false false None false.

End Parser.

(** * What the statements are about *)

(** The stack binds [name] to a function, or to an expression whose first
    node is one (a variable function). *)
Definition bound_to_function (env : Env) (s : Evaluator) (name : string)
  : bool :=
  match js_opt (stack_lookup (stack s) name) with
  | Some v =>
      match unwrap env v with
      | Function _ _ _ _ _ => true
      | Expression _ (Function _ _ _ _ _ :: _) => true
      | _ => false
      end
  | None => false
  end.

(** A property that was evaluated while [y] was unbound, visited again
    once [y] is bound: the state below binds [y] to [5] in the global
    frame. *)
Definition width_y : Node :=
  Property [Ident "width" Null false]
           (Expression false [Ident "y" Null false]) (Some "width") true.

Definition y_bound : Evaluator :=
  set_stack [frame_add "y" (Expression false [Unit 5 ""])
                       (mkFrame 1 ∅ root_id)]
            (new_evaluator Std.env [] []).

(** A statement that is neither a return nor a block. *)
Definition plain (n : Node) : bool :=
  match n with
  | Return _ => false
  | Block _ _ => false
  | _ => true
  end.

(** A statement that [eval] steps over: a node that is neither a return
    nor a block. *)
Definition stepped (n : Node) : bool :=
  match n with
  | Undefined => false
  | Return _ => false
  | Block _ _ => false
  | _ => true
  end.

(** The evaluated bodies of

    f()                 g()
      if true             if true
        foo: bar            foo: bar
      return 5            baz: qux

    the branch taken stands where the [if] stood. *)
Definition foo_bar : Node :=
  Property [Ident "foo" Null false]
           (Expression false [Ident "bar" Null false]) (Some "foo") true.

Definition baz_qux : Node :=
  Property [Ident "baz" Null false]
           (Expression false [Ident "qux" Null false]) (Some "baz") true.

Definition branch_then_return : list Node :=
  [Block false [foo_bar]; Return (Expression false [Unit 5 ""])].

Definition branch_then_statement : list Node :=
  [Block false [foo_bar]; baz_qux].

(** The tokens of the value of [margin: ((16px) / 2)], read within the
    block of a selector. *)
Definition nested_parens_value : Parser.State :=
  Parser.mkState
    [Parser.op_tok "("; Parser.op_tok "(";
     Parser.mkToken "unit" (Unit 16 "px") "16px"; Parser.op_tok ")";
     Parser.op_tok "/"; Parser.mkToken "unit" (Unit 2 "") "2";
     Parser.op_tok ")"; Parser.op_tok "newline"]
    ["selector"; "root"] None false false false None false.

(** What [x ?= rhs] is parsed into: a ternary on [x is defined] whose
    branches are the lookup of [x] and the assignment [x = rhs]. *)
Definition conditional_assignment (x : string) (rhs : Node) : Node :=
  Ternary (BinOp "is defined" (Ident x rhs false) Undefined)
          (Ident x Null false)
          (Ident x rhs false).

(** [x] is assigned a call of [foo] before [foo] is defined, which
    makes a literal call of its value; [x ?= 2] then stands in a block,
    where [foo] is a function.

    x = foo()
    foo()
      color: red
    body
      x ?= 2 *)
Definition forward_reference : list Node :=
  [Ident "x"
     (Expression false
        [Call "foo" (Expression false [Expression false []])]) false;
   Ident "foo"
     (Function "foo" [] true
        [Property [Ident "color" Null false]
                  (Expression false [Ident "red" Null false]) None false]
        None) false;
   Group ["body"]
     (Block true [conditional_assignment "x" (Expression false [Unit 2 ""])])].

(** No argument stands at position [i], or an empty one. *)
Definition missing (env : Env) (args : list Node) (i : nat) : bool :=
  match args !! i with
  | Some arg => negb (truthy arg && negb (isEmpty env arg))
  | None => true
  end.

(** The state once [scope.add] has bound [name] in the frame [fr]. *)
Definition bound (fr : nat) (name : string) (v : Node) (s : Evaluator)
  : Evaluator :=
  set_stack (map (fun f => if Nat.eqb (fid f) fr
                           then frame_add name v f else f) (stack s)) s.

(** The function [f(a, rest...)] whose body is [return rest], bound in
    the global frame, and the call [f(1)] in return mode. *)
Definition with_rest_function : Evaluator :=
  set_return true
    (set_stack
       [frame_add "f"
          (Function "f" [Ident "a" Null false; Ident "rest" Null true] true
                    [Return (Expression false [Ident "rest" Null false])]
                    None)
          (mkFrame 1 ∅ root_id)]
       (new_evaluator Std.env [] [])).

(** The frames of the stack, by identity, with the blocks they reference. *)
Definition shape (s : Evaluator) : list (nat * nat) :=
  map (fun f => (fid f, fblock f)) (stack s).

(** [block.scope] of the block with identity [id]. *)
Definition scope_flag (s : Evaluator) (id : nat) : option bool :=
  bscope_flag <$> blocks s !! id.

(** Identities are handed out in order: what the frames reference and
    what the store holds was allocated before. *)
Definition wf (s : Evaluator) : Prop :=
  Forall (fun f => fblock f < fresh s) (stack s)
  /\ (forall id, fresh s <= id -> blocks s !! id = None).

(** What relates the state after a visit to the state before it: the same
    frames stand on the stack; no identity is handed out twice; the scope
    flag of a block that no frame references is as it was, and a flag that
    was set stays set. *)
Record preserved (s s' : Evaluator) : Prop := mkPreserved {
  pr_wf : wf s';
  pr_shape : shape s' = shape s;
  pr_fresh : fresh s <= fresh s';
  pr_flag : forall id, id < fresh s -> id ∉ (map snd (shape s)) ->
                       scope_flag s' id = scope_flag s id;
  pr_set : forall id, scope_flag s id = Some true ->
                      scope_flag s' id = Some true
}.

(** A computation leaves the state [preserved] with respect to [s0],
    both when it returns and when it throws a Return. *)
Definition keeps {A : Type} (s0 : Evaluator) (m : M A) : Prop :=
  forall s, preserved s0 s ->
    match m s with
    | Ok _ s' => preserved s0 s'
    | Throw e s' => is_return e = true -> preserved s0 s'
    | OutOfFuel => True
    end.

(** What is asked of the visitor that the visitors recurse through: it
    leaves the state [preserved], also when it throws a Return, and the
    visit of a block throws no Return. *)
Definition good (v : Node -> M Node) : Prop :=
  forall n s, wf s ->
    match v n s with
    | Ok _ s' => preserved s s'
    | Throw e s' => is_return e = true ->
                    preserved s s' /\ nodeName n <> "block"
    | OutOfFuel => True
    end.

(** The state once [alloc_block] has put a block into the store, once
    [stack.push] has pushed a frame for the block [blk], and once
    [stack.pop] has popped a frame. *)
Definition allocated (k : BlockKind) (scope : bool) (nodes : list Node)
           (s : Evaluator) : Evaluator :=
  set_blocks (<[fresh s := mkBlockState k nodes None scope (S (fresh s))]>
                (blocks s))
             (set_fresh (S (S (fresh s))) s).

Definition pushed (blk : nat) (s : Evaluator) : Evaluator :=
  set_fresh (S (fresh s)) (set_stack (mkFrame (fresh s) ∅ blk :: stack s) s).

Definition popped (s : Evaluator) : Evaluator :=
  set_stack (tail (stack s)) s.

(** A computation that throws no Return. *)
Definition quiet {A : Type} (m : M A) : Prop :=
  forall s, match m s with
            | Throw e _ => is_return e = false
            | _ => True
            end.

(** From a state [preserved] with respect to [sp], the computation ends
    in [Q] and throws no Return: what holds between the push and the pop
    of invokeFunction. *)
Definition inside {A : Type} (sp : Evaluator) (Q : Evaluator -> Prop)
           (m : M A) : Prop :=
  forall s, preserved sp s ->
    match m s with
    | Ok _ s' => Q s'
    | Throw e _ => is_return e = false
    | OutOfFuel => True
    end.

(** [f] bound to a function in the global frame, 200 calls under way. *)
Definition deep_in_calls : Evaluator :=
  set_calling (replicate 200 "f")
    (set_stack [frame_add "f" (Function "f" [] true [] None)
                          (mkFrame 1 ∅ root_id)]
               (new_evaluator Std.env [] [])).

(** [foo] is being called: the property [foo: 1px] stays a property. *)
Definition calling_foo : Evaluator :=
  set_calling ["foo"]
    (set_stack [frame_add "foo" (Function "foo" [] true [] None)
                          (mkFrame 1 ∅ root_id)]
               (new_evaluator Std.env [] [])).

(** ** What the further statements are about *)

(** A return statement. *)
Definition returns (n : Node) : bool :=
  match n with Return _ => true | _ => false end.

(** The arguments of a call without arguments, [f()], as [args] reads
    them: one expression, empty. *)
Definition no_arguments : Node := Expression false [Expression false []].

(** The text that [toString] of interpolate yields for a segment without
    visiting anything, and the segments that have one. *)
Definition segment_text (n : Node) : string :=
  match n with
  | Function name _ _ _ _ => name
  | Ident name _ _ => name
  | Literal val => val
  | String_ val => val
  | Unit val _ => pretty val
  | _ => ""
  end.

Definition textual (n : Node) : bool :=
  match n with
  | Function _ _ _ _ _ | Ident _ _ _ | Literal _ | String_ _ | Unit _ _ => true
  | _ => false
  end.

(** An environment for the examples that has a built-in, two colours and
    a file to import: [double(n)] doubles a unit; [lib.styl] holds the
    assignment [x = 1]. *)
Module Host.

Definition native_apply (fn : Native) (args : list Node) : Exn + Node :=
  match fn, args with
  | Bif name, [Unit v t] =>
      if String.eqb name "double" then inr (Unit (2 * v) t)
      else inl (Foreign "no such function")
  | _, _ => inl (Foreign "bad arguments")
  end.

Definition lib : list Node :=
  [Ident "x" (Expression false [Unit 1 ""]) false].

Definition env : Env :=
  mkEnv Std.first Std.toBoolean Std.coerce Std.operate Std.isEmpty Std.unwrap
        (fun _ => false) (fun name => String.eqb name "double")
        (fun _ => false) native_apply
        [("red", (255, 0, 0)%Z); ("blue", (0, 0, 255)%Z)]
        (fun path _ => if String.eqb path "lib.styl"
                       then Some "/lib.styl" else None)
        (fun _ => "/")
        (fun found => if String.eqb found "/lib.styl" then inr lib
                      else inl (Foreign "no such file")).

End Host.

(** The root [@import "lib"; foo: bar] while its first statement is
    visited. *)
Definition importing : Evaluator :=
  set_rootIndex (Some 0)
    (new_evaluator Host.env [Import "lib"; foo_bar] []).

(** The root [f(); foo: bar; baz: qux] while its second statement is
    visited in mixin mode. *)
Definition mixing : Evaluator :=
  set_blocks {[ root_id := mkBlockState KRoot
                             [Null; Call "f" no_arguments; baz_qux]
                             (Some 1) true 2 ]}
             (new_evaluator Std.env [] []).

(** A selector is being visited whose block is the block 0. *)
Definition in_group : Evaluator :=
  set_group (Some root_id) (new_evaluator Std.env [foo_bar] []).

(** [f] is bound to a function without parameters and with an empty
    body. *)
Definition empty_function_bound : Evaluator :=
  set_stack [frame_add "f" (Function "f" [] true [] None)
                       (mkFrame 1 ∅ root_id)]
            (new_evaluator Std.env [] []).

(** Frame identities are handed out once: no two frames of the stack
    share one, and each was handed out before. *)
Definition ids (s : Evaluator) : Prop :=
  NoDup (map fst (shape s)) /\ Forall (fun p => fst p < fresh s) (shape s).

(** [preserved], and the frames below the current one are as they were,
    scopes included. *)
Record undisturbed (s s' : Evaluator) : Prop := mkUndisturbed {
  un_pres : preserved s s';
  un_below : tail (stack s') = tail (stack s)
}.

(** A computation leaves the state [undisturbed] with respect to [s0],
    both when it returns and when it throws a Return. *)
Definition calm {A : Type} (s0 : Evaluator) (m : M A) : Prop :=
  forall s, undisturbed s0 s ->
    match m s with
    | Ok _ s' => undisturbed s0 s'
    | Throw e s' => is_return e = true -> undisturbed s0 s'
    | OutOfFuel => True
    end.

(** What is asked of the visitor that the visitors recurse through. *)
Definition lexical (v : Node -> M Node) : Prop :=
  forall n s, wf s -> ids s ->
    match v n s with
    | Ok _ s' => undisturbed s s'
    | Throw e s' => is_return e = true -> undisturbed s s'
    | OutOfFuel => True
    end.

(** From a state [undisturbed] with respect to [sp], the computation ends
    in [Q] and throws no Return. *)
Definition within {A : Type} (sp : Evaluator) (Q : Evaluator -> Prop)
           (m : M A) : Prop :=
  forall s, undisturbed sp s ->
    match m s with
    | Ok _ s' => Q s'
    | Throw e _ => is_return e = false
    | OutOfFuel => True
    end.

(** ** What the statements about the parser are about *)

(** What a production leaves in place when it takes tokens: the flags of
    the statement level, and the tokens it did not take. *)
Definition kept (p p' : Parser.State) : Prop :=
  Parser.inProperty p' = Parser.inProperty p
  /\ Parser.allowPostfix p' = Parser.allowPostfix p
  /\ Parser.tokens p' `suffix_of` Parser.tokens p.

(** Entered with the state stack [pre], the production leaves the state
    stack [post] when it parses, and never comes to a production of the
    statement level. *)
Definition holds {A : Type} (pre post : list string) (m : Parser.P A)
  : Prop :=
  forall p, Parser.state p = pre ->
    match m p with
    | Parser.Parsed _ p' => Parser.state p' = post /\ kept p p'
    | Parser.Unsupported _ => False
    | _ => True
    end.

(** From [p], the commas and the expressions that [list] reads after its
    first expression: [items] in order, up to [p'] where no comma
    follows. *)
Fixpoint listed (expression : Parser.P Node) (p : Parser.State)
         (items : list Node) (p' : Parser.State) : Prop :=
  match items with
  | [] => Parser.type (Parser.peek p) <> "," /\ p' = p
  | e :: rest =>
      Parser.type (Parser.peek p) = ","
      /\ exists p1,
           expression (Parser.set_tokens (tail (Parser.tokens p)) p)
           = Parser.Parsed e p1
           /\ listed expression p1 rest p'
  end.

(** From [p], the operators of [ops] and the operands that a binary
    level reads after its first operand, up to [p'] where no operator of
    [ops] follows. *)
Fixpoint chain (ops : list string) (level : Parser.P Node)
         (p : Parser.State) (items : list (string * Node))
         (p' : Parser.State) : Prop :=
  match items with
  | [] => (Parser.type (Parser.peek p) ∉ ops) /\ p' = p
  | (op, r) :: rest =>
      Parser.type (Parser.peek p) = op /\ op ∈ ops
      /\ exists p2,
           level (Parser.set_operand true
                    (Parser.set_tokens (tail (Parser.tokens p)) p))
           = Parser.Parsed r p2
           /\ chain ops level (Parser.set_operand false p2) rest p'
  end.

(** An expression flagged as a list. *)
Definition is_list (n : Node) : bool :=
  match n with Expression true _ => true | _ => false end.

(** The tokens of [1 + 2 - 3], [1, 2, 3], [x ?= 1] and [x += 1], each
    followed by a newline, read within the block of a selector. *)
Definition unit_tok (v : Z) : Parser.Token :=
  Parser.mkToken "unit" (Unit v "") (pretty v).

Definition within_selector (toks : list Parser.Token) : Parser.State :=
  Parser.mkState toks ["selector"; "root"] None false false false None false.

Definition sum_tokens : Parser.State :=
  within_selector [unit_tok 1; Parser.op_tok "+"; unit_tok 2;
                   Parser.op_tok "-"; unit_tok 3; Parser.op_tok "newline"].

Definition list_tokens : Parser.State :=
  within_selector [unit_tok 1; Parser.op_tok ","; unit_tok 2;
                   Parser.op_tok ","; unit_tok 3; Parser.op_tok "newline"].

Definition conditional_tokens : Parser.State :=
  within_selector [Parser.mkToken "ident" (Ident "x" Null false) "x";
                   Parser.op_tok "space"; Parser.op_tok "?="; unit_tok 1;
                   Parser.op_tok "newline"].

Definition compound_tokens : Parser.State :=
  within_selector [Parser.mkToken "ident" (Ident "x" Null false) "x";
                   Parser.op_tok "space"; Parser.op_tok "+="; unit_tok 1;
                   Parser.op_tok "newline"].

(** * The parser: statements

    The productions of [src/examples/middleware.js] that read statements.
    They run on the state of the expression level together with the two
    flags that only they use, [css] and [bracketed].  [this.parent], the
    block under construction, only links a block to the block around it
    and is left out: a block is the value of its statements.  The lexer
    has lexed the input: [lexer.allowComments], which [selector] sets
    and clears, has no bearing on the tokens given. *)
Module Statements.

Record Full := mkFull {
  core : Parser.State;
  css : bool;                     (* this.css, as a truth value *)
  bracketed : bool                (* this.bracketed *)
}.

Inductive Result (A : Type) :=
| Done (a : A) (q : Full)
| Error (msg : string) (q : Full)
| Elsewhere (what : string)       (* see [Parser.Unsupported] *)
| Starved.
Arguments Done {A} a q.
Arguments Error {A} msg q.
Arguments Elsewhere {A} what.
Arguments Starved {A}.

Definition Stm (A : Type) := Full -> Result A.

Definition sret {A} (a : A) : Stm A := fun q => Done a q.
Definition sfail {A} (msg : string) : Stm A := fun q => Error msg q.
Definition sbind {A B} (m : Stm A) (k : A -> Stm B) : Stm B :=
  fun q => match m q with
           | Done a q' => k a q'
           | Error msg q' => Error msg q'
           | Elsewhere w => Elsewhere w
           | Starved => Starved
           end.
Definition sget : Stm Full := fun q => Done q q.
Definition smodify (f : Full -> Full) : Stm unit := fun q => Done tt (f q).

Declare Scope stmt_scope.
Delimit Scope stmt_scope with stmt.
Notation "'let*' x := m 'in' k" := (sbind m (fun x => k))
  (at level 10, x name, m at level 100, k at level 200) : stmt_scope.
Notation "'exec' m 'in' k" := (sbind m (fun _ => k))
  (at level 10, m at level 100, k at level 200) : stmt_scope.
Open Scope stmt_scope.

Definition set_core (x : Parser.State) (q : Full) : Full :=
  mkFull x (css q) (bracketed q).
Definition set_css (x : bool) (q : Full) : Full :=
  mkFull (core q) x (bracketed q).
Definition set_bracketed (x : bool) (q : Full) : Full :=
  mkFull (core q) (css q) x.

(** A production of the expression level, run on the state at hand. *)
Definition lift {A} (m : Parser.P A) : Stm A :=
  fun q => match m (core q) with
           | Parser.Parsed a p => Done a (set_core p q)
           | Parser.Failed msg p => Error msg (set_core p q)
           | Parser.Unsupported w => Elsewhere w
           | Parser.NoFuel => Starved
           end.

Definition accept (ty : string) : Stm (option Parser.Token) :=
  lift (Parser.accept ty).
Definition expect (ty : string) : Stm Parser.Token := lift (Parser.expect ty).
Definition accept_any (tys : list string) : Stm (option Parser.Token) :=
  lift (Parser.accept_any tys).
Definition next : Stm Parser.Token := lift Parser.next.
Definition peek_type (q : Full) : string := Parser.type (Parser.peek (core q)).
Definition la_type (n : nat) (q : Full) : string :=
  Parser.type (Parser.lookahead n (core q)).
Definition push_state (s : string) : Stm unit := lift (Parser.push_state s).
Definition pop_state : Stm unit := lift Parser.pop_state.

(** middleware.js, 48-101 *)
Definition selectorTokens : list string :=
  ["ident"; "string"; "selector"; "function"; "comment"; "space"; "color";
   "unit"; "for"; "["; "]"; "("; ")"; "+"; "-"; "*"; "<"; ">"; "="; ":";
   "&"; "~"].

Definition pseudoSelectors : list string :=
  ["root"; "nth-child"; "nth-last-child"; "nth-of-type"; "nth-last-of-type";
   "first-child"; "last-child"; "first-of-type"; "last-of-type";
   "only-child"; "only-of-type"; "empty"; "link"; "visited"; "active";
   "hover"; "focus"; "target"; "lang"; "enabled"; "disabled"; "checked";
   "not"].

(** middleware.js, 255-269 *)
Definition isSelectorToken (n : nat) : Stm bool :=
  fun q =>
    let la := la_type n q in
    if String.eqb la "for" then Done (bracketed q) q
    else if String.eqb la "[" then Done true (set_bracketed true q)
    else if String.eqb la "]" then Done true (set_bracketed false q)
    else Done (Parser.mem la selectorTokens) q.

(** middleware.js, 279-281; the payload of a token without one is
    undefined, and has no [name]. *)
Definition isPseudoSelector (n : nat) : Stm bool :=
  fun q =>
    match Parser.val (Parser.lookahead n (core q)) with
    | Undefined => Error "TypeError: name of undefined" q
    | v => Done (Parser.mem (Parser.name_of v) pseudoSelectors) q
    end.

(** middleware.js, 287-289 *)
Definition selectorToken : Stm (option Parser.Token) :=
  let* ok := isSelectorToken 1 in
  if ok then (let* t := next in sret (Some t)) else sret None.

(** middleware.js, 295-307 *)
Fixpoint skipWhitespace (k : nat) : Stm unit :=
  match k with
  | 0 => fun _ => Starved
  | S k' =>
      fun q =>
        if Parser.mem (peek_type q) ["space"; "indent"; "outdent"; "newline"]
        then (exec next in skipWhitespace k') q
        else Done tt q
  end.

Fixpoint skipSpaces (k : nat) : Stm unit :=
  match k with
  | 0 => fun _ => Starved
  | S k' =>
      fun q =>
        if String.eqb "space" (peek_type q)
        then (exec next in skipSpaces k') q
        else Done tt q
  end.

(** middleware.js, 315-318 *)
Definition looksLikeFunctionDefinition (i : nat) (q : Full) : bool :=
  String.eqb "indent" (la_type i q) || String.eqb "{" (la_type i q).

(** middleware.js, 325-372.  The first loop, over the idents that stand
    on lines of their own. *)
Fixpoint skip_ident_lines (k i : nat) (q : Full) : option nat :=
  match k with
  | 0 => None
  | S k' =>
      if String.eqb "ident" (la_type i q)
         && String.eqb "newline" (la_type (i + 1) q)
      then skip_ident_lines k' (i + 2) q
      else Some i
  end.

(** The second loop: nothing when it returns [true], the position it
    stops at otherwise. *)
Fixpoint pseudo_scan (k i : nat) : Stm (option nat) :=
  match k with
  | 0 => fun _ => Starved
  | S k' =>
      let* ok := isSelectorToken i in
      if ok then
        fun q =>
          if String.eqb ":" (la_type i q)
          then (let* ps := isPseudoSelector (S i) in
                if ps then sret None else pseudo_scan k' (S i)) q
          else pseudo_scan k' (S i) q
      else sret (Some i)
  end.

(** The last loop, up to a separator. *)
Fixpoint skip_to_separator (k i : nat) (q : Full) : option nat :=
  match k with
  | 0 => None
  | S k' =>
      if Parser.mem (la_type i q)
           ["newline"; "indent"; "outdent"; "for"; "if"; ";"; "}"]
      then Some i
      else skip_to_separator k' (S i) q
  end.

(** [';' == this.lookahead(i)] compares the token as a string. *)
Definition looksLikeSelector (k : nat) : Stm bool :=
  fun q =>
    match skip_ident_lines k 1 q with
    | None => Starved
    | Some i =>
        (let* r := pseudo_scan k i in
         match r with
         | None => sret true
         | Some i =>
             fun q =>
               let la := la_type i q in
               let la1 := la_type (i + 1) q in
               let tx := Parser.text (Parser.lookahead i (core q)) in
               if String.eqb "," la && String.eqb "newline" la1
               then Done true q
               else if String.eqb "{" la && String.eqb "newline" la1
               then Done true q
               else if css q && (String.eqb ";" tx || String.eqb "}" tx)
               then Done false q
               else
                 match skip_to_separator k i q with
                 | None => Starved
                 | Some i => Done (String.eqb "indent" (la_type i q)) q
                 end
         end) q
    end.

(** middleware.js, 962-976: the lookahead of [function], which pairs the
    parentheses; it yields [i]. *)
Fixpoint pair_parens (k i parens : nat) (q : Full) : option nat :=
  match k with
  | 0 => None
  | S k' =>
      let ty := la_type i q in
      if String.eqb ty "function" || String.eqb ty "("
      then pair_parens k' (S i) (S parens) q
      else if String.eqb ty ")"
      then if Nat.eqb (parens - 1) 0 then Some (S i)
           else pair_parens k' (S i) (parens - 1) q
      else pair_parens k' (S i) parens q
  end.

(** [node.rest = true] and [node.val = expr] on the ident of a
    parameter. *)
Definition with_rest (n : Node) : Node :=
  match n with Ident name v _ => Ident name v true | _ => n end.
Definition with_val (v : Node) (n : Node) : Node :=
  match n with Ident name _ r => Ident name v r | _ => n end.

Definition js_string (n : Node) : string :=
  match n with JsString s => s | _ => "" end.
Definition string_val (n : Node) : string :=
  match n with String_ s => s | _ => "" end.

(** The states in which [stmt] takes a token for the start of a
    selector, and those tokens (middleware.js, 447-466). *)
Definition contextual_states : list string :=
  ["root"; "selector"; "conditional"; "keyframe"; "function"; "media";
   "for"].
Definition contextual_tokens : list string :=
  ["color"; "~"; "+"; ">"; "<"; "*"; ":"; "&"; "["].

(** ** The productions

    [statement] is the getter they recurse through; [stitch] is the text
    that the tokens of one selector make (middleware.js, 883-903): it
    reads [space] and [raw], which the lexer sets on the tokens. *)
Section Grammar.
Variable stitch : list Parser.Token -> string.
Variable statement : Stm Node.
Variable fuel : nat.

Definition expression : Stm Node := lift (Parser.expression fuel).

(** middleware.js, 480-524 *)
Fixpoint block_loop (k : nat) (delim : string) (acc : list Node)
  : Stm (list Node) :=
  match k with
  | 0 => fun _ => Starved
  | S k' =>
      fun q =>
        if String.eqb delim (peek_type q) then Done acc q
        else
          let css_style := css q in
          (let* nl := accept "newline" in
           match nl with
           | Some _ => block_loop k' delim acc
           | None =>
               let* stmt := statement in
               exec (if css_style
                     then exec accept ";" in skipWhitespace fuel
                     else sret tt) in
               if truthy stmt then block_loop k' delim (acc ++ [stmt])
               else sfail "unexpected token in block"
           end) q
  end.

Definition block_nodes : Stm (list Node) :=
  let* q0 := sget in
  let saved := css q0 in
  let* brace := accept "{" in
  exec smodify (set_css (bool_decide (is_Some brace))) in
  let delim := match brace with Some _ => "}" | None => "outdent" end in
  exec (match brace with
        | Some _ => skipWhitespace fuel
        | None => exec expect "indent" in sret tt
        end) in
  let* nodes := block_loop fuel delim [] in
  let* q := sget in
  exec (if css q
        then exec skipWhitespace fuel in
             exec expect "}" in
             exec skipSpaces fuel in
             smodify (set_css saved)
        else exec expect "outdent" in sret tt) in
  sret nodes.

Definition block (scope : bool) : Stm Node :=
  let* nodes := block_nodes in
  sret (Block scope nodes).

(** middleware.js, 530-541 *)
Definition for_ : Stm Node :=
  exec expect "for" in
  let* v := lift Parser.id in
  let* c := accept "," in
  let* key := match c with
              | Some _ => let* k := lift Parser.id in
                          sret (Some (Parser.name_of k))
              | None => sret None
              end in
  exec expect "in" in
  let* e := expression in
  exec push_state "for" in
  let* b := block true in
  exec pop_state in
  sret (Each (Parser.name_of v) key e b).

(** middleware.js, 547-553; [new nodes.Return] is given no
    expression. *)
Definition return_ : Stm Node :=
  exec expect "return" in
  let* e := expression in
  sret (if Parser.isEmpty e then Return Undefined else Return e).

(** middleware.js, 559-566 *)
Definition unless : Stm Node :=
  exec expect "unless" in
  let* c := expression in
  exec push_state "conditional" in
  let* b := block false in
  exec pop_state in
  sret (If c b [] true).

(** middleware.js, 572-589 *)
Fixpoint else_loop (k : nat) (elses : list Node) : Stm (list Node) :=
  match k with
  | 0 => fun _ => Starved
  | S k' =>
      let* e := accept "else" in
      match e with
      | None => sret elses
      | Some _ =>
          let* i := accept "if" in
          match i with
          | Some _ =>
              let* c := expression in
              let* b := block false in
              else_loop k' (elses ++ [If c b [] false])
          | None =>
              let* b := block false in
              sret (elses ++ [b])
          end
      end
  end.

Definition if_ : Stm Node :=
  exec expect "if" in
  let* c := expression in
  exec push_state "conditional" in
  let* b := block false in
  let* elses := else_loop fuel [] in
  exec pop_state in
  sret (If c b elses false).

(** middleware.js, 595-602 *)
Definition media : Stm Node :=
  let* tok := expect "media" in
  exec push_state "media" in
  let* b := block true in
  exec pop_state in
  sret (Media (js_string (Parser.val tok)) b).

(** middleware.js, 608-612 *)
Definition import : Stm Node :=
  exec expect "import" in
  exec lift (Parser.pmodify (Parser.set_allowPostfix true)) in
  let* tok := expect "string" in
  sret (Import (string_val (Parser.val tok))).

(** middleware.js, 618-623 *)
Definition charset : Stm Node :=
  exec expect "charset" in
  let* tok := expect "string" in
  exec lift (Parser.pmodify (Parser.set_allowPostfix true)) in
  sret (Charset (string_val (Parser.val tok))).

(** middleware.js, 629-641 *)
Definition page : Stm Node :=
  exec expect "page" in
  let* c := accept ":" in
  let* selector := match c with
                   | Some _ =>
                       let* tok := expect "ident" in
                       sret (Some (":" +:+ Parser.name_of (Parser.val tok)))
                   | None => sret None
                   end in
  exec push_state "page" in
  let* b := block true in
  exec pop_state in
  sret (Page selector b).

(** middleware.js, 647-696 *)
Fixpoint keyframes_loop (k : nat) (frames : list (Node * Node))
  : Stm (list (Node * Node)) :=
  match k with
  | 0 => fun _ => Starved
  | S k' =>
      let* pos := accept_any ["unit"; "ident"] in
      match pos with
      | None => sret frames
      | Some tok =>
          let* pos :=
            if String.eqb "ident" (Parser.type tok) then
              exec accept "space" in
              let name := Parser.name_of (Parser.val tok) in
              if String.eqb name "from" then sret (Unit 0 "%")
              else if String.eqb name "to" then sret (Unit 100 "%")
              else sfail "invalid ident in selector"
            else sret (Parser.val tok) in
          exec push_state "keyframe" in
          let* b := block true in
          exec pop_state in
          let* q := sget in
          exec (if css q then skipWhitespace fuel else sret tt) in
          keyframes_loop k' (frames ++ [(pos, b)])
      end
  end.

Definition keyframes : Stm Node :=
  exec expect "keyframes" in
  let* q0 := sget in
  let saved := css q0 in
  let* name := lift Parser.id in
  let* brace := accept "{" in
  exec smodify (set_css (bool_decide (is_Some brace))) in
  exec (match brace with
        | Some _ => skipWhitespace fuel
        | None => exec expect "indent" in sret tt
        end) in
  let* frames := keyframes_loop fuel [] in
  let* q := sget in
  exec (if css q
        then exec skipWhitespace fuel in
             exec expect "}" in
             smodify (set_css saved)
        else exec expect "outdent" in sret tt) in
  sret (Keyframes name frames).

(** middleware.js, 702-704 *)
Definition literal : Stm Node :=
  let* tok := expect "literal" in
  sret (Parser.val tok).

(** middleware.js, 804-821 *)
Fixpoint interpolate_loop (k : nat) (segs : list Node) : Stm (list Node) :=
  match k with
  | 0 => fun _ => Starved
  | S k' =>
      let* brace := accept "{" in
      match brace with
      | Some _ =>
          exec push_state "interpolation" in
          let* e := expression in
          exec expect "}" in
          exec pop_state in
          interpolate_loop k' (segs ++ [e])
      | None =>
          let* node := accept "ident" in
          match node with
          | Some tok => interpolate_loop k' (segs ++ [Parser.val tok])
          | None => sret segs
          end
      end
  end.

Definition interpolate : Stm (list Node) :=
  let* segs := interpolate_loop fuel [] in
  exec (match segs with
        | [] => exec expect "ident" in sret tt
        | _ => sret tt
        end) in
  sret segs.

(** middleware.js, 859-913 *)
Fixpoint selector_tokens (k : nat) (acc : list Parser.Token)
  : Stm (list Parser.Token) :=
  match k with
  | 0 => fun _ => Starved
  | S k' =>
      let* tok := selectorToken in
      match tok with
      | Some tok => selector_tokens k' (acc ++ [tok])
      | None => sret acc
      end
  end.

Fixpoint selector_loop (k : nat) (acc : list string) : Stm (list string) :=
  match k with
  | 0 => fun _ => Starved
  | S k' =>
      exec accept "newline" in
      let* toks := selector_tokens fuel [] in
      let* more := accept_any [","; "newline"] in
      match more with
      | Some _ => selector_loop k' (acc ++ [stitch toks])
      | None => sret (acc ++ [stitch toks])
      end
  end.

Definition selector : Stm Node :=
  let* selectors := selector_loop fuel [] in
  exec push_state "selector" in
  let* b := block true in
  exec pop_state in
  sret (Group selectors b).

(** middleware.js, 828-851; past the name and the colon it is
    [Parser.property_value]. *)
Definition property : Stm Node :=
  let* sel := looksLikeSelector fuel in
  if sel then selector
  else
    let* ident := interpolate in
    exec accept "space" in
    let* colon := accept ":" in
    exec (match colon with
          | Some _ => exec accept "space" in sret tt
          | None => sret tt
          end) in
    lift (Parser.property_value fuel ident).

(** middleware.js, 1030-1045 *)
Fixpoint params_loop (k : nat) (params : list Node) : Stm (list Node) :=
  match k with
  | 0 => fun _ => Starved
  | S k' =>
      let* tok := accept "ident" in
      match tok with
      | None => sret params
      | Some tok =>
          exec accept "space" in
          let* rest := accept "..." in
          let* node :=
            match rest with
            | Some _ => sret (with_rest (Parser.val tok))
            | None =>
                let* eq := accept "=" in
                match eq with
                | Some _ => let* e := expression in
                            sret (with_val e (Parser.val tok))
                | None => sret (Parser.val tok)
                end
            end in
          exec accept "," in
          params_loop k' (params ++ [node])
      end
  end.
Definition params : Stm (list Node) := params_loop fuel [].

(** middleware.js, 1006-1021; [fn.block = this.block(fn)] is a block
    with a scope, of which the function holds the flag and the
    statements. *)
Definition functionDefinition : Stm Node :=
  let* tok := expect "function" in
  let name := Parser.name_of (Parser.val tok) in
  exec push_state "function params" in
  let* ps := params in
  exec expect ")" in
  exec pop_state in
  exec push_state "function" in
  let* body := block_nodes in
  exec pop_state in
  sret (Ident name (Function name ps true body None) false).

(** middleware.js, 962-987 *)
Definition function_ : Stm Node :=
  fun q =>
    match pair_parens fuel 2 1 q with
    | None => Starved
    | Some i =>
        if String.eqb (Parser.currentState (core q)) "expression"
        then lift (Parser.functionCall (Parser.expression fuel) fuel) q
        else if looksLikeFunctionDefinition i q then functionDefinition q
        else expression q
    end.

(** middleware.js, 723-798, with the productions of the statement level
    that [Parser.ident] leaves out. *)
Definition ident : Stm Node :=
  fun q =>
    let p := core q in
    match Parser.skip_space fuel 2 p with
    | None => Starved
    | Some la =>
        if Parser.mem la Parser.assignment_ops
        then lift (Parser.assignment (Parser.expression fuel) fuel) q
        else if Parser.mem la Parser.operation_ops then
          if bool_decide (Parser.ident_ p
                          = Some (length (Parser.tokens p)))
          then lift Parser.id q
          else
            let q := set_core
                       (Parser.set_ident
                          (Some (length (Parser.tokens p))) p) q in
            let st := Parser.currentState (core q) in
            if Parser.mem st ["for"; "selector"] then property q
            else if String.eqb st "root" then selector q
            else if Parser.operand (core q) then lift Parser.id q
            else expression q
        else
          let st := Parser.currentState p in
          if String.eqb st "root" then selector q
          else if Parser.mem st ["for"; "page"; "media"; "selector";
                                 "function"; "keyframe"; "conditional"]
          then property q
          else lift Parser.id q
    end.

(** middleware.js, 425-474 *)
Definition stmt : Stm Node :=
  fun q =>
    let ty := peek_type q in
    if String.eqb ty "selector" then selector q
    else if String.eqb ty "literal" then literal q
    else if String.eqb ty "keyframes" then keyframes q
    else if String.eqb ty "charset" then charset q
    else if String.eqb ty "import" then import q
    else if String.eqb ty "media" then media q
    else if String.eqb ty "page" then page q
    else if String.eqb ty "ident" then ident q
    else if String.eqb ty "unless" then unless q
    else if String.eqb ty "function" then function_ q
    else if String.eqb ty "for" then for_ q
    else if String.eqb ty "if" then if_ q
    else if String.eqb ty "return" then return_ q
    else if String.eqb ty "{" then property q
    else if Parser.mem (Parser.currentState (core q)) contextual_states
            && Parser.mem ty contextual_tokens
    then selector q
    else
      (let* expr := expression in
       if Parser.isEmpty expr then sfail "unexpected token"
       else sret expr) q.

(** The states after which a conditional may follow the statement. *)
Definition postfix_states : list string :=
  ["assignment"; "expression"; "function arguments"].

(** middleware.js, 380-407 *)
Definition statement_body : Stm Node :=
  let* s := stmt in
  let* q := sget in
  let st := if Parser.allowPostfix (core q) then Some "expression"
            else Parser.prevState (core q) in
  exec (if Parser.allowPostfix (core q)
        then lift (Parser.pmodify (Parser.set_allowPostfix false))
        else sret tt) in
  if match st with
     | Some st => Parser.mem st postfix_states
     | None => false
     end
  then
    let* op := accept_any ["if"; "unless"] in
    match op with
    | Some op =>
        let* c := expression in
        exec accept ";" in
        sret (If c s [] (String.eqb "unless" (Parser.type op)))
    | None => sret s
    end
  else sret s.

(** middleware.js, 153-163: the statements pushed onto the root. *)
Fixpoint parse_loop (k : nat) (acc : list Node) : Stm (list Node) :=
  match k with
  | 0 => fun _ => Starved
  | S k' =>
      fun q =>
        if String.eqb "eos" (peek_type q) then Done acc q
        else
          (let* nl := accept "newline" in
           match nl with
           | Some _ => parse_loop k' acc
           | None =>
               let* s := statement in
               exec accept ";" in
               if truthy s then parse_loop k' (acc ++ [s])
               else sfail "unexpected token, not allowed at the root level"
           end) q
  end.
End Grammar.

(** [this.statement]; [fuel] bounds the nesting. *)
Fixpoint statement (stitch : list Parser.Token -> string) (fuel : nat)
  : Stm Node :=
  match fuel with
  | 0 => fun _ => Starved
  | S k => statement_body stitch (statement stitch k) k
  end.

(** [new Parser(str, options)]: neither flag is set. *)
Definition new_parser (toks : list Parser.Token) : Full :=
  mkFull (Parser.new_parser toks) false false.

(** [parser.parse()] *)
Definition parse (stitch : list Parser.Token -> string) (fuel : nat)
  : Stm (list Node) :=
  parse_loop (statement stitch fuel) fuel [].

End Statements.

(** ** What the statements about the statement level are about *)

(** What a production of the statement level leaves in place: no value
    of a property is being read, and the tokens it did not take are
    there; with [css_too], also that the mode of the braces is not on
    unless it was found on. *)
Definition steady (css_too : bool) (q q' : Statements.Full) : Prop :=
  Parser.inProperty (Statements.core q') = false
  /\ Parser.tokens (Statements.core q')
     `suffix_of` Parser.tokens (Statements.core q)
  /\ (css_too = true -> Statements.css q' = true -> Statements.css q = true).

(** Entered with the state stack [pre] and outside the value of a
    property, the production leaves the state stack [post] when it
    parses, and every production it comes to is one that is embedded. *)
Definition level {A : Type} (css_too : bool) (pre post : list string)
           (m : Statements.Stm A) : Prop :=
  forall q, Parser.state (Statements.core q) = pre ->
            Parser.inProperty (Statements.core q) = false ->
    match m q with
    | Statements.Done _ q' =>
        Parser.state (Statements.core q') = post /\ steady css_too q q'
    | Statements.Elsewhere _ => False
    | _ => True
    end.

(** The text of a selector's tokens, one after the other, for the
    examples. *)
Definition joined (toks : list Parser.Token) : string :=
  String.concat "" (map Parser.text toks).

Definition ident_tok (name : string) : Parser.Token :=
  Parser.mkToken "ident" (Ident name Null false) name.

(** Whether the state popped last is one after which [statement] looks
    for a conditional (middleware.js, 395-399). *)
Definition follows_postfix (p : Parser.State) : bool :=
  match Parser.prevState p with
  | Some st => Parser.mem st Statements.postfix_states
  | None => false
  end.

(** What a token adds to the count of open parentheses in the lookahead
    of [function], and the sum over the [len] tokens from the [i]-th
    ahead. *)
Definition paren_step (ty : string) : Z :=
  if String.eqb ty "function" || String.eqb ty "(" then 1
  else if String.eqb ty ")" then -1
  else 0.

Fixpoint paren_depth (q : Statements.Full) (i len : nat) : Z :=
  match len with
  | 0 => 0
  | S l => paren_step (Statements.la_type i q) + paren_depth q (S i) l
  end.

(** The tokens of a rule,

      body
        color red

    of a literal followed by [if x], and of the call [f(a] that is not
    closed. *)
Definition rule_tokens : list Parser.Token :=
  [ident_tok "body"; Parser.op_tok "indent"; ident_tok "color";
   Parser.op_tok "space"; ident_tok "red"; Parser.op_tok "newline";
   Parser.op_tok "outdent"].

Definition literal_tokens : list Parser.Token :=
  [Parser.mkToken "literal" (Literal "@x") "@x"; Parser.op_tok "if";
   ident_tok "x"; Parser.op_tok "newline"].

Definition unclosed_tokens : list Parser.Token :=
  [Parser.mkToken "function" (Ident "f" Null false) "f"; ident_tok "a";
   Parser.op_tok "newline"].

Definition definition_tokens : list Parser.Token :=
  [Parser.mkToken "function" (Ident "f" Null false) "f";
   Parser.mkToken "function" (Ident "g" Null false) "g"; ident_tok "a";
   Parser.op_tok ")"; Parser.op_tok ")"; Parser.op_tok "indent"].

(** A parser at the root that popped the state of an expression last. *)
Definition after_expression (toks : list Parser.Token) : Statements.Full :=
  Statements.mkFull
    (Parser.mkState toks ["root"] (Some "expression") false false false
                    None false)
    false false.
(** What [scope.add] makes of a frame, the values apart: the frame with
    the names that its scope binds. *)
Definition frame_names (f : Frame) : nat * gset string * nat :=
  (fid f, dom (fscope f), fblock f).

(** What may stand between an ident and the token after it: nothing, or
    the one space token that [id] accepts (middleware.js, 712). *)
Definition optional_space (sp : list Parser.Token) : Prop :=
  sp = [] \/ exists t, sp = [t] /\ Parser.type t = "space".

(** [f] bound to a function in the global frame, 199 names on
    [calling], none of them [f]. *)
Definition nearly_deep_in_calls : Evaluator :=
  set_calling (replicate 199 "g")
    (set_stack [frame_add "f" (Function "f" [] true [] None)
                          (mkFrame 1 ∅ root_id)]
               (new_evaluator Std.env [] [])).

(** The functions [f0], [f1], ... each of which calls the next through
    a property, and the rule that calls the first:

      f0()
        f1: 1
      f1()
        f2: 1
      ...
      a
        f0: 1 *)
Definition chain_name (i : nat) : string := "f" +:+ pretty i.

Definition chain_function (i : nat) : Node :=
  Ident (chain_name i)
    (Function (chain_name i) [] true
       [Property [Ident (chain_name (S i)) Null false]
                 (Expression false [Unit 1 ""]) None false]
       None) false.

Definition property_chain (n : nat) : list Node :=
  map chain_function (seq 0 n)
  ++ [Group ["a"]
        (Block true
           [Property [Ident (chain_name 0) Null false]
                     (Expression false [Unit 1 ""]) None false])].

(** * Properties of the evaluator *)

(** ** The monad, unfolded *)

Lemma bind_unfold {A B : Type} (m : M A) (k : A -> M B) (s : Evaluator) :
  bind m k s = match m s with
               | Ok a s' => k a s'
               | Throw e s' => Throw e s'
               | OutOfFuel => OutOfFuel
               end.
Proof. reflexivity. Qed.

Lemma in_return_mode_unfold {A : Type} (m : M A) (s : Evaluator) :
  in_return_mode m s = match m (set_return true s) with
                       | Ok a s' => Ok a (set_return (return_ s) s')
                       | Throw e s' => Throw e s'
                       | OutOfFuel => OutOfFuel
                       end.
Proof.
  unfold in_return_mode, bind, get, modify, ret.
  destruct (m (set_return true s)); reflexivity.
Qed.

(** ** Calls that resolve to no function *)

Lemma lookupFunction_none (env : Env) (name : string) :
  functions env name = false -> bifs env name = false ->
  lookupFunction env name = None.
Proof.
  intros Hf Hb. unfold lookupFunction. now rewrite Hf, Hb.
Qed.

Lemma resolve_not_function (env : Env) (s : Evaluator) (name : string) :
  bound_to_function env s name = false ->
  functions env name = false -> bifs env name = false ->
  match js_opt (resolve env s name) with
  | Some f => is_function f = false
  | None => True
  end.
Proof.
  intros Hb Hf Hbif.
  pose proof (lookupFunction_none env name Hf Hbif) as Hl.
  unfold resolve, lookup, bound_to_function in *. rewrite Hl.
  destruct (js_opt (stack_lookup (stack s) name)) as [v|]; [|exact I].
  destruct (unwrap env v) as [| | | | | | | | |il ns| | | | | | | | | | | | | | | | |];
    simpl; try exact I; try discriminate Hb.
  - destruct s0; simpl; exact I.
  - destruct ns as [|x xs]; simpl; [exact I|].
    destruct x; simpl; try exact I; try discriminate Hb.
    destruct s0; simpl; exact I.
Qed.

(** C1.  A call whose name resolves to no function -- none bound on the
    stack, no host function, no built-in -- is handed to [literalCall]:
    the arguments are visited and the call comes back with its name and
    the visited arguments. *)
Theorem visitCall_literal (env : Env) (fuel : nat) (name : string)
        (args : Node) (s : Evaluator) :
  bound_to_function env s name = false ->
  functions env name = false ->
  bifs env name = false ->
  visit env (S fuel) (Call name args) s
    = literalCall (visit env fuel) name args s
  /\ (forall a s', visit env fuel args s = Ok a s' ->
        visit env (S fuel) (Call name args) s = Ok (Call name a) s').
Proof.
  intros Hb Hf Hbif.
  pose proof (resolve_not_function env s name Hb Hf Hbif) as Hr.
  assert (E : visit env (S fuel) (Call name args) s
              = literalCall (visit env fuel) name args s).
  { simpl. unfold visitCall, bind, get.
    destruct (js_opt (resolve env s name)) as [f|]; [|reflexivity].
    destruct f; try reflexivity. discriminate Hr. }
  split; [exact E|].
  intros a s' Ha. rewrite E. unfold literalCall, bind, ret. now rewrite Ha.
Qed.

Lemma visitCall_literal_witness :
  visit Std.env 4
        (Call "calc" (Expression false [Expression false [Unit 1 "px"]]))
        (new_evaluator Std.env [] [])
  = Ok (Call "calc" (Expression false [Expression false [Unit 1 "px"]]))
       (new_evaluator Std.env [] []).
Proof.
  apply (proj2 (visitCall_literal Std.env 3 "calc"
                  (Expression false [Expression false [Unit 1 "px"]])
                  (new_evaluator Std.env [] [])
                  eq_refl eq_refl eq_refl)).
  reflexivity.
Defined.

(** ** The recursion guard *)


(** A function that calls itself without end: the evaluation fails with
    the RangeError, 201 names on [calling].

    g()
      return g()
    a
      width: g() *)
Example runaway_recursion :
  match evaluate Std.env 810
          [Ident "g"
             (Function "g" [] true
                [Return (Expression false
                           [Call "g" (Expression false
                                        [Expression false []])])]
                None) false;
           Group ["a"]
             (Block true
                [Property [Ident "width" Null false]
                   (Expression false
                      [Call "g" (Expression false [Expression false []])])
                   None false])] [] []
  with
  | Throw e s =>
      e = RangeError "Maximum call stack size exceeded"
      /\ length (calling s) = 201
  | _ => False
  end.
Proof. vm_compute. split; reflexivity. Qed.


(** ** Properties *)


(** The property [foo: n] in the body of the function [foo], which the
    property [foo: 1px] of the block calls: it comes out as a property.

    foo(n)
      foo: n
    body
      foo: 1px *)
Example property_in_own_function :
  match evaluate Std.env 14
          [Ident "foo"
             (Function "foo" [Ident "n" Null false] true
                [Property [Ident "foo" Null false]
                          (Expression false [Ident "n" Null false])
                          None false]
                None) false;
           Group ["body"]
             (Block true
                [Property [Ident "foo" Null false]
                          (Expression false [Unit 1 "px"]) None false])]
          [] []
  with
  | Ok nodes _ =>
      nodes !! 1
      = Some (Group ["body"]
                (Block true
                   [Property [Ident "foo" Null false]
                             (Expression false [Unit 1 "px"])
                             (Some "foo") true]))
  | _ => False
  end.
Proof. vm_compute. reflexivity. Qed.

(** C8, as the code has it.  A property flagged literal is never taken
    for a call: its name is interpolated again and its expression visited
    again in return mode, and it comes back flagged literal.  The visit
    is the identity when the segments and the expression come back as
    they were. *)
Theorem visitProperty_literal (env : Env) (fuel : nat)
        (segments : list Node) (expr : Node) (pname : option string)
        (s : Evaluator) :
  visit env (S fuel) (Property segments expr pname true) s
    = (do r <- interpolate env (visit env fuel) fuel segments;
       do e <- in_return_mode (visit env fuel expr);
       ret (Property (snd r) e (Some (fst r)) true)) s
  /\ (forall name s1 s2,
        interpolate env (visit env fuel) fuel segments s
          = Ok (name, segments) s1 ->
        pname = Some name ->
        visit env fuel expr (set_return true s1) = Ok expr s2 ->
        visit env (S fuel) (Property segments expr pname true) s
          = Ok (Property segments expr pname true)
               (set_return (return_ s1) s2)).
Proof.
  assert (E : visit env (S fuel) (Property segments expr pname true) s
    = (do r <- interpolate env (visit env fuel) fuel segments;
       do e <- in_return_mode (visit env fuel expr);
       ret (Property (snd r) e (Some (fst r)) true)) s).
  { simpl. unfold visitProperty. rewrite !bind_unfold.
    destruct (interpolate env (visit env fuel) fuel segments s)
      as [[name segs'] s1| |]; try reflexivity.
    rewrite bind_unfold. unfold get. simpl negb.
    rewrite andb_false_r. reflexivity. }
  split; [exact E|].
  intros name s1 s2 Hi Hn He. rewrite E.
  rewrite bind_unfold, Hi. subst pname.
  rewrite bind_unfold, in_return_mode_unfold, He. reflexivity.
Qed.

(** C8, counterexample.  The property [width: y], flagged literal, does
    not come back as it was when [y] has been bound since: its expression
    is visited again and now holds the value of [y]. *)
Lemma visitProperty_literal_not_identity :
  visit Std.env 5 width_y y_bound
    = Ok (Property [Ident "width" Null false]
                   (Expression false [Expression false [Unit 5 ""]])
                   (Some "width") true)
         y_bound
  /\ visit Std.env 5 width_y y_bound <> Ok width_y y_bound.
Proof.
  assert (E : visit Std.env 5 width_y y_bound
              = Ok (Property [Ident "width" Null false]
                      (Expression false [Expression false [Unit 5 ""]])
                      (Some "width") true) y_bound)
    by (vm_compute; reflexivity).
  split; [exact E|]. rewrite E. unfold width_y. intros H. discriminate H.
Qed.

(** The same within one evaluation: the body of the loop is evaluated
    before [y = 5] and mixed into the block, after the assignment; the
    block then visits the two properties again.

    a
      for v in 1 2
        width: y
      y = 5 *)
Example revisit_after_each :
  match evaluate Std.env 12
          [Group ["a"]
             (Block true
                [Each "v" None (Expression false [Unit 1 ""; Unit 2 ""])
                      (Block true
                         [Property [Ident "width" Null false]
                                   (Expression false [Ident "y" Null false])
                                   None false]);
                 Ident "y" (Expression false [Unit 5 ""]) false])] [] []
  with
  | Ok nodes _ =>
      nodes = [Group ["a"]
                 (Block true
                    [Null; Expression false [Unit 5 ""];
                     Property [Ident "width" Null false]
                       (Expression false [Expression false [Unit 5 ""]])
                       (Some "width") true;
                     Property [Ident "width" Null false]
                       (Expression false [Expression false [Unit 5 ""]])
                       (Some "width") true])]
  | _ => False
  end.
Proof. vm_compute. reflexivity. Qed.

(** ** Binary operators *)

Lemma eqb_ne (a b : string) : a <> b -> String.eqb a b = false.
Proof. intros H. now apply String.eqb_neq. Qed.

(** C6.  When the operands are visited and the coercion of the right one
    to the left one throws: [==] and [!=] yield the boolean false; an
    operator that coerces and is neither of them lets the error through.
    The operators [[]], [in], [||], [&&], [is a] and [is defined] do not
    coerce, nor does [-] between an ident and a unit. *)
Theorem visitBinOp_coercion_failure (env : Env) (fuel : nat) (op : string)
        (l r : Node) (s : Evaluator) (l' r' : Node) (s1 s2 : Evaluator)
        (err : Exn) :
  visit env fuel l (set_return true s) = Ok l' s1 ->
  visit env fuel r s1 = Ok r' s2 ->
  coerce env (first env l') (first env r') = inl err ->
  (op = "==" \/ op = "!=" ->
     visit env (S fuel) (BinOp op l r) s
       = Ok (Boolean false) (set_return (return_ s) s2))
  /\ (op ∉ ["=="; "!="; "[]"; "in"; "||"; "&&"; "is a"; "is defined"] ->
      ~ (op = "-" /\ nodeName (first env l') = "ident"
                  /\ nodeName (first env r') = "unit") ->
      visit env (S fuel) (BinOp op l r) s
        = Throw err (set_return (return_ s) s2)).
Proof.
  intros Hl Hr Hc.
  assert (V : forall k : Node * Node -> M Node,
             (do lr <- in_return_mode (do l0 <- visit env fuel l;
                                       do r0 <- visit env fuel r;
                                       ret (l0, r0)); k lr) s
             = k (l', r') (set_return (return_ s) s2)).
  { intros k. rewrite bind_unfold, in_return_mode_unfold.
    rewrite bind_unfold, Hl, bind_unfold, Hr. reflexivity. }
  split.
  - intros [-> | ->]; simpl; unfold visitBinOp; simpl;
      rewrite V; simpl; rewrite Hc; reflexivity.
  - intros Hop Hminus.
    repeat (apply not_elem_of_cons in Hop; destruct Hop as [? Hop]).
    simpl. unfold visitBinOp.
    rewrite (eqb_ne op "is defined"), (eqb_ne op "[]"), (eqb_ne op "in"),
      (eqb_ne op "||"), (eqb_ne op "&&"), (eqb_ne op "is a"),
      (eqb_ne op "=="), (eqb_ne op "!=") by assumption.
    rewrite V. simpl.
    destruct (String.eqb op "-") eqn:Em.
    + apply String.eqb_eq in Em.
      destruct (first env l') eqn:El; destruct (first env r') eqn:Er;
        try (cbv beta iota; rewrite Hc; reflexivity).
      exfalso. apply Hminus. repeat split; auto.
    + rewrite Hc. reflexivity.
Qed.

(** ** Invocation in return mode *)

Lemma eval_from_stepped (n node : Node) (rest : list Node) :
  stepped n = true -> eval_from node (n :: rest) = eval_from n rest.
Proof. destruct n; simpl; intros H; try reflexivity; discriminate H. Qed.

(** Among the statements it steps over the scan yields the expression of
    the first return. *)
Lemma eval_first_return (pre rest : list Node) (e : Node) :
  forallb stepped pre = true -> eval (pre ++ Return e :: rest) = Some e.
Proof.
  unfold eval. generalize Undefined as node.
  induction pre as [|n pre IH]; intros node H; simpl in *.
  - reflexivity.
  - apply andb_prop in H as [Hn Hpre].
    change (eval_from node (n :: pre ++ Return e :: rest) = Some e).
    rewrite eval_from_stepped by exact Hn. apply IH, Hpre.
Qed.

(** Without a return and without a block it yields the last statement. *)
Lemma eval_last_statement (nodes : list Node) :
  forallb stepped nodes = true ->
  eval nodes = Some (List.last nodes Undefined).
Proof.
  unfold eval. generalize Undefined as node.
  induction nodes as [|n nodes IH]; intros node H; simpl in *.
  - reflexivity.
  - apply andb_prop in H as [Hn Hrest].
    change (eval_from node (n :: nodes)
            = Some match nodes with
                   | [] => n
                   | _ :: _ => List.last nodes node
                   end).
    rewrite eval_from_stepped by exact Hn. rewrite IH by exact Hrest.
    destruct nodes as [|m nodes]; [reflexivity|]. f_equal.
    clear. revert m. induction nodes as [|k nodes IHn]; intros m.
    + reflexivity.
    + simpl in *. apply IHn.
Qed.

Lemma eval_block_unfold (scope : bool) (inner : list Node) :
  eval_block (Block scope inner) = eval inner.
Proof.
  unfold eval. cbn [eval_block]. generalize Undefined as node.
  induction inner as [|n inner IH]; intros node; [reflexivity|].
  destruct n; cbn [eval_from]; try apply IH; reflexivity.
Qed.

(** At a nested block the scan yields what the scan of the block yields,
    whatever follows the block. *)
Lemma eval_first_block (pre rest inner : list Node) (scope : bool) :
  forallb stepped pre = true ->
  eval (pre ++ Block scope inner :: rest) = eval inner.
Proof.
  intros H. rewrite <- (eval_block_unfold scope inner).
  unfold eval. revert H. generalize Undefined as node.
  induction pre as [|n pre IH]; intros node H; simpl in *.
  - reflexivity.
  - apply andb_prop in H as [Hn Hpre].
    change (eval_from node (n :: pre ++ Block scope inner :: rest)
            = eval_block (Block scope inner)).
    rewrite eval_from_stepped by exact Hn. apply IH, Hpre.
Qed.

(** At an entry that is undefined the scan throws. *)
Lemma eval_first_undefined (pre rest : list Node) :
  forallb stepped pre = true -> eval (pre ++ Undefined :: rest) = None.
Proof.
  intros H.
  assert (G : forall node, eval_from node (pre ++ Undefined :: rest) = None).
  { induction pre as [|n pre IH]; intros node; simpl in *.
    - reflexivity.
    - apply andb_prop in H as [Hn Hpre].
      change (eval_from node (n :: pre ++ Undefined :: rest) = None).
      rewrite eval_from_stepped by exact Hn. apply IH, Hpre. }
  apply G.
Qed.

(** C2, as the code has it.  In return mode [invoke] yields what the scan
    of the body yields, and throws a TypeError when the scan comes to an
    entry that is undefined.  The scan goes through the statements from
    the first: at a Return it yields the expression of the Return; at a
    nested block it yields what the scan of that block yields, whether
    the block holds a Return or not; with neither a Return nor a block in
    the list it yields the last statement. *)
Theorem invoke_return_mode (body : list Node) (s : Evaluator) (f : Frame) :
  return_ s = true ->
  currentFrame s = Some f ->
  invoke body s
  = match eval body with
    | Some node => Ok node s
    | None => Throw (TypeError "nodeName of undefined") s
    end
  /\ (forall pre e rest, forallb stepped pre = true ->
        eval (pre ++ Return e :: rest) = Some e)
  /\ (forall pre scope inner rest, forallb stepped pre = true ->
        eval (pre ++ Block scope inner :: rest) = eval inner)
  /\ (forall nodes, forallb stepped nodes = true ->
        eval nodes = Some (List.last nodes Undefined))
  /\ (forall pre rest, forallb stepped pre = true ->
        eval (pre ++ Undefined :: rest) = None).
Proof.
  intros Hr Hf. split; [|split; [|split; [|split]]].
  - unfold invoke. rewrite bind_unfold. unfold the_frame. rewrite Hf.
    rewrite bind_unfold. unfold get. rewrite Hr.
    now destruct (eval body).
  - intros pre e rest H. now apply eval_first_return.
  - intros pre scope inner rest H. now apply eval_first_block.
  - intros nodes H. now apply eval_last_statement.
  - intros pre rest H. now apply eval_first_undefined.
Qed.

(** C2, counterexample.  In return mode [invoke] yields [foo: bar], the
    last statement of the nested block, for both bodies: not the
    expression of the Return that the first holds, and not the last
    statement of the second, which holds no Return at all. *)
Lemma invoke_stops_at_nested_block :
  invoke branch_then_return (set_return true (new_evaluator Std.env [] []))
    = Ok foo_bar (set_return true (new_evaluator Std.env [] []))
  /\ foo_bar <> Expression false [Unit 5 ""]
  /\ invoke branch_then_statement
            (set_return true (new_evaluator Std.env [] []))
     = Ok foo_bar (set_return true (new_evaluator Std.env [] []))
  /\ List.last branch_then_statement Undefined = baz_qux
  /\ foo_bar <> baz_qux.
Proof.
  repeat split; try (vm_compute; reflexivity);
    unfold foo_bar, baz_qux; intros H; discriminate H.
Qed.

(** The same through a call: [width: f()] comes out holding the property
    of the branch. *)
Example call_stops_at_nested_block :
  match evaluate Std.env 12
          [Ident "f"
             (Function "f" [] true
                [If (Expression false [Boolean true])
                    (Block false
                       [Property [Ident "foo" Null false]
                                 (Expression false [Ident "bar" Null false])
                                 None false])
                    [] false;
                 Return (Expression false [Unit 5 ""])] None) false;
           Group ["a"]
             (Block true
                [Property [Ident "width" Null false]
                   (Expression false
                      [Call "f" (Expression false [Expression false []])])
                   None false])] [] []
  with
  | Ok nodes _ =>
      nodes !! 1 =
        Some (Group ["a"]
                (Block true
                   [Property [Ident "width" Null false]
                      (Expression false [foo_bar]) (Some "width") true]))
  | _ => False
  end.
Proof. vm_compute. reflexivity. Qed.

(** * Properties of the parser *)

(** ** The slash of a property value *)

Lemma peek_cons (p : Parser.State) (tok : Parser.Token)
      (rest : list Parser.Token) :
  Parser.tokens p = tok :: rest -> Parser.peek p = tok.
Proof. intros H. unfold Parser.peek. now rewrite H. Qed.

Lemma accept_hit (p : Parser.State) (tok : Parser.Token)
      (rest : list Parser.Token) (ty : string) :
  Parser.tokens p = tok :: rest ->
  Parser.type tok = ty ->
  Parser.accept ty p = Parser.Parsed (Some tok) (Parser.set_tokens rest p).
Proof.
  intros Ht Hty. unfold Parser.accept.
  rewrite (peek_cons p tok rest Ht), Hty, String.eqb_refl.
  unfold Parser.pbind, Parser.next, Parser.pret.
  rewrite (peek_cons p tok rest Ht), Ht. reflexivity.
Qed.

Lemma accept_miss (p : Parser.State) (tok : Parser.Token)
      (rest : list Parser.Token) (ty : string) :
  Parser.tokens p = tok :: rest ->
  String.eqb ty (Parser.type tok) = false ->
  Parser.accept ty p = Parser.Parsed None p.
Proof.
  intros Ht Hty. unfold Parser.accept.
  now rewrite (peek_cons p tok rest Ht), Hty.
Qed.

Lemma accept_slash (p : Parser.State) (op : Parser.Token)
      (rest : list Parser.Token) :
  Parser.tokens p = op :: rest ->
  Parser.type op = "/" ->
  Parser.accept_any ["**"; "*"; "/"; "%"] p
    = Parser.Parsed (Some op) (Parser.set_tokens rest p).
Proof.
  intros Ht Hty. cbn [Parser.accept_any]. unfold Parser.pbind at 1.
  rewrite (accept_miss p op rest "**" Ht) by (now rewrite Hty).
  unfold Parser.pbind at 1.
  rewrite (accept_miss p op rest "*" Ht) by (now rewrite Hty).
  unfold Parser.pbind at 1.
  rewrite (accept_hit p op rest "/" Ht Hty). reflexivity.
Qed.

(** Within a property value and outside parentheses, a [/] ends the
    multiplicative level: the result is the expression of the left
    operand and the literal [/]. *)
Lemma slash_in_property_is_literal (expression : Parser.P Node)
      (fuel k : nat) (node : Node) (p : Parser.State) (op : Parser.Token)
      (rest : list Parser.Token) :
  Parser.tokens p = op :: rest ->
  Parser.type op = "/" ->
  Parser.text op = "/" ->
  Parser.inProperty p = true ->
  Parser.parens p = false ->
  Parser.multiplicative_loop expression fuel (S k) node p
    = Parser.Parsed (Expression false [node; Literal "/"])
                    (Parser.set_operand true (Parser.set_tokens rest p)).
Proof.
  intros Ht Hty Htx Hin Hpar. cbn [Parser.multiplicative_loop].
  unfold Parser.pbind at 1. rewrite (accept_slash p op rest Ht Hty).
  unfold Parser.pbind, Parser.pmodify, Parser.pget.
  cbn [Parser.inProperty Parser.parens Parser.set_operand Parser.set_tokens].
  rewrite Htx, Hin, Hpar. reflexivity.
Qed.

(** Between parentheses the same [/] makes a division of the left operand
    and of what [defined] reads next. *)
Lemma slash_in_parens_is_division (expression : Parser.P Node)
      (fuel k : nat) (node r : Node) (p p' : Parser.State)
      (op : Parser.Token) (rest : list Parser.Token) :
  Parser.tokens p = op :: rest ->
  Parser.type op = "/" ->
  Parser.parens p = true ->
  truthy node = true ->
  Parser.defined expression fuel
                 (Parser.set_operand true (Parser.set_tokens rest p))
    = Parser.Parsed r p' ->
  Parser.multiplicative_loop expression fuel (S k) node p
    = Parser.multiplicative_loop expression fuel k (BinOp "/" node r)
                                 (Parser.set_operand false p').
Proof.
  intros Ht Hty Hpar Hnode Hd. cbn [Parser.multiplicative_loop].
  unfold Parser.pbind at 1. rewrite (accept_slash p op rest Ht Hty).
  unfold Parser.pbind at 1, Parser.pmodify.
  unfold Parser.pbind at 1, Parser.pget.
  cbn [Parser.inProperty Parser.parens Parser.set_operand Parser.set_tokens].
  rewrite Hpar, andb_false_r, Hnode.
  unfold Parser.pbind at 1. rewrite Hd.
  unfold Parser.pbind at 1, Parser.pmodify. rewrite Hty. reflexivity.
Qed.

(** C7, at the failing input.  The [/] of [margin: ((16px) / 2)] stands
    between parentheses, yet the parser reads it as the literal [/] and
    builds no division: the inner [)] has put [parens] back to false. *)
Theorem slash_after_nested_parens :
  match Parser.property_value 8 [Ident "margin" Null false]
                              nested_parens_value with
  | Parser.Parsed n _ =>
      n = Property [Ident "margin" Null false]
            (Expression false
               [Expression false
                  [Expression false
                     [Expression false [Unit 16 "px"]; Literal "/"];
                   Unit 2 ""]])
            None false
  | _ => False
  end.
Proof. vm_compute. reflexivity. Qed.

(** With one pair of parentheses the division is built, and without any
    the slash is kept: [margin: (16px / 2)] and [font: 16px/2]. *)
Example slash_in_single_parens :
  match Parser.property_value 8 [Ident "margin" Null false]
          (Parser.mkState
             [Parser.op_tok "("; Parser.mkToken "unit" (Unit 16 "px") "16px";
              Parser.op_tok "/"; Parser.mkToken "unit" (Unit 2 "") "2";
              Parser.op_tok ")"; Parser.op_tok "newline"]
             ["selector"; "root"] None false false false None false) with
  | Parser.Parsed n _ =>
      n = Property [Ident "margin" Null false]
            (Expression false
               [Expression false [BinOp "/" (Unit 16 "px") (Unit 2 "")]])
            None false
  | _ => False
  end.
Proof. vm_compute. reflexivity. Qed.

Example slash_without_parens :
  match Parser.property_value 8 [Ident "font" Null false]
          (Parser.mkState
             [Parser.mkToken "unit" (Unit 16 "px") "16px";
              Parser.op_tok "/"; Parser.mkToken "unit" (Unit 2 "") "2";
              Parser.op_tok "newline"]
             ["selector"; "root"] None false false false None false) with
  | Parser.Parsed n _ =>
      n = Property [Ident "font" Null false]
            (Expression false
               [Expression false [Unit 16 "px"; Literal "/"]; Unit 2 ""])
            None false
  | _ => False
  end.
Proof. vm_compute. reflexivity. Qed.

(** ** Conditional assignment *)

Lemma expect_hit (p : Parser.State) (tok : Parser.Token)
      (rest : list Parser.Token) (ty : string) :
  Parser.tokens p = tok :: rest ->
  Parser.type tok = ty ->
  Parser.expect ty p = Parser.Parsed tok (Parser.set_tokens rest p).
Proof.
  intros Ht Hty. unfold Parser.expect.
  rewrite (peek_cons p tok rest Ht), Hty, String.eqb_refl.
  unfold Parser.next. rewrite (peek_cons p tok rest Ht), Ht. reflexivity.
Qed.

Lemma id_takes_space (p : Parser.State) (tok op : Parser.Token)
      (sp rest : list Parser.Token) :
  Parser.tokens p = tok :: sp ++ op :: rest ->
  Parser.type tok = "ident" ->
  optional_space sp ->
  String.eqb "space" (Parser.type op) = false ->
  Parser.id p = Parser.Parsed (Parser.val tok)
                              (Parser.set_tokens (op :: rest) p).
Proof.
  intros Ht Hid Hsp Hop. unfold Parser.id.
  unfold Parser.pbind at 1.
  rewrite (expect_hit p tok (sp ++ op :: rest) "ident" Ht Hid).
  unfold Parser.pbind at 1.
  destruct Hsp as [->|(t & -> & Hty)].
  - assert (Ht' : Parser.tokens (Parser.set_tokens (op :: rest) p)
                  = op :: rest) by reflexivity.
    cbn [app]. rewrite (accept_miss _ op rest "space" Ht' Hop).
    reflexivity.
  - assert (Ht' : Parser.tokens (Parser.set_tokens (t :: op :: rest) p)
                  = t :: op :: rest) by reflexivity.
    cbn [app]. rewrite (accept_hit _ t (op :: rest) "space" Ht' Hty).
    reflexivity.
Qed.

Lemma assignment_conditional (expression : Parser.P Node) (fuel : nat)
      (p : Parser.State) (tok op : Parser.Token)
      (sp rest : list Parser.Token)
      (expr : Node) (p2 : Parser.State) :
  Parser.tokens p = tok :: sp ++ op :: rest ->
  Parser.type tok = "ident" ->
  optional_space sp ->
  Parser.type op = "?=" ->
  Parser.list_ expression fuel
    (Parser.set_state ("assignment" :: Parser.state p) (Parser.prevState p)
                      (Parser.set_tokens rest p))
    = Parser.Parsed expr p2 ->
  Parser.isEmpty expr = false ->
  Parser.assignment expression fuel p
    = Parser.Parsed
        (conditional_assignment (Parser.name_of (Parser.val tok)) expr)
        (Parser.set_state (tail (Parser.state p2)) (head (Parser.state p2))
                          p2).
Proof.
  intros Ht Hid Hsp Hop Hl He.
  unfold Parser.assignment.
  unfold Parser.pbind at 1.
  rewrite (id_takes_space p tok op sp rest Ht Hid Hsp)
    by (now rewrite Hop).
  assert (Ht' : Parser.tokens (Parser.set_tokens (op :: rest) p) = op :: rest)
    by reflexivity.
  cbn [Parser.accept_any]. unfold Parser.pbind at 1. unfold Parser.pbind at 1.
  rewrite (accept_miss _ op rest "=" Ht') by (now rewrite Hop).
  unfold Parser.pbind at 1.
  rewrite (accept_hit _ op rest "?=" Ht' Hop).
  unfold Parser.pret at 1.
  unfold Parser.pbind at 1, Parser.push_state, Parser.pmodify.
  unfold Parser.pbind at 1.
  match goal with
  | |- context [Parser.list_ _ _ ?st] =>
      change st with
        (Parser.set_state ("assignment" :: Parser.state p)
           (Parser.prevState p) (Parser.set_tokens rest p))
  end.
  rewrite Hl, He.
  unfold Parser.pbind at 1, Parser.pop_state, Parser.pmodify.
  rewrite Hop. reflexivity.
Qed.

(** C4, as the code has it.  [x ?= rhs], with or without a space after
    [x], is parsed into the ternary above.
    Evaluated while [x] is undefined, the ternary binds [x], in the
    current scope, to the value of [rhs].  Evaluated while [x] is defined,
    it evaluates as the lookup of [x] does, by visiting the value of [x]:
    [rhs] is left unvisited and nothing is bound, and the state is as it
    was whenever the visit of that value leaves it so. *)
Theorem conditional_assignment_semantics (env : Env) (fuel : nat)
        (x : string) (rhs : Node) :
  (forall b, toBoolean env (Boolean b) = Boolean b) ->
  is_null rhs = false ->
  (forall expression k p tok sp op rest p2,
      Parser.tokens p = tok :: sp ++ op :: rest ->
      Parser.type tok = "ident" ->
      optional_space sp ->
      Parser.name_of (Parser.val tok) = x ->
      Parser.type op = "?=" ->
      Parser.list_ expression k
        (Parser.set_state ("assignment" :: Parser.state p)
                          (Parser.prevState p) (Parser.set_tokens rest p))
        = Parser.Parsed rhs p2 ->
      Parser.isEmpty rhs = false ->
      Parser.assignment expression k p
        = Parser.Parsed (conditional_assignment x rhs)
            (Parser.set_state (tail (Parser.state p2))
                              (head (Parser.state p2)) p2))
  /\ (forall s v s1 f rest,
        js_opt (lookup env s x) = None ->
        visit env fuel rhs (set_return true s) = Ok v s1 ->
        stack s1 = f :: rest ->
        let s' := set_stack (frame_add x v f
                               :: map (fun g => if Nat.eqb (fid g) (fid f)
                                                then frame_add x v g else g)
                                      rest)
                            (set_return (return_ s) s1) in
        visit env (S (S fuel)) (conditional_assignment x rhs) s = Ok v s'
        /\ stack_lookup (stack s') x = Some v)
  /\ (forall s v0,
        js_opt (lookup env s x) = Some v0 ->
        visit env (S (S fuel)) (conditional_assignment x rhs) s
          = visit env fuel v0 s
        /\ (forall r, visit env fuel v0 s = Ok r s ->
              visit env (S (S fuel)) (conditional_assignment x rhs) s
                = Ok r s)).
Proof.
  intros Hbool Hrhs. split; [|split].
  - intros expression k p tok sp op rest p2 Ht Hid Hsp Hx Hop Hl He.
    rewrite <- Hx.
    exact (assignment_conditional expression k p tok op sp rest rhs p2
             Ht Hid Hsp Hop Hl He).
  - intros s v s1 f rest Hundef Hv Hs1 s'.
    assert (E : visit env (S (S fuel)) (conditional_assignment x rhs) s
                = Ok v s').
    { unfold conditional_assignment.
      change (visitTernary env (visit env (S fuel))
                (BinOp "is defined" (Ident x rhs false) Undefined)
                (Ident x Null false) (Ident x rhs false) s = Ok v s').
      unfold visitTernary. rewrite bind_unfold.
      change (visit env (S fuel)
                (BinOp "is defined" (Ident x rhs false) Undefined) s)
        with (isDefined env (Ident x rhs false) s).
      unfold isDefined. rewrite bind_unfold. unfold get.
      rewrite Hundef. unfold ret. rewrite Hbool. cbn [is_true].
      change (visit env (S fuel) (Ident x rhs false))
        with (visitIdent env (visit env fuel) x rhs false).
      unfold visitIdent. rewrite Hrhs.
      rewrite bind_unfold, in_return_mode_unfold, Hv.
      rewrite bind_unfold. unfold the_frame, currentFrame.
      cbn [stack set_return]. rewrite Hs1. cbn [head].
      rewrite bind_unfold. unfold scope_add, modify, ret.
      cbn [stack set_return]. rewrite Hs1. cbn [map].
      rewrite Nat.eqb_refl. reflexivity. }
    split; [exact E|].
    subst s'. cbn [stack set_stack stack_lookup frame_add fscope].
    now rewrite lookup_insert_eq.
  - intros s v0 Hdef.
    assert (E : visit env (S (S fuel)) (conditional_assignment x rhs) s
                = visit env fuel v0 s).
    { unfold conditional_assignment.
      change (visitTernary env (visit env (S fuel))
                (BinOp "is defined" (Ident x rhs false) Undefined)
                (Ident x Null false) (Ident x rhs false) s
              = visit env fuel v0 s).
      unfold visitTernary. rewrite bind_unfold.
      change (visit env (S fuel)
                (BinOp "is defined" (Ident x rhs false) Undefined) s)
        with (isDefined env (Ident x rhs false) s).
      unfold isDefined. rewrite bind_unfold. unfold get.
      rewrite Hdef. unfold ret. rewrite Hbool. cbn [is_true].
      change (visit env (S fuel) (Ident x Null false))
        with (visitIdent env (visit env fuel) x Null false).
      unfold visitIdent. cbn [is_null].
      rewrite bind_unfold. unfold get. rewrite Hdef. reflexivity. }
    split; [exact E|]. intros r Hr. now rewrite E.
Qed.

(** C4, counterexample.  [x] is defined when [x ?= 2] is evaluated, and
    the evaluation is no no-op: the value of [x] is visited, its call now
    finds [foo] and mixes the body of [foo] into the block, which comes
    out as [body { color: red }]. *)
Lemma conditional_assignment_not_noop :
  match evaluate Std.env 14 forward_reference [] [] with
  | Ok nodes s =>
      nodes !! 2
      = Some (Group ["body"]
                (Block true
                   [Property [Ident "color" Null false]
                             (Expression false [Ident "red" Null false])
                             (Some "color") true]))
  | _ => False
  end.
Proof. vm_compute. reflexivity. Qed.

(** * Properties of the invocation of a function *)

(** ** Parameters and their defaults *)

Lemma scope_add_bound (fr : nat) (name : string) (v : Node) (s : Evaluator) :
  scope_add fr name v s = Ok tt (bound fr name v s).
Proof. reflexivity. Qed.

Lemma bind_params_step (env : Env) (fr : nat) (fname : string)
      (args : list Node) (pname : string) (pval : Node)
      (rest : list Node) (i : nat) (s : Evaluator) :
  bind_params env fr fname (Some args) (Ident pname pval false :: rest) i s
  = let val := if missing env args i then pval
               else match args !! i with Some arg => arg | None => pval end in
    if is_null val then Throw (MissingArgument pname fname) s
    else bind_params env fr fname (Some args) rest (S i)
                     (bound fr pname val s).
Proof.
  cbn [bind_params]. unfold missing.
  destruct (args !! i) as [arg|].
  - destruct (truthy arg && negb (isEmpty env arg)); cbn [negb];
      (destruct (is_null _); [reflexivity|]);
      rewrite bind_unfold, scope_add_bound; reflexivity.
  - destruct (is_null pval); [reflexivity|].
    rewrite bind_unfold, scope_add_bound; reflexivity.
Qed.


(** The rest-marked parameter of [f(a, rest...)] has neither an argument
    nor a default in [f(1)]; the invocation does not fail: [rest] is
    bound to the empty list, which the call returns. *)
Example rest_parameter_without_argument :
  match visit Std.env 8
          (Call "f" (Expression false [Expression false [Unit 1 ""]]))
          with_rest_function with
  | Ok r _ => r = Expression false [Expression false []]
  | _ => False
  end.
Proof. vm_compute. reflexivity. Qed.

(** * The frame stack across a visit *)

(** ** What a visit leaves in place *)

Lemma preserved_refl (s : Evaluator) : wf s -> preserved s s.
Proof. intros H. split; auto. Qed.

Lemma preserved_trans (a b c : Evaluator) :
  preserved a b -> preserved b c -> preserved a c.
Proof.
  intros [_ Hs1 Hf1 Hg1 Ht1] [Hw2 Hs2 Hf2 Hg2 Ht2]. split.
  - exact Hw2.
  - now rewrite Hs2.
  - lia.
  - intros id Hid Hnot. rewrite Hg2, Hg1; auto; [lia | now rewrite Hs1].
  - auto.
Qed.

Lemma shape_length (s s' : Evaluator) :
  shape s' = shape s -> length (stack s') = length (stack s).
Proof.
  unfold shape. intros H.
  rewrite <- (length_map (fun f => (fid f, fblock f)) (stack s')).
  rewrite <- (length_map (fun f => (fid f, fblock f)) (stack s)).
  now rewrite H.
Qed.

Lemma keeps_ret {A : Type} (s0 : Evaluator) (a : A) : keeps s0 (ret a).
Proof. intros s H. exact H. Qed.

Lemma keeps_throw {A : Type} (s0 : Evaluator) (e : Exn) :
  keeps s0 (@throw A e).
Proof. intros s H _. exact H. Qed.

Lemma keeps_bind {A B : Type} (s0 : Evaluator) (m : M A) (k : A -> M B) :
  keeps s0 m -> (forall a, keeps s0 (k a)) -> keeps s0 (bind m k).
Proof.
  intros Hm Hk s H. unfold bind. specialize (Hm s H).
  destruct (m s) as [a s'|e s'|]; auto. apply Hk, Hm.
Qed.

Lemma keeps_get {A : Type} (s0 : Evaluator) (k : Evaluator -> M A) :
  (forall s, keeps s0 (k s)) -> keeps s0 (bind get k).
Proof. intros Hk s H. unfold bind, get. apply Hk, H. Qed.

Lemma keeps_lift {A : Type} (s0 : Evaluator) (r : Exn + A) :
  keeps s0 (lift r).
Proof. destruct r; [apply keeps_throw | apply keeps_ret]. Qed.

(** A change of the state that touches neither the stack nor the store. *)
Lemma keeps_modify (s0 : Evaluator) (f : Evaluator -> Evaluator) :
  (forall s, stack (f s) = stack s /\ blocks (f s) = blocks s
             /\ fresh (f s) = fresh s) ->
  keeps s0 (modify f).
Proof.
  intros Hf s [[Hw1 Hw2] Hs Hfr Hg Ht]. unfold modify.
  destruct (Hf s) as (E1 & E2 & E3). split.
  - split; [rewrite E1, E3; exact Hw1 | rewrite E2, E3; exact Hw2].
  - unfold shape. rewrite E1. exact Hs.
  - lia.
  - intros id H1 H2. unfold scope_flag. rewrite E2. now apply Hg.
  - intros id H1. unfold scope_flag. rewrite E2. now apply Ht.
Qed.

Lemma keeps_in_return_mode {A : Type} (s0 : Evaluator) (m : M A) :
  keeps s0 m -> keeps s0 (in_return_mode m).
Proof.
  intros Hm. unfold in_return_mode. apply keeps_get. intros s1.
  apply keeps_bind; [apply keeps_modify; intros; auto|]. intros _.
  apply keeps_bind; [exact Hm|]. intros a.
  apply keeps_bind; [apply keeps_modify; intros; auto|]. intros _.
  apply keeps_ret.
Qed.

Lemma keeps_scope_add (s0 : Evaluator) (fr : nat) (name : string) (v : Node) :
  keeps s0 (scope_add fr name v).
Proof.
  intros s [[Hw1 Hw2] Hs Hfr Hg Ht]. unfold scope_add, modify.
  assert (E : map (fun f => (fid f, fblock f))
                  (map (fun f => if Nat.eqb (fid f) fr
                                 then frame_add name v f else f) (stack s))
              = map (fun f => (fid f, fblock f)) (stack s)).
  { rewrite map_map. apply map_ext. intros f.
    destruct (Nat.eqb (fid f) fr); reflexivity. }
  split.
  - split; [|exact Hw2]. cbn [stack fresh set_stack].
    apply Forall_map. eapply Forall_impl; [exact Hw1|].
    intros f Hf. cbn beta. destruct (Nat.eqb (fid f) fr); exact Hf.
  - unfold shape. cbn [stack set_stack]. rewrite E. exact Hs.
  - exact Hfr.
  - exact Hg.
  - exact Ht.
Qed.

Lemma keeps_new_id {A : Type} (s0 : Evaluator) (k : nat -> M A) :
  (forall id, keeps s0 (k id)) -> keeps s0 (bind new_id k).
Proof.
  intros Hk s [[Hw1 Hw2] Hs Hfr Hg Ht]. unfold bind, new_id.
  apply Hk. split.
  - split; cbn [stack fresh blocks set_fresh].
    + eapply Forall_impl; [exact Hw1|]. intros f Hf. cbn beta in *. lia.
    + intros id Hid. apply Hw2. lia.
  - exact Hs.
  - cbn [fresh set_fresh]. lia.
  - exact Hg.
  - exact Ht.
Qed.

Lemma keeps_get_block {A : Type} (s0 : Evaluator) (id : nat)
      (k : BlockState -> M A) :
  (forall b, keeps s0 (k b)) -> keeps s0 (bind (get_block id) k).
Proof.
  intros Hk s H. unfold bind, get_block.
  destruct (blocks s !! id) as [b|]; [apply Hk, H | discriminate].
Qed.

Lemma scope_flag_alter (s : Evaluator) (f : BlockState -> BlockState)
      (id id' : nat) :
  scope_flag (set_blocks (alter f id (blocks s)) s) id'
  = if decide (id = id')
    then (fun b => bscope_flag (f b)) <$> blocks s !! id'
    else scope_flag s id'.
Proof.
  unfold scope_flag. cbn [blocks set_blocks].
  destruct (decide (id = id')) as [->|Hne].
  - rewrite lookup_alter_eq. now destruct (blocks s !! id').
  - now rewrite lookup_alter_ne.
Qed.

Lemma wf_alter (s : Evaluator) (f : BlockState -> BlockState) (id : nat) :
  wf s -> wf (set_blocks (alter f id (blocks s)) s).
Proof.
  intros [Hw1 Hw2]. split; [exact Hw1|].
  intros id' Hid. cbn [blocks fresh set_blocks].
  destruct (decide (id = id')) as [->|Hne].
  - rewrite lookup_alter_eq, Hw2 by exact Hid. reflexivity.
  - rewrite lookup_alter_ne by exact Hne. now apply Hw2.
Qed.

(** An update of a block that leaves its scope flag alone. *)
Lemma keeps_update_block (s0 : Evaluator) (id : nat)
      (f : BlockState -> BlockState) :
  (forall b, bscope_flag (f b) = bscope_flag b) ->
  keeps s0 (update_block id f).
Proof.
  intros Hf s [Hw Hs Hfr Hg Ht]. unfold update_block, modify.
  assert (E : forall id', scope_flag (set_blocks (alter f id (blocks s)) s) id'
                          = scope_flag s id').
  { intros id'. rewrite scope_flag_alter. destruct (decide (id = id')); auto.
    unfold scope_flag. destruct (blocks s !! id'); cbn; [|reflexivity].
    now rewrite Hf. }
  split.
  - now apply wf_alter.
  - exact Hs.
  - exact Hfr.
  - intros id' H1 H2. rewrite E. now apply Hg.
  - intros id' H1. rewrite E. now apply Ht.
Qed.

(** [block.scope = true] on a block that a frame references. *)
Lemma keeps_set_scope (s0 : Evaluator) (id : nat) :
  id ∈ map snd (shape s0) ->
  keeps s0 (update_block id (with_scope true)).
Proof.
  intros Hin s [Hw Hs Hfr Hg Ht]. unfold update_block, modify. split.
  - now apply wf_alter.
  - exact Hs.
  - exact Hfr.
  - intros id' H1 H2. rewrite scope_flag_alter.
    destruct (decide (id = id')) as [->|Hne]; [contradiction|]. now apply Hg.
  - intros id' H1. rewrite scope_flag_alter.
    destruct (decide (id = id')) as [->|Hne]; [|now apply Ht].
    specialize (Ht id' H1). unfold scope_flag in Ht.
    destruct (blocks s !! id'); [reflexivity | discriminate].
Qed.

Lemma keeps_the_frame {A : Type} (s0 : Evaluator) (k : Frame -> M A) :
  (forall f, fblock f ∈ map snd (shape s0) -> keeps s0 (k f)) ->
  keeps s0 (bind the_frame k).
Proof.
  intros Hk s H. unfold bind, the_frame, currentFrame.
  destruct (stack s) as [|f rest] eqn:E; cbn [head]; [discriminate|].
  apply Hk; [|exact H].
  rewrite <- (pr_shape _ _ H). unfold shape. rewrite E. cbn. set_solver.
Qed.

(** ** Visitors that keep the stack *)

Lemma keeps_visit (v : Node -> M Node) (s0 : Evaluator) (n : Node) :
  good v -> keeps s0 (v n).
Proof.
  intros Hv s H. specialize (Hv n s (pr_wf _ _ H)).
  destruct (v n s) as [a s'|e s'|]; auto.
  - eapply preserved_trans; eauto.
  - intros He. destruct (Hv He) as [Hp _]. eapply preserved_trans; eauto.
Qed.

(** The statement loop: a Return gets out of it at the root only. *)
Lemma statements_keeps (v : Node -> M Node) (s0 : Evaluator) (id : nat)
      (is_root : bool) :
  good v ->
  forall k i s, preserved s0 s ->
    match statements v k id is_root i s with
    | Ok _ s' => preserved s0 s'
    | Throw e s' => is_return e = true -> preserved s0 s' /\ is_root = true
    | OutOfFuel => True
    end.
Proof.
  intros Hv. induction k as [|k IH]; intros i s H; [exact I|].
  cbn [statements]. rewrite bind_unfold. unfold get_block at 1.
  destruct (blocks s !! id) as [b|] eqn:Eb; [|discriminate].
  destruct (bnodes b !! i) as [n|]; [|exact H].
  rewrite bind_unfold.
  pose proof (keeps_update_block s0 id (with_index i) (fun _ => eq_refl) s H)
    as H1.
  unfold update_block at 1, modify at 1 in H1.
  unfold update_block at 1, modify at 1.
  set (s1 := set_blocks (alter (with_index i) id (blocks s)) s) in *.
  rewrite bind_unfold.
  assert (H2 : exists s2,
             (if is_root then modify (set_rootIndex (Some i)) else ret tt) s1
             = Ok tt s2 /\ preserved s0 s2).
  { destruct is_root.
    - eexists; split; [reflexivity|].
      apply (keeps_modify s0 (set_rootIndex (Some i))); auto.
    - eexists; split; [reflexivity|]. exact H1. }
  destruct H2 as (s2 & -> & H2).
  pose proof (keeps_visit v s0 n Hv s2 H2) as H3.
  destruct (v n s2) as [r s3|e s3|]; [| |exact I].
  - rewrite bind_unfold. unfold get_block at 1.
    destruct (blocks s3 !! id) as [b'|]; [|discriminate].
    rewrite bind_unfold.
    destruct (Nat.eqb (barr b') (barr b)).
    + pose proof (keeps_update_block s0 id
                    (with_nodes (js_set i r (bnodes b')))
                    (fun _ => eq_refl) s3 H3) as H4.
      unfold update_block, modify in H4 |- *. apply IH, H4.
    + apply IH, H3.
  - destruct e; try (intros He; discriminate He).
    destruct is_root.
    + intros _. split; [apply H3|]; reflexivity.
    + rewrite bind_unfold. unfold get_block at 1.
      destruct (blocks s3 !! id) as [b'|]; [|discriminate].
      pose proof (keeps_update_block s0 id
                    (with_nodes (js_set i (Return expr) (bnodes b')))
                    (fun _ => eq_refl) s3 (H3 eq_refl)) as H4.
      unfold update_block, modify in H4 |- *. exact H4.
Qed.

(** ** Entering and leaving a scope *)

Lemma alloc_block_eq (k : BlockKind) (scope : bool) (nodes : list Node)
      (s : Evaluator) :
  alloc_block k scope nodes s = Ok (fresh s) (allocated k scope nodes s).
Proof. reflexivity. Qed.

Lemma stack_push_eq (blk : nat) (s : Evaluator) :
  stack_push blk s = Ok (fresh s) (pushed blk s).
Proof. reflexivity. Qed.

Lemma stack_pop_eq (s : Evaluator) : stack_pop s = Ok tt (popped s).
Proof. reflexivity. Qed.

Lemma scope_flag_allocated (k : BlockKind) (scope : bool)
      (nodes : list Node) (s : Evaluator) (id : nat) :
  scope_flag (allocated k scope nodes s) id
  = if decide (fresh s = id) then Some scope else scope_flag s id.
Proof.
  unfold scope_flag, allocated. cbn [blocks set_blocks set_fresh].
  destruct (decide (fresh s = id)) as [->|Hne].
  - now rewrite lookup_insert_eq.
  - now rewrite lookup_insert_ne.
Qed.

Lemma stored_below_fresh (s : Evaluator) (id : nat) (c : bool) :
  wf s -> scope_flag s id = Some c -> id < fresh s.
Proof.
  intros [_ Hw] H. destruct (Nat.lt_ge_cases id (fresh s)) as [|Hge]; auto.
  unfold scope_flag in H. rewrite (Hw id Hge) in H. discriminate.
Qed.

Lemma referenced_below_fresh (s : Evaluator) (id : nat) :
  wf s -> id ∈ map snd (shape s) -> id < fresh s.
Proof.
  intros [Hw _] H. unfold shape in H. rewrite map_map in H. cbn in H.
  apply list_elem_of_In, in_map_iff in H. destruct H as (f & <- & Hf).
  rewrite Forall_forall in Hw. apply Hw. now apply list_elem_of_In.
Qed.

Lemma preserved_allocated (k : BlockKind) (scope : bool) (nodes : list Node)
      (s : Evaluator) :
  wf s -> preserved s (allocated k scope nodes s).
Proof.
  intros Hwf. pose proof Hwf as [Hw1 Hw2]. split.
  - split; cbn [allocated stack fresh blocks set_blocks set_fresh].
    + eapply Forall_impl; [exact Hw1|]. intros f Hf. cbn beta in *. lia.
    + intros id Hid. rewrite lookup_insert_ne by lia. apply Hw2. lia.
  - reflexivity.
  - cbn. lia.
  - intros id Hid _. rewrite scope_flag_allocated.
    destruct (decide (fresh s = id)); [lia | reflexivity].
  - intros id Hid. rewrite scope_flag_allocated.
    pose proof (stored_below_fresh s id true Hwf Hid).
    destruct (decide (fresh s = id)); [lia | exact Hid].
Qed.

Lemma wf_pushed (blk : nat) (s : Evaluator) :
  wf s -> blk < fresh s -> wf (pushed blk s).
Proof.
  intros [Hw1 Hw2] Hb. split; cbn [pushed stack fresh blocks set_fresh
                                   set_stack].
  - constructor; [cbn; lia|].
    eapply Forall_impl; [exact Hw1|]. intros f Hf. cbn beta in *. lia.
  - intros id Hid. apply Hw2. lia.
Qed.

(** Once the frame pushed for a block is popped, the state is [preserved]
    with respect to the state before the block was entered. *)
Lemma preserved_popped (k : BlockKind) (scope : bool) (nodes : list Node)
      (s sl : Evaluator) :
  wf s ->
  preserved (pushed (fresh s) (allocated k scope nodes s)) sl ->
  preserved s (popped sl).
Proof.
  intros Hwf [[Hl1 Hl2] Hs Hfr Hg Ht].
  set (sa := allocated k scope nodes s) in *.
  assert (Hshape : shape sl = (fresh sa, fresh s) :: shape s) by exact Hs.
  assert (Hfresh : fresh s < fresh sl) by (cbn in Hfr; lia).
  split.
  - split; cbn [popped stack fresh blocks set_stack]; [|exact Hl2].
    destruct (stack sl); [constructor|]. cbn [tail]. now inversion Hl1.
  - unfold shape in *. cbn [popped stack set_stack].
    destruct (stack sl) as [|f rest]; [discriminate Hshape|].
    cbn [tail]. cbn [map] in Hshape. now inversion Hshape.
  - cbn [popped fresh set_stack]. lia.
  - intros id Hid Hnot.
    change (scope_flag (popped sl) id) with (scope_flag sl id).
    rewrite Hg.
    + change (scope_flag (pushed (fresh s) sa) id) with (scope_flag sa id).
      unfold sa. rewrite scope_flag_allocated.
      destruct (decide (fresh s = id)); [lia | reflexivity].
    + cbn. lia.
    + change (shape (pushed (fresh s) sa))
        with ((fresh sa, fresh s) :: shape s).
      cbn [map snd]. apply not_elem_of_cons. split; [lia | exact Hnot].
  - intros id Hid.
    change (scope_flag (popped sl) id) with (scope_flag sl id).
    apply Ht.
    change (scope_flag (pushed (fresh s) sa) id) with (scope_flag sa id).
    unfold sa. rewrite scope_flag_allocated.
    pose proof (stored_below_fresh s id true Hwf Hid).
    destruct (decide (fresh s = id)); [lia | exact Hid].
Qed.

(** evaluator.js, 440-457: the visit of a block keeps the stack and
    throws no Return; the block comes back with the scope flag it had. *)
Lemma visitBlock_keeps (v : Node -> M Node) (fuel : nat) (scope : bool)
      (nodes : list Node) (s : Evaluator) :
  good v -> wf s ->
  match visitBlock v fuel scope nodes s with
  | Ok r s' => preserved s s' /\ exists nodes', r = Block scope nodes'
  | Throw e _ => is_return e = false
  | OutOfFuel => True
  end.
Proof.
  intros Hv Hwf. unfold visitBlock.
  rewrite bind_unfold, alloc_block_eq.
  set (sa := allocated KBlock scope nodes s).
  pose proof (preserved_allocated KBlock scope nodes s Hwf) as Ha.
  assert (Hflag : scope_flag sa (fresh s) = Some scope).
  { unfold sa. rewrite scope_flag_allocated.
    destruct (decide (fresh s = fresh s)); [reflexivity | contradiction]. }
  destruct scope.
  - (* a block with a scope of its own *)
    rewrite bind_unfold, bind_unfold, stack_push_eq. unfold ret at 1.
    set (sp := pushed (fresh s) sa).
    assert (Hwp : wf sp).
    { apply wf_pushed; [apply Ha | cbn; lia]. }
    rewrite bind_unfold.
    pose proof (statements_keeps v sp (fresh s) false Hv fuel 0 sp
                  (preserved_refl sp Hwp)) as Hl.
    destruct (statements v fuel (fresh s) false 0 sp) as [[] sl|e sl|];
      [| |exact I].
    + rewrite bind_unfold. unfold get_block.
      assert (Hf : scope_flag sl (fresh s) = Some true)
        by (apply (pr_set _ _ Hl); exact Hflag).
      unfold scope_flag in Hf.
      destruct (blocks sl !! fresh s) as [b|]; [|discriminate Hf].
      cbn in Hf. injection Hf as Hf. rewrite Hf.
      rewrite bind_unfold, stack_pop_eq. unfold ret. split; [|eauto].
      exact (preserved_popped KBlock true nodes s sl Hwf Hl).
    + destruct (is_return e) eqn:He; [|reflexivity].
      destruct (Hl eq_refl) as [_ Hfalse]. discriminate Hfalse.
  - (* a block without one *)
    rewrite bind_unfold. unfold ret at 1. rewrite bind_unfold.
    pose proof (statements_keeps v sa (fresh s) false Hv fuel 0 sa
                  (preserved_refl sa (pr_wf _ _ Ha))) as Hl.
    destruct (statements v fuel (fresh s) false 0 sa) as [[] sl|e sl|];
      [| |exact I].
    + rewrite bind_unfold. unfold get_block.
      assert (Hf : scope_flag sl (fresh s) = Some false).
      { rewrite (pr_flag _ _ Hl); [exact Hflag | cbn; lia |].
        intros Hin. change (shape sa) with (shape s) in Hin.
        pose proof (referenced_below_fresh s (fresh s) Hwf Hin). lia. }
      unfold scope_flag in Hf.
      destruct (blocks sl !! fresh s) as [b|]; [|discriminate Hf].
      cbn in Hf. injection Hf as Hf. rewrite Hf.
      rewrite bind_unfold. unfold ret. split; [|eauto].
      eapply preserved_trans; eauto.
    + destruct (is_return e) eqn:He; [|reflexivity].
      destruct (Hl eq_refl) as [_ Hfalse]. discriminate Hfalse.
Qed.

(** ** Computations that throw no Return *)

Lemma quiet_ret {A : Type} (a : A) : quiet (ret a).
Proof. intros s. exact I. Qed.

Lemma quiet_throw {A : Type} (e : Exn) :
  is_return e = false -> quiet (@throw A e).
Proof. intros H s. exact H. Qed.

Lemma quiet_bind {A B : Type} (m : M A) (k : A -> M B) :
  quiet m -> (forall a, quiet (k a)) -> quiet (bind m k).
Proof.
  intros Hm Hk s. unfold bind. specialize (Hm s).
  destruct (m s) as [a s'|e s'|]; auto. apply Hk.
Qed.

Lemma quiet_get : quiet get.
Proof. intros s. exact I. Qed.

Lemma quiet_modify (f : Evaluator -> Evaluator) : quiet (modify f).
Proof. intros s. exact I. Qed.

Lemma quiet_get_block (id : nat) : quiet (get_block id).
Proof. intros s. unfold get_block. now destruct (blocks s !! id). Qed.

Lemma quiet_the_frame : quiet the_frame.
Proof. intros s. unfold the_frame. now destruct (currentFrame s). Qed.

Lemma quiet_new_id : quiet new_id.
Proof. intros s. exact I. Qed.

Lemma quiet_scope_add (fr : nat) (name : string) (v : Node) :
  quiet (scope_add fr name v).
Proof. intros s. exact I. Qed.

Lemma quiet_update_block (id : nat) (f : BlockState -> BlockState) :
  quiet (update_block id f).
Proof. intros s. exact I. Qed.

Lemma quiet_invoke (body : list Node) : quiet (invoke body).
Proof.
  unfold invoke. apply quiet_bind; [apply quiet_the_frame|]. intros f.
  apply quiet_bind; [apply quiet_get|]. intros s.
  destruct (return_ s).
  { destruct (eval body); [apply quiet_ret | apply quiet_throw; reflexivity]. }
  apply quiet_bind; [apply quiet_get_block|]. intros b.
  destruct (mixin_undefined body); [apply quiet_throw; reflexivity|].
  apply quiet_bind; [apply quiet_new_id|]. intros a.
  apply quiet_bind; [apply quiet_update_block|]. intros _. apply quiet_ret.
Qed.

Lemma quiet_bind_params (env : Env) (fr : nat) (fname : string)
      (args : option (list Node)) (params : list Node) :
  forall i, quiet (bind_params env fr fname args params i).
Proof.
  induction params as [|p params IH]; intros i; cbn [bind_params].
  - apply quiet_ret.
  - destruct p; try (apply quiet_throw; reflexivity).
    destruct args as [anodes|]; [|apply quiet_throw; reflexivity].
    destruct rest.
    + apply quiet_bind; [apply quiet_scope_add|]. intros _. apply IH.
    + destruct (is_null _); [apply quiet_throw; reflexivity|].
      apply quiet_bind; [apply quiet_scope_add|]. intros _. apply IH.
Qed.

(** ** The visitors, one by one *)

Ltac keeps_step :=
  lazymatch goal with
  | |- keeps _ (ret _) => apply keeps_ret
  | |- keeps _ (throw _) => apply keeps_throw
  | |- keeps _ (lift _) => apply keeps_lift
  | |- keeps _ (scope_add _ _ _) => apply keeps_scope_add
  | |- keeps _ (bind get _) => apply keeps_get; intros ?
  | |- keeps _ (bind the_frame _) => apply keeps_the_frame; intros ? ?
  | |- keeps _ (bind (get_block _) _) => apply keeps_get_block; intros ?
  | |- keeps _ (bind new_id _) => apply keeps_new_id; intros ?
  | |- keeps _ (in_return_mode _) => apply keeps_in_return_mode
  | |- keeps _ (modify _) => apply keeps_modify; intros; auto
  | |- keeps _ (update_block _ _) =>
      apply keeps_update_block; intros; reflexivity
  | |- keeps _ (bind _ _) => apply keeps_bind; [|intros ?]
  | |- keeps _ (?v _) => apply keeps_visit; assumption
  end.

Ltac keeps_auto := repeat keeps_step.

Lemma keeps_invoke (s0 : Evaluator) (body : list Node) :
  keeps s0 (invoke body).
Proof.
  unfold invoke. keeps_auto. destruct (return_ _).
  - destruct (eval body); keeps_auto.
  - keeps_auto. destruct (mixin_undefined body); keeps_auto.
Qed.

Lemma keeps_bind_params (env : Env) (s0 : Evaluator) (fr : nat)
      (fname : string) (args : option (list Node)) (params : list Node) :
  forall i, keeps s0 (bind_params env fr fname args params i).
Proof.
  induction params as [|p params IH]; intros i; cbn [bind_params].
  - keeps_auto.
  - destruct p; try keeps_step.
    destruct args as [anodes|]; [|keeps_step].
    destruct rest; [keeps_auto; apply IH|].
    destruct (is_null _); keeps_auto. apply IH.
Qed.

Lemma inside_bind {A B : Type} (sp : Evaluator) (Q : Evaluator -> Prop)
      (m : M A) (k : A -> M B) :
  keeps sp m -> quiet m -> (forall a, inside sp Q (k a)) ->
  inside sp Q (bind m k).
Proof.
  intros Hk Hq Hi s H. unfold bind. specialize (Hk s H). specialize (Hq s).
  destruct (m s) as [a s'|e s'|]; auto. apply Hi, Hk.
Qed.

Lemma inside_visit_block {B : Type} (v : Node -> M Node) (sp : Evaluator)
      (Q : Evaluator -> Prop) (bscope : bool) (body : list Node)
      (k : Node -> M B) :
  good v -> (forall b, inside sp Q (k b)) ->
  inside sp Q (bind (v (Block bscope body)) k).
Proof.
  intros Hv Hi s H. unfold bind.
  pose proof (Hv (Block bscope body) s (pr_wf _ _ H)) as Hb.
  destruct (v (Block bscope body) s) as [b s'|e s'|]; auto.
  - apply Hi. eapply preserved_trans; eauto.
  - destruct (is_return e) eqn:He; [|reflexivity].
    destruct (Hb eq_refl) as [_ Hn]. now contradiction Hn.
Qed.

(** evaluator.js, 561-616 *)
Lemma keeps_invokeFunction (env : Env) (v : Node -> M Node) (s0 : Evaluator)
      (fname : string) (params : list Node) (bscope : bool)
      (body : list Node) (args : Node) :
  good v -> keeps s0 (invokeFunction env v fname params bscope body args).
Proof.
  intros Hv s H. unfold invokeFunction.
  rewrite bind_unfold. unfold the_frame.
  destruct (currentFrame s) as [f0|]; [|discriminate].
  rewrite bind_unfold, alloc_block_eq, bind_unfold, stack_push_eq.
  set (sa := allocated KBlock true [] s).
  set (sp := pushed (fresh s) sa).
  pose proof (pr_wf _ _ H) as Hwf.
  assert (Hwp : wf sp).
  { apply wf_pushed; [apply (preserved_allocated KBlock true [] s Hwf)|].
    cbn. lia. }
  match goal with
  | |- match ?m sp with _ => _ end =>
      assert (Hin : inside sp (preserved s0) m)
  end.
  { apply inside_bind; [apply keeps_scope_add | apply quiet_scope_add|].
    intros _.
    apply inside_bind; [apply (keeps_get sp); intros; apply keeps_ret
                       | apply quiet_get|].
    intros s1.
    apply inside_bind.
    { destruct (return_ s1); keeps_auto. }
    { destruct (return_ s1); [apply quiet_ret|].
      apply quiet_bind; [apply quiet_get_block|]. intros; apply quiet_ret. }
    intros mixin_val.
    apply inside_bind; [apply keeps_scope_add | apply quiet_scope_add|].
    intros _.
    apply inside_bind; [apply keeps_bind_params | apply quiet_bind_params|].
    intros _.
    apply inside_visit_block; [exact Hv|]. intros b.
    intros sl Hl. rewrite bind_unfold, stack_pop_eq.
    assert (Hp : preserved s0 (popped sl)).
    { eapply preserved_trans; [exact H|].
      exact (preserved_popped KBlock true [] s sl Hwf Hl). }
    destruct (node_nodes b) as [ns|]; [|reflexivity].
    pose proof (keeps_invoke s0 ns (popped sl) Hp) as Hk.
    pose proof (quiet_invoke ns (popped sl)) as Hq.
    destruct (invoke ns (popped sl)); auto. }
  specialize (Hin sp (preserved_refl sp Hwp)).
  match goal with
  | |- match ?m sp with _ => _ end => destruct (m sp) as [r s'|e s'|]
  end; auto.
  intros He. rewrite Hin in He. discriminate He.
Qed.

Section KeepsVisitors.
Variable env : Env.
Variable v : Node -> M Node.
Variable fuel : nat.
Variable s0 : Evaluator.
Hypothesis Hv : good v.

Lemma keeps_visitGroup (selectors : list string) (block : Node) :
  keeps s0 (visitGroup v selectors block).
Proof. unfold visitGroup. keeps_auto. Qed.

Lemma keeps_visitReturn (expr : Node) : keeps s0 (visitReturn v expr).
Proof. unfold visitReturn. keeps_auto. Qed.

Lemma keeps_visitMedia (val : string) (block : Node) :
  keeps s0 (visitMedia v val block).
Proof. unfold visitMedia. keeps_auto. Qed.

Lemma keeps_visitKeyframes (name : Node) (frames : list (Node * Node)) :
  keeps s0 (visitKeyframes env v name frames).
Proof.
  unfold visitKeyframes. keeps_auto. destruct (first env _); keeps_auto.
Qed.

Lemma keeps_literalCall (name : string) (args : Node) :
  keeps s0 (literalCall v name args).
Proof. unfold literalCall. keeps_auto. Qed.

Lemma keeps_invokeBuiltin (fn : Native) (args : Node) :
  keeps s0 (invokeBuiltin env fn args).
Proof.
  unfold invokeBuiltin. keeps_auto.
  - destruct (native_raw env fn); [keeps_auto|].
    destruct (node_nodes args); keeps_auto.
  - apply keeps_invoke.
Qed.

Lemma keeps_visitCall (name : string) (args : Node) :
  keeps s0 (visitCall env v name args).
Proof.
  unfold visitCall. keeps_auto.
  destruct (js_opt _) as [f|]; [|apply keeps_literalCall].
  destruct f; try apply keeps_literalCall.
  keeps_auto. destruct (Nat.ltb _ _); keeps_auto.
  destruct fn; [apply keeps_invokeBuiltin|].
  apply keeps_invokeFunction, Hv.
Qed.

Lemma keeps_isDefined (node : Node) : keeps s0 (isDefined env node).
Proof. unfold isDefined. destruct node; keeps_auto. Qed.

Lemma keeps_visitIdent (name : string) (val : Node) (rest : bool) :
  keeps s0 (visitIdent env v name val rest).
Proof.
  unfold visitIdent. destruct (is_null val); keeps_auto.
  destruct (js_opt _); keeps_auto.
Qed.

Lemma keeps_visitBinOp (op : string) (l r : Node) :
  keeps s0 (visitBinOp env v op l r).
Proof.
  unfold visitBinOp.
  destruct (String.eqb op "is defined"); [apply keeps_isDefined|].
  keeps_auto. destruct a as [l' r'].
  destruct (_ || _) at 1.
  - destruct (_ || _); keeps_auto.
    destruct (String.eqb op "-"); [|destruct (coerce env _ _); keeps_auto;
      destruct (_ || _); keeps_auto].
    destruct l'; try (destruct (coerce env _ _); keeps_auto;
                      destruct (_ || _); keeps_auto).
    destruct r'; try (destruct (coerce env _ _); keeps_auto;
                      destruct (_ || _); keeps_auto).
    keeps_auto.
  - destruct (_ || _); keeps_auto.
    destruct (String.eqb op "-"); [|destruct (coerce env _ _); keeps_auto;
      destruct (_ || _); keeps_auto].
    destruct (first env l'); try (destruct (coerce env _ _); keeps_auto;
                      destruct (_ || _); keeps_auto).
    destruct (first env r'); try (destruct (coerce env _ _); keeps_auto;
                      destruct (_ || _); keeps_auto).
    keeps_auto.
Qed.

Lemma keeps_visitUnaryOp (op : string) (expr : Node) :
  keeps s0 (visitUnaryOp env v op expr).
Proof.
  unfold visitUnaryOp. keeps_auto.
  destruct (String.eqb op "!").
  - destruct (toBoolean env _); keeps_auto.
  - destruct (first env _); keeps_auto.
    repeat (match goal with |- keeps _ (if ?c then _ else _) => destruct c end;
            keeps_auto).
Qed.

Lemma keeps_visitTernary (cond t f : Node) :
  keeps s0 (visitTernary env v cond t f).
Proof. unfold visitTernary. keeps_auto. destruct (is_true _); keeps_auto. Qed.

Lemma keeps_visit_nodes (nodes : list Node) : keeps s0 (visit_nodes v nodes).
Proof.
  induction nodes as [|n nodes IH]; cbn [visit_nodes]; keeps_auto.
  exact IH.
Qed.

Lemma keeps_visitExpression (isList : bool) (nodes : list Node) :
  keeps s0 (visitExpression v isList nodes).
Proof.
  unfold visitExpression. keeps_auto. apply keeps_visit_nodes.
Qed.

Lemma keeps_toString (k : nat) : forall node, keeps s0 (toString env v k node).
Proof.
  induction k as [|k IH]; intros node; destruct node; cbn [toString];
    keeps_auto.
  - intros s _. exact I.
  - apply IH.
Qed.

Lemma keeps_interpolate (segments : list Node) :
  keeps s0 (interpolate env v fuel segments).
Proof.
  induction segments as [|seg rest IH]; cbn [interpolate]; keeps_auto.
  - apply keeps_toString.
  - exact IH.
Qed.

Lemma keeps_visitProperty (segments : list Node) (expr : Node)
      (pname : option string) (literal : bool) :
  keeps s0 (visitProperty env v fuel segments expr pname literal).
Proof.
  unfold visitProperty. keeps_auto; [apply keeps_interpolate|].
  destruct a as [name segs]. keeps_auto.
  destruct (_ && _); keeps_auto.
Qed.

Lemma keeps_visitRoot : keeps s0 (visitRoot v fuel).
Proof.
  unfold visitRoot. keeps_auto. intros s H.
  pose proof (statements_keeps v s0 root_id true Hv fuel 0 s H) as Hs.
  destruct (statements v fuel root_id true 0 s); auto.
  intros He. apply Hs, He.
Qed.

Lemma keeps_visit_elses (elses : list Node) :
  forall r, keeps s0 (visit_elses env v elses r).
Proof.
  induction elses as [|e elses IH]; intros r; cbn [visit_elses].
  - keeps_auto.
  - destruct e; keeps_auto; try apply IH.
    destruct (is_true _); keeps_auto. apply IH.
Qed.

Lemma keeps_visitIf (cond block : Node) (elses : list Node) (negate : bool) :
  keeps s0 (visitIf env v cond block elses negate).
Proof.
  unfold visitIf. keeps_auto.
  - destruct negate.
    + destruct (is_false _); keeps_auto.
    + destruct (is_true _); keeps_auto. apply keeps_visit_elses.
  - destruct (group _) as [g|]; destruct (js_opt _) as [n|]; keeps_auto.
    destruct n; keeps_auto. destruct (negb _); keeps_auto.
Qed.

Lemma keeps_each_loop (fr : Frame) (val key : string) (body : Node)
      (items : list Node) :
  forall i, keeps s0 (each_loop v fr val key body items i).
Proof.
  induction items as [|item items IH]; intros i; cbn [each_loop];
    keeps_auto.
  destruct (node_nodes _); keeps_auto. apply IH.
Qed.

Lemma keeps_visitEach (val : string) (key : option string)
      (expr block : Node) :
  keeps s0 (visitEach env v val key expr block).
Proof.
  unfold visitEach. keeps_auto.
  destruct (node_nodes _); keeps_auto.
  - apply keeps_each_loop.
  - apply keeps_set_scope. assumption.
Qed.

Lemma keeps_visitImport (path : string) : keeps s0 (visitImport env path).
Proof.
  unfold visitImport. destruct (ends_with_css path); keeps_auto.
  destruct (lookup_file env _ _); keeps_auto.
Qed.

End KeepsVisitors.

(** ** The visit as a whole *)

Lemma keeps_good {A : Type} (m : M A) (s : Evaluator) :
  wf s -> keeps s m ->
  match m s with
  | Ok _ s' => preserved s s'
  | Throw e s' => is_return e = true -> preserved s s'
  | OutOfFuel => True
  end.
Proof. intros Hwf Hk. apply Hk, preserved_refl, Hwf. Qed.

Lemma visit_node_good (env : Env) (v : Node -> M Node) (fuel : nat) :
  good v -> good (visit_node env v fuel).
Proof.
  intros Hv n s Hwf.
  assert (K : forall m : M Node,
             keeps s m -> nodeName n <> "block" ->
             match m s with
             | Ok _ s' => preserved s s'
             | Throw e s' => is_return e = true ->
                             preserved s s' /\ nodeName n <> "block"
             | OutOfFuel => True
             end).
  { intros m Hk Hn. pose proof (keeps_good m s Hwf Hk) as H.
    destruct (m s); auto. }
  destruct n; cbn [visit_node];
    try (apply K; [|discriminate]).
  all: try (apply keeps_ret).
  - apply keeps_throw.
  - apply keeps_visitIdent, Hv.
  - apply keeps_visitExpression, Hv.
  - apply keeps_visitBinOp, Hv.
  - apply keeps_visitUnaryOp, Hv.
  - apply keeps_visitTernary, Hv.
  - apply keeps_visitCall, Hv.
  - apply keeps_visitReturn, Hv.
  - apply keeps_visitProperty, Hv.
  - pose proof (visitBlock_keeps v fuel scope nodes s Hv Hwf) as H.
    destruct (visitBlock v fuel scope nodes s) as [r s'|e s'|]; auto.
    + apply H.
    + intros He. rewrite H in He. discriminate He.
  - apply keeps_visitRoot, Hv.
  - apply keeps_visitGroup, Hv.
  - apply keeps_visitIf, Hv.
  - apply keeps_visitEach, Hv.
  - apply keeps_visitImport.
  - apply keeps_visitMedia, Hv.
  - apply keeps_visitKeyframes, Hv.
Qed.

Lemma visit_good (env : Env) (fuel : nat) : good (visit env fuel).
Proof.
  induction fuel as [|fuel IH].
  - intros n s _. exact I.
  - exact (visit_node_good env (visit env fuel) fuel IH).
Qed.

(** The statements of a block are visited with the frame stack one
    frame deeper when the block has a scope of its own, and as deep as
    it was when it has none. *)
Lemma visitBlock_enters (v : Node -> M Node) (fuel : nat) (scope : bool)
      (nodes : list Node) (s : Evaluator) :
  let entered := if scope
                 then pushed (fresh s) (allocated KBlock true nodes s)
                 else allocated KBlock false nodes s in
  visitBlock v fuel scope nodes s
    = (run statements v fuel (fresh s) false 0;
       do b <- get_block (fresh s);
       run (if bscope_flag b then stack_pop else ret tt);
       ret (Block (bscope_flag b) (bnodes b))) entered
  /\ length (stack entered)
     = if scope then S (length (stack s)) else length (stack s).
Proof. destruct scope; split; reflexivity. Qed.

(** C10.  A block with a scope of its own has its statements visited one
    frame deeper, a block without one as deep as the stack was.  The
    visit of a block throws no Return: the one a statement throws is kept
    in the block.  When the visit completes the frame stack is as deep
    as it was, with the same frames on it, and the block comes back with
    the scope flag it had. *)
Theorem visitBlock_preserves_depth (env : Env) (fuel : nat) (scope : bool)
        (nodes : list Node) (s : Evaluator) :
  wf s ->
  (let entered := if scope
                  then pushed (fresh s) (allocated KBlock true nodes s)
                  else allocated KBlock false nodes s in
   visit env (S fuel) (Block scope nodes) s
     = (run statements (visit env fuel) fuel (fresh s) false 0;
        do b <- get_block (fresh s);
        run (if bscope_flag b then stack_pop else ret tt);
        ret (Block (bscope_flag b) (bnodes b))) entered
   /\ length (stack entered)
      = if scope then S (length (stack s)) else length (stack s))
  /\ (forall e s', visit env (S fuel) (Block scope nodes) s
                     <> Throw (ThrowReturn e) s')
  /\ (forall r s', visit env (S fuel) (Block scope nodes) s = Ok r s' ->
        length (stack s') = length (stack s)
        /\ shape s' = shape s
        /\ exists nodes', r = Block scope nodes').
Proof.
  intros Hwf.
  pose proof (visitBlock_keeps (visit env fuel) fuel scope nodes s
                (visit_good env fuel) Hwf) as H.
  split; [|split].
  - exact (visitBlock_enters (visit env fuel) fuel scope nodes s).
  - intros e s' He. cbn [visit visit_node] in He. rewrite He in H.
    discriminate H.
  - intros r s' Hr. cbn [visit visit_node] in Hr. rewrite Hr in H.
    destruct H as [Hp Hb]. repeat split.
    + apply shape_length, (pr_shape _ _ Hp).
    + apply (pr_shape _ _ Hp).
    + exact Hb.
Qed.

(** * The theorems at work on concrete inputs *)

Lemma wf_new_evaluator (env : Env) (root : list Node) (search : list string) :
  wf (new_evaluator env root search).
Proof.
  split.
  - cbn [new_evaluator stack fresh]. constructor; [|constructor].
    unfold populateGlobalScope.
    assert (H : forall cs f, fblock f = root_id ->
                fblock (fold_left
                          (fun f c => frame_add (fst c)
                             (Color (snd c).1.1 (snd c).1.2 (snd c).2 1) f)
                          cs f) = root_id).
    { induction cs as [|c cs IH]; intros f Hf; cbn [fold_left]; auto. }
    rewrite H by reflexivity. unfold root_id. lia.
  - intros id Hid. cbn [new_evaluator blocks fresh] in *.
    apply lookup_singleton_ne. unfold root_id. lia.
Qed.



Lemma visitProperty_literal_witness :
  visit Std.env 3
        (Property [Ident "foo" Null false] (Expression false [Unit 1 "px"])
                  (Some "foo") true)
        calling_foo
  = Ok (Property [Ident "foo" Null false] (Expression false [Unit 1 "px"])
                 (Some "foo") true)
       calling_foo.
Proof.
  apply (proj2 (visitProperty_literal Std.env 2
                  [Ident "foo" Null false] (Expression false [Unit 1 "px"])
                  (Some "foo") calling_foo)
               "foo" calling_foo (set_return true calling_foo)
               eq_refl eq_refl eq_refl).
Defined.

Lemma visitBinOp_coercion_failure_witness :
  visit Std.env 2 (BinOp "==" (Unit 1 "") (String_ "a"))
        (new_evaluator Std.env [] [])
  = Ok (Boolean false) (new_evaluator Std.env [] [])
  /\ visit Std.env 2 (BinOp "+" (Unit 1 "") (String_ "a"))
           (new_evaluator Std.env [] [])
     = Throw (Error "cannot coerce") (new_evaluator Std.env [] []).
Proof.
  pose proof (visitBinOp_coercion_failure Std.env 1 "==" (Unit 1 "")
                (String_ "a") (new_evaluator Std.env [] [])
                (Unit 1 "") (String_ "a")
                (set_return true (new_evaluator Std.env [] []))
                (set_return true (new_evaluator Std.env [] []))
                (Error "cannot coerce") eq_refl eq_refl eq_refl) as [He _].
  pose proof (visitBinOp_coercion_failure Std.env 1 "+" (Unit 1 "")
                (String_ "a") (new_evaluator Std.env [] [])
                (Unit 1 "") (String_ "a")
                (set_return true (new_evaluator Std.env [] []))
                (set_return true (new_evaluator Std.env [] []))
                (Error "cannot coerce") eq_refl eq_refl eq_refl) as [_ Hp].
  split.
  - apply He. left. reflexivity.
  - apply Hp.
    + intros H. repeat (apply elem_of_cons in H as [H|H]; [discriminate H|]).
      inversion H.
    + intros (H & _). discriminate H.
Defined.


Lemma toBoolean_boolean (b : bool) : Std.toBoolean (Boolean b) = Boolean b.
Proof. destruct b; reflexivity. Defined.

Lemma conditional_assignment_semantics_witness :
  visit Std.env 5
        (conditional_assignment "x" (Expression false [Unit 1 ""]))
        (new_evaluator Std.env [] [])
  = Ok (Expression false [Unit 1 ""])
       (bound 1 "x" (Expression false [Unit 1 ""])
              (new_evaluator Std.env [] []))
  /\ visit Std.env 5
           (conditional_assignment "y" (Expression false [Unit 1 ""]))
           y_bound
     = Ok (Expression false [Unit 5 ""]) y_bound
  /\ exists p',
      Parser.assignment (Parser.expression 4) 4 conditional_tokens
      = Parser.Parsed
          (conditional_assignment "x" (Expression false [Unit 1 ""])) p'.
Proof.
  split; [|split].
  3:{ eexists.
      eapply (proj1 (conditional_assignment_semantics Std.env 3 "x"
                       (Expression false [Unit 1 ""]) toBoolean_boolean
                       eq_refl)
                (Parser.expression 4) 4 conditional_tokens
                (Parser.mkToken "ident" (Ident "x" Null false) "x")
                [Parser.op_tok "space"] (Parser.op_tok "?=")
                [unit_tok 1; Parser.op_tok "newline"]).
      - reflexivity.
      - reflexivity.
      - right. eexists. split; reflexivity.
      - reflexivity.
      - reflexivity.
      - vm_compute. reflexivity.
      - reflexivity. }
  - apply (proj1 (proj1 (proj2
             (conditional_assignment_semantics Std.env 3 "x"
                (Expression false [Unit 1 ""]) toBoolean_boolean eq_refl))
             (new_evaluator Std.env [] []) (Expression false [Unit 1 ""])
             (set_return true (new_evaluator Std.env [] []))
             (mkFrame 1 ∅ root_id) [] eq_refl eq_refl eq_refl)).
  - apply (proj2 (proj2 (proj2
             (conditional_assignment_semantics Std.env 3 "y"
                (Expression false [Unit 1 ""]) toBoolean_boolean eq_refl))
             y_bound (Expression false [Unit 5 ""]) eq_refl)
             (Expression false [Unit 5 ""]) eq_refl).
Defined.

Lemma visitBlock_preserves_depth_witness :
  match visit Std.env 4
          (Block true [Return (Expression false [Unit 1 ""])])
          (new_evaluator Std.env [] []) with
  | Ok r s' =>
      length (stack s') = length (stack (new_evaluator Std.env [] []))
      /\ r = Block true [Return (Expression false [Unit 1 ""])]
  | _ => False
  end.
Proof.
  destruct (visit Std.env 4
              (Block true [Return (Expression false [Unit 1 ""])])
              (new_evaluator Std.env [] [])) as [r s'|e s'|] eqn:E.
  - split.
    + exact (proj1 (proj2 (proj2
               (visitBlock_preserves_depth Std.env 3 true
                  [Return (Expression false [Unit 1 ""])]
                  (new_evaluator Std.env [] [])
                  (wf_new_evaluator Std.env [] []))) r s' E)).
    + vm_compute in E. injection E as <- _. reflexivity.
  - vm_compute in E. discriminate E.
  - vm_compute in E. discriminate E.
Defined.

Lemma invoke_return_mode_witness :
  invoke [Ident "a" Null false; Return (Unit 1 ""); Unit 2 ""]
         (set_return true (new_evaluator Std.env [] []))
  = Ok (Unit 1 "") (set_return true (new_evaluator Std.env [] [])).
Proof.
  exact (proj1 (invoke_return_mode
                  [Ident "a" Null false; Return (Unit 1 ""); Unit 2 ""]
                  (set_return true (new_evaluator Std.env [] []))
                  (mkFrame 1 ∅ root_id) eq_refl eq_refl)).
Defined.

(** * Further properties of the evaluator *)

(** ** mixin (evaluator.js, 688-702) *)

Lemma mixin_block_unfold (scope : bool) (inner : list Node) :
  mixin_node (Block scope inner) = mixin inner.
Proof.
  cbn [mixin_node]. induction inner as [|n inner IH]; [reflexivity|].
  destruct n; cbn [mixin]; try (f_equal; exact IH); reflexivity.
Qed.

Lemma mixin_cons (n : Node) (rest : list Node) :
  returns n = false -> mixin (n :: rest) = mixin_node n ++ mixin rest.
Proof. destruct n; intros H; try reflexivity; discriminate H. Qed.

Lemma mixin_node_plain (n : Node) :
  returns n = false -> Forall (fun x => plain x = true) (mixin_node n).
Proof.
  revert n. fix IH 1. intros n H.
  destruct n; try discriminate H;
    try (cbn [mixin_node]; repeat constructor; fail).
  cbn [mixin_node]. clear H. revert nodes. fix IHl 1. intros [|x rest].
  - constructor.
  - destruct (returns x) eqn:Hx.
    + destruct x; try discriminate Hx. constructor.
    + assert (E : forall go, match x with
                             | Return _ => []
                             | _ => mixin_node x ++ go rest
                             end = mixin_node x ++ go rest).
      { intros go. destruct x; try reflexivity; discriminate Hx. }
      rewrite E. apply Forall_app. split; [apply IH, Hx | apply IHl].
Qed.

Lemma mixin_plain (nodes : list Node) :
  Forall (fun x => plain x = true) (mixin nodes).
Proof.
  induction nodes as [|n nodes IH]; [constructor|].
  destruct (returns n) eqn:Hn.
  - destruct n; try discriminate Hn. constructor.
  - rewrite mixin_cons by exact Hn. apply Forall_app. split; [|exact IH].
    apply mixin_node_plain, Hn.
Qed.

Lemma plain_no_return (n : Node) : plain n = true -> returns n = false.
Proof. destruct n; intros H; try reflexivity; discriminate H. Qed.

Lemma mixin_node_plain_id (n : Node) : plain n = true -> mixin_node n = [n].
Proof. destruct n; intros H; try reflexivity; discriminate H. Qed.

(** Statements that are neither blocks nor returns are mixed in as they
    are. *)
Lemma mixin_of_plain (nodes : list Node) :
  Forall (fun x => plain x = true) nodes -> mixin nodes = nodes.
Proof.
  induction 1 as [|n nodes Hn _ IH]; [reflexivity|].
  rewrite mixin_cons by (apply plain_no_return, Hn).
  rewrite mixin_node_plain_id by exact Hn. cbn. now rewrite IH.
Qed.

Lemma mixin_app_no_return (pre rest : list Node) :
  existsb returns pre = false -> mixin (pre ++ rest) = mixin pre ++ mixin rest.
Proof.
  induction pre as [|n pre IH]; intros H; [reflexivity|].
  cbn [existsb] in H. apply orb_false_elim in H as [Hn Hpre].
  cbn [app]. rewrite !mixin_cons by exact Hn.
  rewrite IH by exact Hpre. now rewrite app_assoc.
Qed.

(** X1.  What [mixin] pushes onto its destination holds neither a block
    nor a return, however deep the blocks of the mixed statements are
    nested: the blocks are flattened and the returns are dropped.  Mixing
    in what was mixed in changes nothing. *)
Theorem mixin_yields_plain (nodes : list Node) :
  Forall (fun x => plain x = true) (mixin nodes)
  /\ mixin (mixin nodes) = mixin nodes.
Proof.
  split; [apply mixin_plain|]. apply mixin_of_plain, mixin_plain.
Qed.

(** X2.  A return ends the call of [mixin] that meets it and no other:
    at the top of the list it cuts off all that follows; within a nested
    block it cuts off the rest of that block, and the statements that
    follow the block are mixed in all the same. *)
Theorem mixin_return_is_local (pre inner dead rest : list Node)
        (e : Node) (scope : bool) :
  existsb returns pre = false ->
  existsb returns inner = false ->
  mixin (pre ++ Return e :: dead) = mixin pre
  /\ mixin (pre ++ Block scope (inner ++ Return e :: dead) :: rest)
     = mixin pre ++ mixin inner ++ mixin rest.
Proof.
  intros Hpre Hinner. split.
  - rewrite mixin_app_no_return by exact Hpre. cbn [mixin]. apply app_nil_r.
  - rewrite mixin_app_no_return by exact Hpre. f_equal.
    rewrite mixin_cons by reflexivity. f_equal.
    rewrite mixin_block_unfold, mixin_app_no_return by exact Hinner.
    cbn [mixin]. apply app_nil_r.
Qed.

Lemma mixin_return_is_local_witness :
  mixin ([foo_bar] ++ Return Null :: [baz_qux]) = [foo_bar]
  /\ mixin ([foo_bar] ++ Block false ([baz_qux] ++ Return Null :: [foo_bar])
                      :: [baz_qux])
     = [foo_bar; baz_qux; baz_qux].
Proof.
  exact (mixin_return_is_local [foo_bar] [baz_qux] [foo_bar] [baz_qux]
           Null false eq_refl eq_refl).
Defined.

(** ** The global scope (evaluator.js, 103-111) *)

Lemma populate_other (cs : list (string * (Z * Z * Z))) :
  forall (f : Frame) (name : string),
    name ∉ map fst cs ->
    fscope (fold_left (fun f c => frame_add (fst c)
                         (Color (snd c).1.1 (snd c).1.2 (snd c).2 1) f) cs f)
      !! name = fscope f !! name.
Proof.
  induction cs as [|c cs IH]; intros f name H; [reflexivity|].
  cbn [fold_left]. cbn [map] in H. apply not_elem_of_cons in H as [Hc Hcs].
  rewrite IH by exact Hcs. cbn [frame_add fscope].
  now rewrite lookup_insert_ne by (intros E; apply Hc; now rewrite E).
Qed.

Lemma populate_binds (cs : list (string * (Z * Z * Z))) :
  forall (f : Frame) (name : string) (r g b : Z),
    NoDup (map fst cs) -> (name, (r, g, b)) ∈ cs ->
    fscope (fold_left (fun f c => frame_add (fst c)
                         (Color (snd c).1.1 (snd c).1.2 (snd c).2 1) f) cs f)
      !! name = Some (Color r g b 1).
Proof.
  induction cs as [|c cs IH]; intros f name r g b Hnd Hin.
  - inversion Hin.
  - cbn [map] in Hnd. apply NoDup_cons in Hnd as [Hc Hnd].
    apply elem_of_cons in Hin as [<-|Hin]; cbn [fold_left].
    + rewrite populate_other by exact Hc. cbn [frame_add fscope fst snd].
      now rewrite lookup_insert_eq.
    + now apply IH.
Qed.

(** X3.  A new evaluator resolves the names of the colour table, and no
    other name, on its stack: a name of the table to the colour of its
    three components with alpha 1.  The table being an object, no name
    stands in it twice. *)
Theorem populateGlobalScope_colors (env : Env) (root : list Node)
        (search : list string) (name : string) :
  NoDup (map fst (colors env)) ->
  (forall r g b, (name, (r, g, b)) ∈ colors env ->
     stack_lookup (stack (new_evaluator env root search)) name
     = Some (Color r g b 1))
  /\ (name ∉ map fst (colors env) ->
      stack_lookup (stack (new_evaluator env root search)) name = None).
Proof.
  intros Hnd. split.
  - intros r g b Hin. cbn [new_evaluator stack stack_lookup].
    unfold populateGlobalScope.
    now rewrite (populate_binds (colors env) _ name r g b Hnd Hin).
  - intros Hout. cbn [new_evaluator stack stack_lookup].
    unfold populateGlobalScope.
    rewrite populate_other by exact Hout. cbn [fscope].
    now rewrite lookup_empty.
Qed.

Lemma populateGlobalScope_colors_witness :
  stack_lookup (stack (new_evaluator Host.env [] [])) "blue"
  = Some (Color 0 0 255 1)
  /\ stack_lookup (stack (new_evaluator Host.env [] [])) "green" = None.
Proof.
  assert (Hnd : NoDup (map fst (colors Host.env))).
  { refine (bool_decide_unpack _ _). vm_compute. exact I. }
  split.
  - apply (proj1 (populateGlobalScope_colors Host.env [] [] "blue" Hnd)).
    apply list_elem_of_further, list_elem_of_here.
  - apply (proj2 (populateGlobalScope_colors Host.env [] [] "green" Hnd)).
    refine (bool_decide_unpack _ _). vm_compute. exact I.
Defined.

(** ** Identifiers (evaluator.js, 270-284) *)

Lemma the_frame_unfold (s : Evaluator) :
  the_frame s = match currentFrame s with
                | Some f => Ok f s
                | None => Throw (TypeError "currentFrame is undefined") s
                end.
Proof. reflexivity. Qed.

Lemma get_block_unfold (id : nat) (s : Evaluator) :
  get_block id s = match blocks s !! id with
                   | Some b => Ok b s
                   | None => Throw (TypeError "no such block") s
                   end.
Proof. reflexivity. Qed.

Lemma scope_add_eq (fr : nat) (name : string) (v : Node) (s : Evaluator) :
  scope_add fr name v s = Ok tt (bound fr name v s).
Proof. reflexivity. Qed.

Lemma stack_lookup_bound (fr : nat) (name : string) (v : Node)
      (f : Frame) (rest : list Frame) :
  fid f = fr ->
  stack_lookup (map (fun f => if Nat.eqb (fid f) fr
                              then frame_add name v f else f) (f :: rest))
               name = Some v.
Proof.
  intros <-. cbn [map stack_lookup]. rewrite Nat.eqb_refl.
  cbn [frame_add fscope]. now rewrite lookup_insert_eq.
Qed.

(** X4.  An assignment [name = val] that completes has visited [val] in
    return mode, hands back what that visit made of it and leaves the name
    bound to it on the stack, [this.return] being as it was. *)
Theorem visitIdent_assigns (env : Env) (fuel : nat) (name : string)
        (val : Node) (rest : bool) (s : Evaluator) :
  is_null val = false ->
  forall v s',
    visit env (S fuel) (Ident name val rest) s = Ok v s' ->
    stack_lookup (stack s') name = Some v
    /\ return_ s' = return_ s
    /\ (exists s1, visit env fuel val (set_return true s) = Ok v s1).
Proof.
  intros Hval v s' H. cbn [visit visit_node] in H. unfold visitIdent in H.
  rewrite Hval in H. rewrite bind_unfold, in_return_mode_unfold in H.
  destruct (visit env fuel val (set_return true s)) as [v1 s1| |] eqn:Ev;
    try discriminate H.
  rewrite bind_unfold, the_frame_unfold in H. unfold currentFrame in H.
  cbn [stack set_return] in H.
  destruct (stack s1) as [|f fs] eqn:Es; cbn [head] in H; [discriminate H|].
  unfold bind, scope_add, modify, ret in H. injection H as <- E.
  assert (L : stack_lookup (stack s') name = Some v1).
  { rewrite <- E. cbn [stack set_stack set_return]. rewrite Es.
    now apply stack_lookup_bound. }
  assert (R : return_ s' = return_ s) by (now rewrite <- E).
  clear E. repeat split.
  - exact L.
  - exact R.
  - eauto.
Qed.

Lemma visitIdent_assigns_witness :
  match visit Std.env 3 (Ident "x" (Expression false [Unit 5 ""]) false)
              (new_evaluator Std.env [] []) with
  | Ok v s' =>
      stack_lookup (stack s') "x" = Some v
      /\ v = Expression false [Unit 5 ""]
  | _ => False
  end.
Proof.
  destruct (visit Std.env 3 (Ident "x" (Expression false [Unit 5 ""]) false)
              (new_evaluator Std.env [] [])) as [v s'|e s'|] eqn:E.
  - destruct (visitIdent_assigns Std.env 2 "x" (Expression false [Unit 5 ""])
                false (new_evaluator Std.env [] []) eq_refl v s' E)
      as (L & _ & _).
    split; [exact L|].
    vm_compute in E. now injection E as <- _.
  - vm_compute in E. discriminate E.
  - vm_compute in E. discriminate E.
Defined.

(** ** Operators (evaluator.js, 290-372) *)

(** X5.  [-] between operands whose first nodes, once visited, are an
    ident and a unit is no subtraction: the visit yields the expression
    of the ident and the unit negated, and neither coerces nor operates. *)
Theorem visitBinOp_minus_ident (env : Env) (fuel : nat) (l r : Node)
        (s : Evaluator) (l' r' : Node) (s1 s2 : Evaluator)
        (name : string) (val : Node) (rest : bool) (v : Z) (t : string) :
  visit env fuel l (set_return true s) = Ok l' s1 ->
  visit env fuel r s1 = Ok r' s2 ->
  first env l' = Ident name val rest ->
  first env r' = Unit v t ->
  exists s',
    visit env (S fuel) (BinOp "-" l r) s
    = Ok (Expression false [Ident name val rest; Unit (- v) t]) s'
    /\ return_ s' = return_ s.
Proof.
  intros Hl Hr Fl Fr. cbn [visit visit_node]. unfold visitBinOp.
  cbn [String.eqb Ascii.eqb Bool.eqb andb orb].
  rewrite bind_unfold, in_return_mode_unfold, bind_unfold, Hl, bind_unfold, Hr.
  unfold ret at 1. cbv beta iota. rewrite Fl, Fr.
  eexists. split; reflexivity.
Qed.

Lemma visitBinOp_minus_ident_witness :
  exists s',
    visit Std.env 2 (BinOp "-" (Ident "a" Null false) (Unit 5 "px"))
          (new_evaluator Std.env [] [])
    = Ok (Expression false [Ident "a" Null false; Unit (-5) "px"]) s'
    /\ return_ s' = false.
Proof.
  exact (visitBinOp_minus_ident Std.env 1 (Ident "a" Null false)
           (Unit 5 "px") (new_evaluator Std.env [] [])
           (Ident "a" Null false) (Unit 5 "px")
           (set_return true (new_evaluator Std.env [] []))
           (set_return true (new_evaluator Std.env [] []))
           "a" Null false 5%Z "px" eq_refl eq_refl eq_refl eq_refl).
Defined.

(** X6.  [is defined] does not evaluate its operand: for an ident the
    visit yields whether the name looks up to something, on the stack or
    among the host functions and the built-ins; for any other operand it
    throws.  Either way the state is left as it was. *)
Theorem isDefined_leaves_operand (env : Env) (fuel : nat) (l r : Node)
        (s : Evaluator) :
  visit env (S fuel) (BinOp "is defined" l r) s
  = match l with
    | Ident name _ _ =>
        Ok (Boolean (bool_decide (is_Some (js_opt (lookup env s name))))) s
    | _ => Throw (Error "invalid is defined check on non-variable") s
    end.
Proof.
  cbn [visit visit_node]. unfold visitBinOp.
  cbn [String.eqb Ascii.eqb Bool.eqb andb orb]. unfold isDefined.
  destruct l; try reflexivity.
  rewrite bind_unfold. unfold get, ret.
  destruct (js_opt (lookup env s name)); reflexivity.
Qed.

(** X7.  A unary operator other than [!] asks for a unit: on the first
    node of its operand, once visited, [-] yields the unit of the negated
    value, [~] that of the complement of its 32 bits, and any other
    operator the unit as it is; on a node that is no unit the visit
    throws. *)
Theorem visitUnaryOp_operand (env : Env) (fuel : nat) (op : string)
        (expr : Node) (s : Evaluator) (e : Node) (s1 : Evaluator) :
  visit env fuel expr s = Ok e s1 ->
  op <> "!" ->
  (forall v t, first env e = Unit v t ->
     exists s',
       visit env (S fuel) (UnaryOp op expr) s
       = Ok (Unit (if String.eqb op "-" then (- v)%Z
                   else if String.eqb op "~" then js_bitnot v else v) t) s'
       /\ return_ s' = return_ s1 /\ calling s' = calling s1)
  /\ (nodeName (first env e) <> "unit" ->
      visit env (S fuel) (UnaryOp op expr) s
      = Throw (Error "expected Unit") s1).
Proof.
  intros He Hop. apply eqb_ne in Hop.
  split.
  - intros v t Hf. cbn [visit visit_node]. unfold visitUnaryOp.
    rewrite bind_unfold, He, Hop, Hf. exists s1.
    destruct (String.eqb op "-"); [repeat split|].
    destruct (String.eqb op "+") eqn:E1.
    + apply String.eqb_eq in E1. subst op. repeat split.
    + destruct (String.eqb op "~"); repeat split.
  - intros Hn. cbn [visit visit_node]. unfold visitUnaryOp.
    rewrite bind_unfold, He, Hop.
    destruct (first env e); try reflexivity. now contradiction Hn.
Qed.

Lemma visitUnaryOp_operand_witness :
  (exists s',
      visit Std.env 2 (UnaryOp "~" (Unit 5 "px"))
            (new_evaluator Std.env [] [])
      = Ok (Unit (-6) "px") s'
      /\ return_ s' = false /\ calling s' = [])
  /\ visit Std.env 2 (UnaryOp "-" (String_ "a")) (new_evaluator Std.env [] [])
     = Throw (Error "expected Unit") (new_evaluator Std.env [] []).
Proof.
  split.
  - apply (proj1 (visitUnaryOp_operand Std.env 1 "~" (Unit 5 "px")
                    (new_evaluator Std.env [] []) (Unit 5 "px")
                    (new_evaluator Std.env [] []) eq_refl
                    ltac:(discriminate)) 5%Z "px" eq_refl).
  - apply (proj2 (visitUnaryOp_operand Std.env 1 "-" (String_ "a")
                    (new_evaluator Std.env [] []) (String_ "a")
                    (new_evaluator Std.env [] []) eq_refl
                    ltac:(discriminate))).
    discriminate.
Defined.

(** ** Imports (evaluator.js, 515-550) *)

(** X8.  An import that finds its file splices the statements of the
    file into the root right after the statement under visit: what
    stood in the root up to and including that statement comes first,
    then the statements of the file, then what followed.  The import
    itself yields null and the directory of the file becomes the import
    path; the stack and the search paths are as they were. *)
Theorem visitImport_splices (env : Env) (fuel : nat) (path : string)
        (s : Evaluator) (i : nat) (root : BlockState) (found : string)
        (parsed : list Node) :
  ends_with_css path = false ->
  rootIndex s = Some i ->
  blocks s !! root_id = Some root ->
  lookup_file env (String.append path ".styl")
              (match importPath s with
               | Some relative => paths s ++ [relative]
               | None => paths s
               end) = Some found ->
  parse_file env found = inr parsed ->
  exists s',
    visit env (S fuel) (Import path) s = Ok Null s'
    /\ bnodes <$> blocks s' !! root_id
       = Some (take (S i) (bnodes root) ++ parsed ++ drop (S i) (bnodes root))
    /\ importPath s' = Some (dirname env found)
    /\ stack s' = stack s /\ paths s' = paths s.
Proof.
  intros Hcss Hi Hroot Hfound Hparse.
  cbn [visit visit_node]. unfold visitImport. rewrite Hcss.
  rewrite bind_unfold. unfold get. rewrite Hfound.
  rewrite bind_unfold. unfold modify at 1.
  rewrite bind_unfold, get_block_unfold. cbn [blocks set_importPath].
  rewrite Hroot, Hi.
  rewrite bind_unfold. unfold update_block at 1, modify at 1.
  rewrite bind_unfold, Hparse. unfold lift, ret at 1.
  rewrite bind_unfold. unfold update_block, modify, ret.
  eexists. split; [reflexivity|].
  cbn [blocks set_blocks set_importPath importPath stack paths].
  repeat split.
  rewrite !lookup_alter_eq, Hroot. reflexivity.
Qed.

Lemma visitImport_splices_witness :
  exists s',
    visit Host.env 1 (Import "lib") importing = Ok Null s'
    /\ bnodes <$> blocks s' !! root_id
       = Some [Import "lib"; Ident "x" (Expression false [Unit 1 ""]) false;
               foo_bar].
Proof.
  destruct (visitImport_splices Host.env 0 "lib" importing 0
              (mkBlockState KRoot [Import "lib"; foo_bar] None true 2)
              "/lib.styl" Host.lib eq_refl eq_refl eq_refl eq_refl eq_refl)
    as (s' & E & B & _).
  exists s'. split; [exact E | exact B].
Defined.

(** X9.  An import whose path ends in [.css] comes back as it is, and an
    import whose file is not found on the search paths throws; the state
    is as it was in both cases. *)
Theorem visitImport_edges (env : Env) (fuel : nat) (path : string)
        (s : Evaluator) :
  (ends_with_css path = true ->
     visit env (S fuel) (Import path) s = Ok (Import path) s)
  /\ (ends_with_css path = false ->
      lookup_file env (String.append path ".styl")
                  (match importPath s with
                   | Some relative => paths s ++ [relative]
                   | None => paths s
                   end) = None ->
      visit env (S fuel) (Import path) s
      = Throw (Error "failed to locate @import file") s).
Proof.
  split.
  - intros H. cbn [visit visit_node]. unfold visitImport. now rewrite H.
  - intros H Hl. cbn [visit visit_node]. unfold visitImport. rewrite H.
    rewrite bind_unfold. unfold get. now rewrite Hl.
Qed.

Lemma visitImport_edges_witness :
  visit Host.env 1 (Import "reset.css") importing
  = Ok (Import "reset.css") importing
  /\ visit Host.env 1 (Import "missing") importing
     = Throw (Error "failed to locate @import file") importing.
Proof.
  split.
  - exact (proj1 (visitImport_edges Host.env 0 "reset.css" importing)
             eq_refl).
  - exact (proj2 (visitImport_edges Host.env 0 "missing" importing)
             eq_refl eq_refl).
Defined.

(** ** Invocation in mixin mode (evaluator.js, 663-678) *)

(** X10.  In mixin mode [invoke] yields null and rebuilds the nodes of
    the block of the current frame: the statements before [block.index],
    then the body as [mixin] flattens it, then the statements after
    [block.index].  The statement at [block.index] is gone; no other
    block and no frame is touched.  When [mixin] comes to an entry of the
    body that is undefined, [invoke] throws a TypeError instead and
    leaves every block as it was. *)
Theorem invoke_mixin_mode (body : list Node) (s : Evaluator) (f : Frame)
        (b : BlockState) (i : nat) :
  return_ s = false ->
  currentFrame s = Some f ->
  blocks s !! fblock f = Some b ->
  bindex b = Some i ->
  if mixin_undefined body
  then invoke body s = Throw (TypeError "nodeName of undefined") s
  else
    exists s',
      invoke body s = Ok Null s'
      /\ bnodes <$> blocks s' !! fblock f
         = Some (take i (bnodes b) ++ mixin body ++ drop (S i) (bnodes b))
      /\ (forall id, id <> fblock f -> blocks s' !! id = blocks s !! id)
      /\ stack s' = stack s.
Proof.
  intros Hr Hf Hb Hi. unfold invoke.
  rewrite bind_unfold, the_frame_unfold, Hf.
  rewrite bind_unfold. unfold get. rewrite Hr.
  rewrite bind_unfold, get_block_unfold, Hb, Hi.
  destruct (mixin_undefined body); [reflexivity|].
  rewrite bind_unfold. unfold new_id.
  rewrite bind_unfold. unfold update_block, modify, ret.
  eexists. split; [reflexivity|].
  cbn [blocks set_blocks set_fresh stack]. repeat split.
  - rewrite lookup_alter_eq, Hb. reflexivity.
  - intros id Hid. now rewrite lookup_alter_ne.
Qed.

Lemma invoke_mixin_mode_witness :
  (exists s',
      invoke [Block false [foo_bar]; Return Null; baz_qux] mixing = Ok Null s'
      /\ bnodes <$> blocks s' !! root_id = Some [Null; foo_bar; baz_qux])
  /\ invoke [foo_bar; Block false [Undefined]] mixing
     = Throw (TypeError "nodeName of undefined") mixing.
Proof.
  split.
  - destruct (invoke_mixin_mode
                [Block false [foo_bar]; Return Null; baz_qux]
                mixing (mkFrame 1 ∅ root_id)
                (mkBlockState KRoot [Null; Call "f" no_arguments; baz_qux]
                              (Some 1) true 2)
                1 eq_refl eq_refl eq_refl eq_refl)
      as (s' & E & B & _).
    exists s'. split; [exact E | exact B].
  - exact (invoke_mixin_mode [foo_bar; Block false [Undefined]]
             mixing (mkFrame 1 ∅ root_id)
             (mkBlockState KRoot [Null; Call "f" no_arguments; baz_qux]
                           (Some 1) true 2)
             1 eq_refl eq_refl eq_refl eq_refl).
Defined.

(** ** Built-ins (evaluator.js, 222-264 and 627-653) *)

(** X11.  A call that resolves to a built-in or a host function, in
    return mode: the native function is applied to the nodes of the
    visited arguments -- to the first node of each unless the function is
    flagged raw -- and what it returns is what the call yields, as the
    scan of [eval] sees it, the name being taken off [calling] again;
    when it returns undefined the scan throws a TypeError, and so does
    the call.  What the native function throws, the call throws. *)
Theorem visitCall_builtin (env : Env) (fuel : nat) (name : string)
        (args : Node) (s : Evaluator) (fname : string) (params : list Node)
        (bscope : bool) (body : list Node) (fn : Native)
        (args' : Node) (anodes : list Node) (s1 : Evaluator) (f : Frame) :
  js_opt (resolve env s name)
    = Some (Function fname params bscope body (Some fn)) ->
  length (calling s) < 200 ->
  return_ s = true ->
  visit env fuel args (set_return true (set_calling (name :: calling s) s))
    = Ok args' s1 ->
  node_nodes args' = Some anodes ->
  currentFrame s1 = Some f ->
  (forall e,
     native_apply env fn (if native_raw env fn then anodes
                          else map (first env) anodes) = inl e ->
     visit env (S fuel) (Call name args) s = Throw e (set_return true s1))
  /\ (forall result,
        native_apply env fn (if native_raw env fn then anodes
                             else map (first env) anodes) = inr result ->
        visit env (S fuel) (Call name args) s
        = match eval [result] with
          | Some node =>
              Ok node (set_calling (tail (calling s1)) (set_return true s1))
          | None =>
              Throw (TypeError "nodeName of undefined") (set_return true s1)
          end).
Proof.
  intros Hres Hlen Hret Hargs Hnodes Hframe.
  assert (E : visit env (S fuel) (Call name args) s
              = (do r <- (do body <- lift (native_apply env fn
                                (if native_raw env fn then anodes
                                 else map (first env) anodes));
                          invoke [body]);
                 run modify (fun s => set_calling (tail (calling s)) s);
                 ret r) (set_return true s1)).
  { cbn [visit visit_node]. unfold visitCall.
    rewrite bind_unfold. unfold get. rewrite Hres.
    rewrite bind_unfold. unfold modify at 1.
    rewrite bind_unfold. unfold get.
    assert (L : Nat.ltb 200 (length (calling (set_calling (name :: calling s) s)))
                = false) by (apply Nat.ltb_ge; cbn; lia).
    rewrite L. rewrite bind_unfold, in_return_mode_unfold.
    cbn [return_ set_calling]. rewrite Hret.
    rewrite Hargs. unfold invokeBuiltin.
    rewrite !bind_unfold. rewrite Hnodes.
    destruct (native_raw env fn); reflexivity. }
  split.
  - intros e He. rewrite E, !bind_unfold, He. reflexivity.
  - intros r Hr. rewrite E, !bind_unfold, Hr. cbn [lift]. unfold ret at 1.
    unfold invoke. rewrite bind_unfold, the_frame_unfold.
    unfold currentFrame in *. cbn [stack set_return]. rewrite Hframe.
    rewrite bind_unfold. unfold get. cbn [return_ set_return].
    destruct (eval [r]); reflexivity.
Qed.

Lemma visitCall_builtin_witness :
  visit Host.env 4
        (Call "double" (Expression false [Expression false [Unit 4 "px"]]))
        (set_return true (new_evaluator Host.env [] []))
  = Ok (Unit 8 "px") (set_return true (new_evaluator Host.env [] [])).
Proof.
  exact (proj2 (visitCall_builtin Host.env 3 "double"
                  (Expression false [Expression false [Unit 4 "px"]])
                  (set_return true (new_evaluator Host.env [] []))
                  "double" [] true [] (Bif "double")
                  (Expression false [Expression false [Unit 4 "px"]])
                  [Expression false [Unit 4 "px"]]
                  (set_return true
                     (set_calling ["double"]
                        (set_return true (new_evaluator Host.env [] []))))
                  (populateGlobalScope Host.env (mkFrame 1 ∅ root_id))
                  eq_refl ltac:(cbn; lia) eq_refl eq_refl eq_refl eq_refl)
               (Unit 8 "px") eq_refl).
Defined.

(** ** Conditionals within a selector (evaluator.js, 463-509) *)

(** X12.  An [if] that is visited while a selector is, in mixin mode, and
    whose condition holds: the statements of its block, once visited,
    are mixed in at the end of the block of the selector -- after the
    statements that follow the [if] -- and the [if] itself yields null. *)
Theorem visitIf_mixes_into_group (env : Env) (fuel : nat) (cond block : Node)
        (elses : list Node) (s : Evaluator) (g : nat) (c : Node)
        (s1 s2 : Evaluator) (scope : bool) (ns : list Node) :
  group s = Some g ->
  visit env fuel cond (set_return true s) = Ok c s1 ->
  is_true (toBoolean env (first env c)) = true ->
  visit env fuel block (set_return (return_ s) s1) = Ok (Block scope ns) s2 ->
  return_ s2 = false ->
  visit env (S fuel) (If cond block elses false) s
  = Ok Null
       (set_blocks (alter (fun b => with_nodes (bnodes b ++ mixin ns) b) g
                          (blocks s2)) s2).
Proof.
  intros Hg Hc Hok Hb Hr. cbn [visit visit_node]. unfold visitIf.
  rewrite bind_unfold. unfold get.
  rewrite bind_unfold, in_return_mode_unfold, Hc.
  rewrite bind_unfold, Hok, bind_unfold, Hb. unfold ret at 1.
  rewrite bind_unfold. unfold get. rewrite Hg. cbn [js_opt truthy].
  rewrite Hr. cbn [negb]. reflexivity.
Qed.

Lemma visitIf_mixes_into_group_witness :
  exists s',
    visit Std.env 6
          (If (Expression false [Boolean true]) (Block false [baz_qux])
              [] false) in_group = Ok Null s'
    /\ bnodes <$> blocks s' !! root_id = Some [foo_bar; baz_qux].
Proof.
  eexists. split.
  - eapply (visitIf_mixes_into_group Std.env 5
              (Expression false [Boolean true]) (Block false [baz_qux])
              [] in_group root_id (Expression false [Boolean true])
              (set_return true in_group)).
    + reflexivity.
    + reflexivity.
    + reflexivity.
    + vm_compute. reflexivity.
    + reflexivity.
  - vm_compute. reflexivity.
Defined.

(** ** A return at the root (evaluator.js, 428-434) *)

(** X13.  The loop of visitRoot catches nothing: a return that stands
    among the statements of the root, once its expression is visited, is
    thrown out of the visit of the root -- where the visit of a block
    would have kept it in the block. *)
Theorem visitRoot_return_escapes (env : Env) (fuel k : nat) (i : nat)
        (s : Evaluator) (b : BlockState) (e e' : Node) (s' : Evaluator) :
  blocks s !! root_id = Some b ->
  bnodes b !! i = Some (Return e) ->
  visit env fuel e
        (set_rootIndex (Some i)
           (set_blocks (alter (with_index i) root_id (blocks s)) s))
    = Ok e' s' ->
  statements (visit env (S fuel)) (S k) root_id true i s
  = Throw (ThrowReturn e') s'
  /\ (i = 0 -> visit env (S (S fuel)) Root s = Throw (ThrowReturn e') s').
Proof.
  intros Hb Hi He.
  assert (E : forall k', statements (visit env (S fuel)) (S k') root_id true i s
                         = Throw (ThrowReturn e') s').
  { intros k'. cbn [statements].
    rewrite bind_unfold, get_block_unfold, Hb, Hi.
    rewrite bind_unfold. unfold update_block at 1, modify at 1.
    rewrite bind_unfold. unfold modify at 1.
    cbn [visit visit_node]. unfold visitReturn.
    rewrite bind_unfold, He. reflexivity. }
  split; [apply E|]. intros ->.
  change (visit env (S (S fuel)) Root s)
    with ((run statements (visit env (S fuel)) (S fuel) root_id true 0;
           ret Root) s).
  now rewrite bind_unfold, E.
Qed.

Lemma visitRoot_return_escapes_witness :
  exists s',
    visit Std.env 3 Root (new_evaluator Std.env [Return (Unit 1 "")] [])
    = Throw (ThrowReturn (Unit 1 "")) s'.
Proof.
  eexists.
  apply (proj2 (visitRoot_return_escapes Std.env 1 0 0
                  (new_evaluator Std.env [Return (Unit 1 "")] [])
                  (mkBlockState KRoot [Return (Unit 1 "")] None true 2)
                  (Unit 1 "") (Unit 1 "") _ eq_refl eq_refl eq_refl)).
  reflexivity.
Defined.

(** ** Expressions (evaluator.js, 389-394) *)

Lemma visit_nodes_shape (v : Node -> M Node) (nodes : list Node) :
  forall s rs s',
    visit_nodes v nodes s = Ok rs s' ->
    Forall2 (fun n r => exists s1 s2, v n s1 = Ok r s2) nodes rs.
Proof.
  induction nodes as [|n nodes IH]; intros s rs s' H; cbn [visit_nodes] in H.
  - injection H as <- _. constructor.
  - rewrite bind_unfold in H. destruct (v n s) as [r s1| |] eqn:En;
      try discriminate H.
    rewrite bind_unfold in H.
    destruct (visit_nodes v nodes s1) as [rs' s2| |] eqn:Er;
      try discriminate H.
    injection H as <- _. constructor; eauto.
Qed.

(** X14.  The visit of an expression that completes yields an expression
    with the same list flag and as many nodes, each being what a visit
    made of the node at its place. *)
Theorem visitExpression_elementwise (env : Env) (fuel : nat) (isList : bool)
        (nodes : list Node) (s : Evaluator) (r : Node) (s' : Evaluator) :
  visit env (S fuel) (Expression isList nodes) s = Ok r s' ->
  exists nodes',
    r = Expression isList nodes'
    /\ length nodes' = length nodes
    /\ Forall2 (fun n n' => exists s1 s2, visit env fuel n s1 = Ok n' s2)
               nodes nodes'.
Proof.
  intros H. cbn [visit visit_node] in H. unfold visitExpression in H.
  rewrite bind_unfold in H.
  destruct (visit_nodes (visit env fuel) nodes s) as [rs s1| |] eqn:E;
    try discriminate H.
  injection H as <- _. exists rs.
  pose proof (visit_nodes_shape _ _ _ _ _ E) as F.
  split; [reflexivity|]. split; [|exact F].
  symmetry. eapply Forall2_length, F.
Qed.

Lemma visitExpression_elementwise_witness :
  match visit Std.env 3
          (Expression true [Unit 1 ""; BinOp "+" (Unit 1 "") (Unit 2 "")])
          (new_evaluator Std.env [] []) with
  | Ok r _ => exists nodes', r = Expression true nodes' /\ length nodes' = 2
  | _ => False
  end.
Proof.
  destruct (visit Std.env 3
              (Expression true [Unit 1 ""; BinOp "+" (Unit 1 "") (Unit 2 "")])
              (new_evaluator Std.env [] [])) as [r s'|e s'|] eqn:E.
  - destruct (visitExpression_elementwise Std.env 2 true
                [Unit 1 ""; BinOp "+" (Unit 1 "") (Unit 2 "")]
                (new_evaluator Std.env [] []) r s' E) as (ns & Hr & Hl & _).
    exists ns. split; [exact Hr | exact Hl].
  - vm_compute in E. discriminate E.
  - vm_compute in E. discriminate E.
Defined.

(** ** Property names (evaluator.js, 765-787) *)

Lemma append_empty (a : string) : String.append a "" = a.
Proof.
  induction a as [|c a IH]; [reflexivity|].
  change (String c (String.append a "") = String c a). now rewrite IH.
Qed.

(** X16.  The name of a property whose segments are idents, functions,
    literals, strings and units is the texts of the segments joined;
    building it visits nothing and leaves the state and the segments as
    they were. *)
Theorem interpolate_textual (env : Env) (v : Node -> M Node) (fuel : nat)
        (segments : list Node) (s : Evaluator) :
  forallb textual segments = true ->
  interpolate env v fuel segments s
  = Ok (String.concat "" (map segment_text segments), segments) s.
Proof.
  revert s. induction segments as [|seg rest IH]; intros s H; [reflexivity|].
  cbn [forallb] in H. apply andb_prop in H as [Hseg Hrest].
  cbn [interpolate]. rewrite bind_unfold.
  assert (T : toString env v fuel seg s = Ok (segment_text seg, seg) s).
  { destruct seg; try discriminate Hseg; destruct fuel; reflexivity. }
  rewrite T, bind_unfold, IH by exact Hrest. unfold ret.
  cbn [fst snd map]. f_equal. f_equal.
  destruct rest as [|r rest']; cbn [map String.concat].
  - apply append_empty.
  - reflexivity.
Qed.

Lemma interpolate_textual_witness :
  interpolate Std.env (visit Std.env 0) 0
              [Ident "border" Null false; Literal "-"; Ident "left" Null false]
              (new_evaluator Std.env [] [])
  = Ok ("border-left",
        [Ident "border" Null false; Literal "-"; Ident "left" Null false])
       (new_evaluator Std.env [] []).
Proof.
  exact (interpolate_textual Std.env (visit Std.env 0) 0
           [Ident "border" Null false; Literal "-"; Ident "left" Null false]
           (new_evaluator Std.env [] []) eq_refl).
Defined.

(** ** A mixin that mixes nothing in (evaluator.js, 440-457 and 561-678) *)

Ltac fields :=
  unfold popped, pushed, allocated, bound;
  cbn [stack return_ calling group rootIndex importPath paths blocks fresh
       set_stack set_return set_calling set_group set_rootIndex
       set_importPath set_paths set_blocks set_fresh].

Lemma statements_done (v : Node -> M Node) (k id : nat) (is_root : bool)
      (i : nat) (s : Evaluator) (b : BlockState) :
  blocks s !! id = Some b -> bnodes b !! i = None ->
  statements v (S k) id is_root i s = Ok tt s.
Proof.
  intros Hb Hi. cbn [statements]. rewrite bind_unfold, get_block_unfold.
  now rewrite Hb, Hi.
Qed.

(** The visit of a block without statements: the block comes back, the
    stack is as it was and the store holds what it held. *)
Lemma visitBlock_empty (v : Node -> M Node) (k : nat) (scope : bool)
      (s : Evaluator) :
  exists s',
    visitBlock v (S k) scope [] s = Ok (Block scope []) s'
    /\ stack s' = stack s /\ return_ s' = return_ s
    /\ fresh s <= fresh s'
    /\ (forall id, id < fresh s -> blocks s' !! id = blocks s !! id).
Proof.
  unfold visitBlock. rewrite bind_unfold, alloc_block_eq.
  destruct scope.
  - rewrite bind_unfold, bind_unfold, stack_push_eq. unfold ret at 1.
    rewrite bind_unfold.
    rewrite (statements_done v k (fresh s) false 0 _
               (mkBlockState KBlock [] None true (S (fresh s))))
      by (cbn; try apply lookup_insert_eq; reflexivity).
    rewrite bind_unfold, get_block_unfold.
    cbn [blocks pushed allocated set_fresh set_stack set_blocks].
    rewrite lookup_insert_eq. cbn [bscope_flag bnodes].
    rewrite bind_unfold, stack_pop_eq. unfold ret.
    eexists. split; [reflexivity|].
    repeat split; [cbn; lia|].
    intros id Hid. fields. now rewrite lookup_insert_ne by lia.
  - rewrite bind_unfold. unfold ret at 1. rewrite bind_unfold.
    rewrite (statements_done v k (fresh s) false 0 _
               (mkBlockState KBlock [] None false (S (fresh s))))
      by (cbn; try apply lookup_insert_eq; reflexivity).
    rewrite bind_unfold, get_block_unfold.
    cbn [blocks allocated set_fresh set_blocks].
    rewrite lookup_insert_eq. cbn [bscope_flag bnodes].
    rewrite bind_unfold. unfold ret.
    eexists. split; [reflexivity|].
    repeat split; [cbn; lia|].
    intros id Hid. fields. now rewrite lookup_insert_ne by lia.
Qed.

Lemma tail_head_bound (fr : nat) (name : string) (v : Node) (s : Evaluator) :
  fblock <$> head (tail (stack (bound fr name v s)))
  = fblock <$> head (tail (stack s)).
Proof.
  unfold bound. cbn [stack set_stack]. destruct (stack s) as [|f [|f' fs]];
    try reflexivity. cbn. now destruct (Nat.eqb (fid f') fr).
Qed.

(** A function without parameters and with an empty body, invoked in
    mixin mode: the statement at [block.index] is taken out of the block
    of the current frame and nothing is put in its place. *)
Lemma invokeFunction_empty (env : Env) (k : nat) (fname : string)
      (bscope : bool) (args : Node) (s : Evaluator) (f0 : Frame)
      (b : BlockState) (i : nat) :
  currentFrame s = Some f0 ->
  fblock f0 < fresh s ->
  blocks s !! fblock f0 = Some b ->
  bindex b = Some i ->
  return_ s = false ->
  exists s' a,
    invokeFunction env (visit env (S (S k))) fname [] bscope [] args s
    = Ok Null s'
    /\ blocks s' !! fblock f0
       = Some (with_new_nodes (take i (bnodes b) ++ drop (S i) (bnodes b)) a b)
    /\ fresh s <= a.
Proof.
  intros Hf Hlt Hb Hi Hr. unfold invokeFunction.
  rewrite bind_unfold, the_frame_unfold, Hf.
  rewrite bind_unfold, alloc_block_eq, bind_unfold, stack_push_eq.
  rewrite bind_unfold, scope_add_eq.
  rewrite bind_unfold. unfold get.
  set (sa := allocated KBlock true [] s).
  set (s1 := bound (fresh sa) "arguments" args (pushed (fresh s) sa)).
  assert (R1 : return_ s1 = false) by exact Hr.
  rewrite R1. rewrite bind_unfold, bind_unfold, get_block_unfold.
  assert (B1 : blocks s1 !! fblock f0 = Some b).
  { cbn. now rewrite lookup_insert_ne by lia. }
  rewrite B1. unfold ret at 1.
  rewrite bind_unfold, scope_add_eq.
  set (s2 := bound (fresh sa) "mixin" _ s1).
  rewrite bind_unfold. cbn [node_nodes bind_params]. unfold ret at 1.
  rewrite bind_unfold.
  change (visit env (S (S k)) (Block bscope []))
    with (visitBlock (visit env (S k)) (S k) bscope []).
  destruct (visitBlock_empty (visit env (S k)) k bscope s2)
    as (s3 & -> & S3 & R3 & F3 & B3).
  rewrite bind_unfold, stack_pop_eq. cbn [node_nodes].
  unfold invoke. rewrite bind_unfold, the_frame_unfold.
  assert (H3 : exists f, currentFrame (popped s3) = Some f
                         /\ fblock f = fblock f0).
  { unfold currentFrame, popped. cbn [stack set_stack]. rewrite S3.
    assert (T : fblock <$> head (tail (stack s2)) = Some (fblock f0)).
    { unfold s2. rewrite tail_head_bound. unfold s1.
      rewrite tail_head_bound.
      change (head (tail (stack (pushed (fresh s) sa))))
        with (head (stack s)).
      unfold currentFrame in Hf. now rewrite Hf. }
    destruct (head (tail (stack s2))) as [f|]; [|discriminate T].
    exists f. split; [reflexivity|]. now injection T. }
  destruct H3 as (f & -> & Ef).
  rewrite bind_unfold. unfold get.
  change (return_ (popped s3)) with (return_ s3). rewrite R3.
  change (return_ s2) with (return_ s). rewrite Hr.
  rewrite bind_unfold, get_block_unfold, Ef.
  change (blocks (popped s3)) with (blocks s3).
  assert (B3' : blocks s3 !! fblock f0 = Some b).
  { rewrite B3 by (cbn; lia). exact B1. }
  rewrite B3', Hi. cbn [mixin_undefined].
  rewrite bind_unfold. unfold new_id.
  rewrite bind_unfold. unfold update_block, modify, ret.
  eexists. exists (fresh s3). split; [reflexivity|].
  cbn [blocks set_blocks set_fresh popped set_stack fresh].
  rewrite lookup_alter_eq, B3'. cbn [mixin app]. split; [reflexivity|].
  cbn in F3. lia.
Qed.

Lemma resolve_under_empty_frame (env : Env) (s s1 : Evaluator) (id blk : nat)
      (name : string) :
  stack s1 = mkFrame id ∅ blk :: stack s ->
  resolve env s1 name = resolve env s name.
Proof.
  intros H. unfold resolve, lookup. rewrite H. cbn [stack_lookup fscope].
  now rewrite lookup_empty.
Qed.

Lemma visit_no_arguments (env : Env) (k : nat) (s : Evaluator) :
  visit env (S (S k)) no_arguments s = Ok no_arguments s.
Proof. reflexivity. Qed.



(** * The scopes of the enclosing frames *)

(** ** What a visit leaves of the frames *)

Lemma undisturbed_refl (s : Evaluator) : wf s -> undisturbed s s.
Proof. intros H. split; [now apply preserved_refl | reflexivity]. Qed.

Lemma undisturbed_trans (a b c : Evaluator) :
  undisturbed a b -> undisturbed b c -> undisturbed a c.
Proof.
  intros [P1 T1] [P2 T2]. split; [eapply preserved_trans; eauto|].
  now rewrite T2.
Qed.

Lemma ids_preserved (s s' : Evaluator) : ids s -> preserved s s' -> ids s'.
Proof.
  intros [Hn Hf] H. unfold ids. rewrite (pr_shape _ _ H). split; [exact Hn|].
  eapply Forall_impl; [exact Hf|]. intros p Hp. cbn beta in *.
  pose proof (pr_fresh _ _ H). lia.
Qed.

Lemma calm_ret {A : Type} (s0 : Evaluator) (a : A) : calm s0 (ret a).
Proof. intros s H. exact H. Qed.

Lemma calm_throw {A : Type} (s0 : Evaluator) (e : Exn) : calm s0 (@throw A e).
Proof. intros s H _. exact H. Qed.

Lemma calm_bind {A B : Type} (s0 : Evaluator) (m : M A) (k : A -> M B) :
  calm s0 m -> (forall a, calm s0 (k a)) -> calm s0 (bind m k).
Proof.
  intros Hm Hk s H. unfold bind. specialize (Hm s H).
  destruct (m s) as [a s'|e s'|]; auto. apply Hk, Hm.
Qed.

Lemma calm_lift {A : Type} (s0 : Evaluator) (r : Exn + A) : calm s0 (lift r).
Proof. destruct r; [apply calm_throw | apply calm_ret]. Qed.

(** A computation that keeps the stack as a whole. *)
Lemma calm_of_keeps {A : Type} (s0 : Evaluator) (m : M A) :
  keeps s0 m ->
  (forall s, match m s with
             | Ok _ s' | Throw _ s' => stack s' = stack s
             | OutOfFuel => True
             end) ->
  calm s0 m.
Proof.
  intros Hk Hs s [P T]. specialize (Hk s P). specialize (Hs s).
  destruct (m s) as [a s'|e s'|]; auto.
  - split; [exact Hk | now rewrite Hs].
  - intros He. split; [exact (Hk He) | now rewrite Hs].
Qed.

Lemma calm_get (s0 : Evaluator) : calm s0 get.
Proof. intros s H. exact H. Qed.

Lemma calm_modify (s0 : Evaluator) (f : Evaluator -> Evaluator) :
  (forall s, stack (f s) = stack s /\ blocks (f s) = blocks s
             /\ fresh (f s) = fresh s) ->
  calm s0 (modify f).
Proof.
  intros Hf. apply calm_of_keeps; [now apply keeps_modify|].
  intros s. apply Hf.
Qed.

Lemma calm_new_id (s0 : Evaluator) : calm s0 new_id.
Proof.
  apply calm_of_keeps; [|intros s; reflexivity].
  intros s H.
  exact (keeps_new_id s0 (fun _ => ret tt) (fun _ => keeps_ret s0 tt) s H).
Qed.

Lemma calm_get_block (s0 : Evaluator) (id : nat) : calm s0 (get_block id).
Proof.
  apply calm_of_keeps.
  - intros s H. unfold get_block. destruct (blocks s !! id); [exact H|].
    intros He. discriminate He.
  - intros s. unfold get_block. now destruct (blocks s !! id).
Qed.

Lemma calm_update_block (s0 : Evaluator) (id : nat)
      (f : BlockState -> BlockState) :
  (forall b, bscope_flag (f b) = bscope_flag b) ->
  calm s0 (update_block id f).
Proof.
  intros Hf. apply calm_of_keeps; [now apply keeps_update_block|].
  intros s. reflexivity.
Qed.

Lemma calm_set_scope (s0 : Evaluator) (id : nat) :
  id ∈ map snd (shape s0) ->
  calm s0 (update_block id (with_scope true)).
Proof.
  intros Hin. apply calm_of_keeps; [now apply keeps_set_scope|].
  intros s. reflexivity.
Qed.

Lemma calm_in_return_mode {A : Type} (s0 : Evaluator) (m : M A) :
  calm s0 m -> calm s0 (in_return_mode m).
Proof.
  intros Hm. unfold in_return_mode.
  apply calm_bind; [apply calm_get|]. intros s1.
  apply calm_bind; [apply calm_modify; intros; auto|]. intros _.
  apply calm_bind; [exact Hm|]. intros a.
  apply calm_bind; [apply calm_modify; intros; auto|]. intros _.
  apply calm_ret.
Qed.

Lemma calm_the_frame {A : Type} (s0 : Evaluator) (k : Frame -> M A) :
  (forall f, head (shape s0) = Some (fid f, fblock f) -> calm s0 (k f)) ->
  calm s0 (bind the_frame k).
Proof.
  intros Hk s H. unfold bind, the_frame, currentFrame.
  destruct (stack s) as [|f rest] eqn:E; cbn [head]; [discriminate|].
  apply Hk; [|exact H].
  rewrite <- (pr_shape _ _ (un_pres _ _ H)). unfold shape. now rewrite E.
Qed.

Lemma head_in_shape (s0 : Evaluator) (fr blk : nat) :
  head (shape s0) = Some (fr, blk) -> blk ∈ map snd (shape s0).
Proof.
  destruct (shape s0) as [|p l]; [discriminate|]. cbn. intros [= ->].
  cbn. apply list_elem_of_here.
Qed.

(** [scope.add] on the scope of the current frame. *)
Lemma calm_scope_add (s0 : Evaluator) (fr blk : nat) (name : string)
      (v : Node) :
  ids s0 -> head (shape s0) = Some (fr, blk) ->
  calm s0 (scope_add fr name v).
Proof.
  intros [Hn _] Hh s [P T]. pose proof (keeps_scope_add s0 fr name v s P) as K.
  unfold scope_add, modify in *. split; [exact K|].
  cbn [stack set_stack]. rewrite <- T.
  pose proof (pr_shape _ _ P) as Hs. unfold shape in Hs, Hn, Hh.
  rewrite <- Hs in Hn, Hh.
  destruct (stack s) as [|f rest]; [reflexivity|].
  cbn [map tail head] in *. injection Hh as Hfid _.
  apply NoDup_cons in Hn as [Hnot _]. cbn [fst] in Hnot.
  clear -Hnot Hfid. subst fr.
  induction rest as [|g rest IH]; [reflexivity|].
  cbn [map] in *. apply not_elem_of_cons in Hnot as [Hne Hrest].
  rewrite IH by exact Hrest.
  destruct (Nat.eqb (fid g) (fid f)) eqn:E; [|reflexivity].
  apply Nat.eqb_eq in E. cbn in Hne. congruence.
Qed.

Lemma calm_visit (v : Node -> M Node) (s0 : Evaluator) (n : Node) :
  ids s0 -> lexical v -> calm s0 (v n).
Proof.
  intros Hi Hv s H.
  specialize (Hv n s (pr_wf _ _ (un_pres _ _ H))
                 (ids_preserved _ _ Hi (un_pres _ _ H))).
  destruct (v n s) as [a s'|e s'|]; auto.
  - eapply undisturbed_trans; eauto.
  - intros He. eapply undisturbed_trans; eauto.
Qed.

Lemma ids_allocated (k : BlockKind) (scope : bool) (nodes : list Node)
      (s : Evaluator) :
  ids s -> ids (allocated k scope nodes s).
Proof.
  intros [Hn Hf]. split; [exact Hn|].
  eapply Forall_impl; [exact Hf|]. intros p Hp. cbn in *. lia.
Qed.

Lemma ids_pushed (blk : nat) (s : Evaluator) : ids s -> ids (pushed blk s).
Proof.
  intros [Hn Hf]. split.
  - change (NoDup (fresh s :: map fst (shape s))). apply NoDup_cons.
    split; [|exact Hn]. intros Hin.
    apply list_elem_of_fmap in Hin as (p & Hp & Hin).
    rewrite Forall_forall in Hf. specialize (Hf p Hin). lia.
  - change (Forall (fun p => fst p < S (fresh s))
                   ((fresh s, blk) :: shape s)).
    constructor; [cbn; lia|].
    eapply Forall_impl; [exact Hf|]. intros p Hp. cbn beta in *. lia.
Qed.

(** The statement loop. *)
Lemma statements_calm (v : Node -> M Node) (s0 : Evaluator) (id : nat)
      (is_root : bool) :
  ids s0 -> lexical v ->
  forall k i s, undisturbed s0 s ->
    match statements v k id is_root i s with
    | Ok _ s' => undisturbed s0 s'
    | Throw e s' => is_return e = true -> undisturbed s0 s'
    | OutOfFuel => True
    end.
Proof.
  intros Hi Hv. induction k as [|k IH]; intros i s H; [exact I|].
  cbn [statements]. rewrite bind_unfold. unfold get_block at 1.
  destruct (blocks s !! id) as [b|] eqn:Eb; [|discriminate].
  destruct (bnodes b !! i) as [n|]; [|exact H].
  rewrite bind_unfold.
  pose proof (calm_update_block s0 id (with_index i) (fun _ => eq_refl) s H)
    as H1.
  unfold update_block at 1, modify at 1 in H1.
  unfold update_block at 1, modify at 1.
  set (s1 := set_blocks (alter (with_index i) id (blocks s)) s) in *.
  rewrite bind_unfold.
  assert (H2 : exists s2,
             (if is_root then modify (set_rootIndex (Some i)) else ret tt) s1
             = Ok tt s2 /\ undisturbed s0 s2).
  { destruct is_root.
    - eexists; split; [reflexivity|].
      apply (calm_modify s0 (set_rootIndex (Some i))); auto.
    - eexists; split; [reflexivity|]. exact H1. }
  destruct H2 as (s2 & -> & H2).
  pose proof (calm_visit v s0 n Hi Hv s2 H2) as H3.
  destruct (v n s2) as [r s3|e s3|]; [| |exact I].
  - rewrite bind_unfold. unfold get_block at 1.
    destruct (blocks s3 !! id) as [b'|]; [|discriminate].
    rewrite bind_unfold.
    destruct (Nat.eqb (barr b') (barr b)).
    + pose proof (calm_update_block s0 id
                    (with_nodes (js_set i r (bnodes b')))
                    (fun _ => eq_refl) s3 H3) as H4.
      unfold update_block, modify in H4 |- *. apply IH, H4.
    + apply IH, H3.
  - destruct e; try (intros He; discriminate He).
    destruct is_root.
    + intros _. apply H3. reflexivity.
    + rewrite bind_unfold. unfold get_block at 1.
      destruct (blocks s3 !! id) as [b'|]; [|discriminate].
      pose proof (calm_update_block s0 id
                    (with_nodes (js_set i (Return expr) (bnodes b')))
                    (fun _ => eq_refl) s3 (H3 eq_refl)) as H4.
      unfold update_block, modify in H4 |- *. exact H4.
Qed.

(** evaluator.js, 440-457: what the visit of a block leaves of the stack.
    With a scope of its own the block leaves every frame as it was; with
    none it leaves the frames below the current one as they were. *)
Lemma visitBlock_stack (v : Node -> M Node) (fuel : nat) (scope : bool)
      (nodes : list Node) (s : Evaluator) (r : Node) (s' : Evaluator) :
  lexical v -> wf s -> ids s ->
  visitBlock v fuel scope nodes s = Ok r s' ->
  if scope then stack s' = stack s else tail (stack s') = tail (stack s).
Proof.
  intros Hv Hwf Hi H. unfold visitBlock in H.
  rewrite bind_unfold, alloc_block_eq in H.
  set (sa := allocated KBlock scope nodes s) in *.
  pose proof (preserved_allocated KBlock scope nodes s Hwf) as Ha.
  assert (Hflag : scope_flag sa (fresh s) = Some scope).
  { unfold sa. rewrite scope_flag_allocated.
    destruct (decide (fresh s = fresh s)); [reflexivity | contradiction]. }
  destruct scope.
  - rewrite bind_unfold, bind_unfold, stack_push_eq in H.
    unfold ret at 1 in H.
    set (sp := pushed (fresh s) sa) in *.
    assert (Hwp : wf sp).
    { apply wf_pushed; [apply Ha | cbn; lia]. }
    assert (Hip : ids sp) by (apply ids_pushed, ids_allocated, Hi).
    rewrite bind_unfold in H.
    pose proof (statements_calm v sp (fresh s) false Hip Hv fuel 0 sp
                  (undisturbed_refl sp Hwp)) as Hl.
    destruct (statements v fuel (fresh s) false 0 sp) as [[] sl|e sl|];
      try discriminate H.
    rewrite bind_unfold in H. unfold get_block in H.
    assert (Hf : scope_flag sl (fresh s) = Some true)
      by (apply (pr_set _ _ (un_pres _ _ Hl)); exact Hflag).
    unfold scope_flag in Hf.
    destruct (blocks sl !! fresh s) as [b|]; [|discriminate Hf].
    cbn in Hf. injection Hf as Hf. rewrite Hf in H.
    rewrite bind_unfold, stack_pop_eq in H. unfold ret in H.
    injection H as _ <-. cbn [popped stack set_stack].
    now rewrite (un_below _ _ Hl).
  - rewrite bind_unfold in H. unfold ret at 1 in H. rewrite bind_unfold in H.
    pose proof (statements_calm v sa (fresh s) false
                  (ids_allocated _ _ _ _ Hi) Hv fuel 0 sa
                  (undisturbed_refl sa (pr_wf _ _ Ha))) as Hl.
    destruct (statements v fuel (fresh s) false 0 sa) as [[] sl|e sl|];
      try discriminate H.
    rewrite bind_unfold in H. unfold get_block in H.
    assert (Hf : scope_flag sl (fresh s) = Some false).
    { rewrite (pr_flag _ _ (un_pres _ _ Hl)); [exact Hflag | cbn; lia |].
      intros Hin. change (shape sa) with (shape s) in Hin.
      pose proof (referenced_below_fresh s (fresh s) Hwf Hin). lia. }
    unfold scope_flag in Hf.
    destruct (blocks sl !! fresh s) as [b|]; [|discriminate Hf].
    cbn in Hf. injection Hf as Hf. rewrite Hf in H.
    rewrite bind_unfold in H. unfold ret in H. injection H as _ <-.
    now rewrite (un_below _ _ Hl).
Qed.

Lemma tail_eq_of_stack_eq (s s' : Evaluator) :
  stack s' = stack s -> tail (stack s') = tail (stack s).
Proof. now intros ->. Qed.

Lemma visitBlock_calm (v : Node -> M Node) (fuel : nat) (scope : bool)
      (nodes : list Node) (s : Evaluator) :
  good v -> lexical v -> wf s -> ids s ->
  match visitBlock v fuel scope nodes s with
  | Ok r s' => undisturbed s s'
  | Throw e _ => is_return e = false
  | OutOfFuel => True
  end.
Proof.
  intros Hg Hv Hwf Hi.
  pose proof (visitBlock_keeps v fuel scope nodes s Hg Hwf) as K.
  pose proof (visitBlock_stack v fuel scope nodes s) as S.
  destruct (visitBlock v fuel scope nodes s) as [r s'|e s'|]; auto.
  destruct K as [K _]. split; [exact K|].
  specialize (S r s' Hv Hwf Hi eq_refl).
  destruct scope; [now apply tail_eq_of_stack_eq | exact S].
Qed.

Ltac calm_step :=
  lazymatch goal with
  | |- calm _ (ret _) => apply calm_ret
  | |- calm _ (throw _) => apply calm_throw
  | |- calm _ (lift _) => apply calm_lift
  | |- calm _ get => apply calm_get
  | |- calm _ new_id => apply calm_new_id
  | |- calm _ (get_block _) => apply calm_get_block
  | |- calm _ (scope_add _ _ _) => eapply calm_scope_add; eassumption
  | |- calm _ (bind the_frame _) => apply calm_the_frame; intros ? ?
  | |- calm _ (in_return_mode _) => apply calm_in_return_mode
  | |- calm _ (modify _) => apply calm_modify; intros; auto
  | |- calm _ (update_block _ _) =>
      apply calm_update_block; intros; reflexivity
  | |- calm _ (bind _ _) => apply calm_bind; [|intros ?]
  | |- calm _ (?v _) => apply calm_visit; assumption
  end.

Ltac calm_auto := repeat calm_step.

Lemma calm_invoke (s0 : Evaluator) (body : list Node) :
  calm s0 (invoke body).
Proof.
  unfold invoke. calm_auto. destruct (return_ _).
  - destruct (eval body); calm_auto.
  - calm_auto. destruct (mixin_undefined body); calm_auto.
Qed.

Lemma calm_bind_params (env : Env) (s0 : Evaluator) (fr blk : nat)
      (fname : string) (args : option (list Node)) (params : list Node) :
  ids s0 -> head (shape s0) = Some (fr, blk) ->
  forall i, calm s0 (bind_params env fr fname args params i).
Proof.
  intros Hi Hh.
  induction params as [|p params IH]; intros i; cbn [bind_params].
  - calm_auto.
  - destruct p; try calm_step.
    destruct args as [anodes|]; [|calm_step].
    destruct rest; [calm_auto; apply IH|].
    destruct (is_null _); calm_auto. apply IH.
Qed.

Lemma within_bind {A B : Type} (sp : Evaluator) (Q : Evaluator -> Prop)
      (m : M A) (k : A -> M B) :
  calm sp m -> quiet m -> (forall a, within sp Q (k a)) ->
  within sp Q (bind m k).
Proof.
  intros Hk Hq Hi s H. unfold bind. specialize (Hk s H). specialize (Hq s).
  destruct (m s) as [a s'|e s'|]; auto. apply Hi, Hk.
Qed.

Lemma within_visit_block {B : Type} (v : Node -> M Node) (sp : Evaluator)
      (Q : Evaluator -> Prop) (bscope : bool) (body : list Node)
      (k : Node -> M B) :
  good v -> lexical v -> ids sp -> (forall b, within sp Q (k b)) ->
  within sp Q (bind (v (Block bscope body)) k).
Proof.
  intros Hg Hv Hi Hk s H. unfold bind.
  pose proof (Hg (Block bscope body) s (pr_wf _ _ (un_pres _ _ H))) as Hb.
  pose proof (calm_visit v sp (Block bscope body) Hi Hv s H) as Hc.
  destruct (v (Block bscope body) s) as [b s'|e s'|]; auto.
  - apply Hk, Hc.
  - destruct (is_return e) eqn:He; [|reflexivity].
    destruct (Hb eq_refl) as [_ Hn]. now contradiction Hn.
Qed.

(** evaluator.js, 561-616: when invokeFunction returns, every frame is as
    it was. *)
Lemma invokeFunction_stack (env : Env) (v : Node -> M Node)
      (fname : string) (params : list Node) (bscope : bool)
      (body : list Node) (args : Node) (s : Evaluator) :
  good v -> lexical v -> wf s -> ids s ->
  match invokeFunction env v fname params bscope body args s with
  | Ok _ s' => preserved s s' /\ stack s' = stack s
  | Throw e _ => is_return e = false
  | OutOfFuel => True
  end.
Proof.
  intros Hg Hv Hwf Hi. unfold invokeFunction.
  rewrite bind_unfold. unfold the_frame.
  destruct (currentFrame s) as [f0|]; [|reflexivity].
  rewrite bind_unfold, alloc_block_eq, bind_unfold, stack_push_eq.
  set (sa := allocated KBlock true [] s).
  set (sp := pushed (fresh s) sa).
  assert (Hwp : wf sp).
  { apply wf_pushed; [apply (preserved_allocated KBlock true [] s Hwf)|].
    cbn. lia. }
  assert (Hip : ids sp) by (apply ids_pushed, ids_allocated, Hi).
  assert (Hh : head (shape sp) = Some (fresh sa, fresh s)) by reflexivity.
  match goal with
  | |- match ?m sp with _ => _ end =>
      assert (Hin : within sp (fun s' => preserved s s' /\ stack s' = stack s)
                           m)
  end.
  { apply within_bind; [calm_auto | apply quiet_scope_add|].
    intros _.
    apply within_bind; [calm_auto | apply quiet_get|].
    intros s1.
    apply within_bind.
    { destruct (return_ s1); calm_auto. }
    { destruct (return_ s1); [apply quiet_ret|].
      apply quiet_bind; [apply quiet_get_block|]. intros; apply quiet_ret. }
    intros mixin_val.
    apply within_bind; [calm_auto | apply quiet_scope_add|].
    intros _.
    apply within_bind; [eapply calm_bind_params; eassumption
                       | apply quiet_bind_params|].
    intros _.
    apply within_visit_block; [exact Hg | exact Hv | exact Hip|]. intros b.
    intros sl Hl. rewrite bind_unfold, stack_pop_eq.
    assert (Hp : preserved s (popped sl)).
    { exact (preserved_popped KBlock true [] s sl Hwf (un_pres _ _ Hl)). }
    assert (Hs : stack (popped sl) = stack s).
    { cbn [popped stack set_stack]. now rewrite (un_below _ _ Hl). }
    destruct (node_nodes b) as [ns|]; [|reflexivity].
    pose proof (calm_invoke s ns (popped sl)
                  (mkUndisturbed _ _ Hp (tail_eq_of_stack_eq _ _ Hs))) as Hk.
    pose proof (quiet_invoke ns (popped sl)) as Hq.
    assert (St : match invoke ns (popped sl) with
                 | Ok _ s' | Throw _ s' => stack s' = stack (popped sl)
                 | OutOfFuel => True
                 end).
    { unfold invoke. rewrite bind_unfold. unfold the_frame.
      destruct (currentFrame (popped sl)); [|reflexivity].
      rewrite bind_unfold. unfold get.
      destruct (return_ (popped sl)); [now destruct (eval ns)|].
      rewrite bind_unfold. unfold get_block.
      destruct (blocks (popped sl) !! fblock f); [|reflexivity].
      now destruct (mixin_undefined ns). }
    destruct (invoke ns (popped sl)); auto.
    split; [apply Hk | now rewrite St]. }
  specialize (Hin sp (undisturbed_refl sp Hwp)).
  match goal with
  | |- match ?m sp with _ => _ end => destruct (m sp) as [r s'|e s'|]
  end; auto.
Qed.

Lemma calm_invokeFunction (env : Env) (v : Node -> M Node) (s0 : Evaluator)
      (fname : string) (params : list Node) (bscope : bool)
      (body : list Node) (args : Node) :
  good v -> lexical v -> ids s0 ->
  calm s0 (invokeFunction env v fname params bscope body args).
Proof.
  intros Hg Hv Hi s H.
  pose proof (invokeFunction_stack env v fname params bscope body args s
                Hg Hv (pr_wf _ _ (un_pres _ _ H))
                (ids_preserved _ _ Hi (un_pres _ _ H))) as K.
  destruct (invokeFunction env v fname params bscope body args s)
    as [r s'|e s'|]; auto.
  - destruct K as [P S]. eapply undisturbed_trans; [exact H|].
    split; [exact P | now apply tail_eq_of_stack_eq].
  - intros He. rewrite K in He. discriminate He.
Qed.

Section CalmVisitors.
Variable env : Env.
Variable v : Node -> M Node.
Variable fuel : nat.
Variable s0 : Evaluator.
Hypothesis Hg : good v.
Hypothesis Hv : lexical v.
Hypothesis Hi : ids s0.

Lemma calm_visitGroup (selectors : list string) (block : Node) :
  calm s0 (visitGroup v selectors block).
Proof. unfold visitGroup. calm_auto. Qed.

Lemma calm_visitReturn (expr : Node) : calm s0 (visitReturn v expr).
Proof. unfold visitReturn. calm_auto. Qed.

Lemma calm_visitMedia (val : string) (block : Node) :
  calm s0 (visitMedia v val block).
Proof. unfold visitMedia. calm_auto. Qed.

Lemma calm_visitKeyframes (name : Node) (frames : list (Node * Node)) :
  calm s0 (visitKeyframes env v name frames).
Proof.
  unfold visitKeyframes. calm_auto. destruct (first env _); calm_auto.
Qed.

Lemma calm_literalCall (name : string) (args : Node) :
  calm s0 (literalCall v name args).
Proof. unfold literalCall. calm_auto. Qed.

Lemma calm_invokeBuiltin (fn : Native) (args : Node) :
  calm s0 (invokeBuiltin env fn args).
Proof.
  unfold invokeBuiltin. calm_auto.
  - destruct (native_raw env fn); [calm_auto|].
    destruct (node_nodes args); calm_auto.
  - apply calm_invoke.
Qed.

Lemma calm_visitCall (name : string) (args : Node) :
  calm s0 (visitCall env v name args).
Proof.
  unfold visitCall. calm_auto.
  destruct (js_opt _) as [f|]; [|apply calm_literalCall].
  destruct f; try apply calm_literalCall.
  calm_auto. destruct (Nat.ltb _ _); calm_auto.
  destruct fn; [apply calm_invokeBuiltin|].
  now apply calm_invokeFunction.
Qed.

Lemma calm_isDefined (node : Node) : calm s0 (isDefined env node).
Proof. unfold isDefined. destruct node; calm_auto. Qed.

Lemma calm_visitIdent (name : string) (val : Node) (rest : bool) :
  calm s0 (visitIdent env v name val rest).
Proof.
  unfold visitIdent. destruct (is_null val); calm_auto.
  destruct (js_opt _); calm_auto.
Qed.

Lemma calm_visitBinOp (op : string) (l r : Node) :
  calm s0 (visitBinOp env v op l r).
Proof.
  unfold visitBinOp.
  destruct (String.eqb op "is defined"); [apply calm_isDefined|].
  calm_auto. destruct a as [l' r'].
  destruct (_ || _) at 1.
  - destruct (_ || _); calm_auto.
    destruct (String.eqb op "-"); [|destruct (coerce env _ _); calm_auto;
      destruct (_ || _); calm_auto].
    destruct l'; try (destruct (coerce env _ _); calm_auto;
                      destruct (_ || _); calm_auto).
    destruct r'; try (destruct (coerce env _ _); calm_auto;
                      destruct (_ || _); calm_auto).
    calm_auto.
  - destruct (_ || _); calm_auto.
    destruct (String.eqb op "-"); [|destruct (coerce env _ _); calm_auto;
      destruct (_ || _); calm_auto].
    destruct (first env l'); try (destruct (coerce env _ _); calm_auto;
                      destruct (_ || _); calm_auto).
    destruct (first env r'); try (destruct (coerce env _ _); calm_auto;
                      destruct (_ || _); calm_auto).
    calm_auto.
Qed.

Lemma calm_visitUnaryOp (op : string) (expr : Node) :
  calm s0 (visitUnaryOp env v op expr).
Proof.
  unfold visitUnaryOp. calm_auto.
  destruct (String.eqb op "!").
  - destruct (toBoolean env _); calm_auto.
  - destruct (first env _); calm_auto.
    repeat (match goal with |- calm _ (if ?c then _ else _) => destruct c end;
            calm_auto).
Qed.

Lemma calm_visitTernary (cond t f : Node) :
  calm s0 (visitTernary env v cond t f).
Proof. unfold visitTernary. calm_auto. destruct (is_true _); calm_auto. Qed.

Lemma calm_visit_nodes (nodes : list Node) : calm s0 (visit_nodes v nodes).
Proof.
  induction nodes as [|n nodes IH]; cbn [visit_nodes]; calm_auto.
  exact IH.
Qed.

Lemma calm_visitExpression (isList : bool) (nodes : list Node) :
  calm s0 (visitExpression v isList nodes).
Proof.
  unfold visitExpression. calm_auto. apply calm_visit_nodes.
Qed.

Lemma calm_toString (k : nat) : forall node, calm s0 (toString env v k node).
Proof.
  induction k as [|k IH]; intros node; destruct node; cbn [toString];
    calm_auto.
  - intros s _. exact I.
  - apply IH.
Qed.

Lemma calm_interpolate (segments : list Node) :
  calm s0 (interpolate env v fuel segments).
Proof.
  induction segments as [|seg rest IH]; cbn [interpolate]; calm_auto.
  - apply calm_toString.
  - exact IH.
Qed.

Lemma calm_visitProperty (segments : list Node) (expr : Node)
      (pname : option string) (literal : bool) :
  calm s0 (visitProperty env v fuel segments expr pname literal).
Proof.
  unfold visitProperty. calm_auto; [apply calm_interpolate|].
  destruct a as [name segs]. calm_auto.
  destruct (_ && _); calm_auto.
Qed.

Lemma calm_visitRoot : calm s0 (visitRoot v fuel).
Proof.
  unfold visitRoot. calm_auto. intros s H.
  exact (statements_calm v s0 root_id true Hi Hv fuel 0 s H).
Qed.

Lemma calm_visit_elses (elses : list Node) :
  forall r, calm s0 (visit_elses env v elses r).
Proof.
  induction elses as [|e elses IH]; intros r; cbn [visit_elses].
  - calm_auto.
  - destruct e; calm_auto; try apply IH.
    destruct (is_true _); calm_auto. apply IH.
Qed.

Lemma calm_visitIf (cond block : Node) (elses : list Node) (negate : bool) :
  calm s0 (visitIf env v cond block elses negate).
Proof.
  unfold visitIf. calm_auto.
  - destruct negate.
    + destruct (is_false _); calm_auto.
    + destruct (is_true _); calm_auto. apply calm_visit_elses.
  - destruct (group _) as [g|]; destruct (js_opt _) as [n|]; calm_auto.
    destruct n; calm_auto. destruct (negb _); calm_auto.
Qed.

Lemma calm_each_loop (fr : Frame) (val key : string) (body : Node)
      (items : list Node) :
  head (shape s0) = Some (fid fr, fblock fr) ->
  forall i, calm s0 (each_loop v fr val key body items i).
Proof.
  intros Hh.
  induction items as [|item items IH]; intros i; cbn [each_loop];
    calm_auto.
  destruct (node_nodes _); calm_auto. apply IH.
Qed.

Lemma calm_visitEach (val : string) (key : option string)
      (expr block : Node) :
  calm s0 (visitEach env v val key expr block).
Proof.
  unfold visitEach. calm_auto.
  destruct (node_nodes _); calm_auto.
  - now apply calm_each_loop.
  - apply calm_set_scope. eapply head_in_shape. eassumption.
Qed.

Lemma calm_visitImport (path : string) : calm s0 (visitImport env path).
Proof.
  unfold visitImport. destruct (ends_with_css path); calm_auto.
  destruct (lookup_file env _ _); calm_auto.
Qed.

End CalmVisitors.

Lemma calm_visitBlock (v : Node -> M Node) (fuel : nat) (s0 : Evaluator)
      (scope : bool) (nodes : list Node) :
  good v -> lexical v -> ids s0 -> calm s0 (visitBlock v fuel scope nodes).
Proof.
  intros Hg Hv Hi s H.
  pose proof (visitBlock_calm v fuel scope nodes s Hg Hv
                (pr_wf _ _ (un_pres _ _ H))
                (ids_preserved _ _ Hi (un_pres _ _ H))) as K.
  destruct (visitBlock v fuel scope nodes s) as [r s'|e s'|]; auto.
  - eapply undisturbed_trans; eauto.
  - intros He. rewrite K in He. discriminate He.
Qed.

Lemma calm_lexical {A : Type} (m : M A) (s : Evaluator) :
  wf s -> calm s m ->
  match m s with
  | Ok _ s' => undisturbed s s'
  | Throw e s' => is_return e = true -> undisturbed s s'
  | OutOfFuel => True
  end.
Proof. intros Hwf Hk. apply Hk, undisturbed_refl, Hwf. Qed.

Lemma visit_node_lexical (env : Env) (v : Node -> M Node) (fuel : nat) :
  good v -> lexical v -> lexical (visit_node env v fuel).
Proof.
  intros Hg Hv n s Hwf Hi.
  destruct n; cbn [visit_node]; try (apply calm_lexical; [exact Hwf|]).
  all: try (apply calm_ret).
  - apply calm_throw.
  - now apply calm_visitIdent.
  - now apply calm_visitExpression.
  - now apply calm_visitBinOp.
  - now apply calm_visitUnaryOp.
  - now apply calm_visitTernary.
  - now apply calm_visitCall.
  - now apply calm_visitReturn.
  - now apply calm_visitProperty.
  - now apply calm_visitBlock.
  - now apply calm_visitRoot.
  - now apply calm_visitGroup.
  - now apply calm_visitIf.
  - now apply calm_visitEach.
  - now apply calm_visitImport.
  - now apply calm_visitMedia.
  - now apply calm_visitKeyframes.
Qed.

Lemma visit_lexical (env : Env) (fuel : nat) : lexical (visit env fuel).
Proof.
  induction fuel as [|fuel IH].
  - intros n s _ _. exact I.
  - exact (visit_node_lexical env (visit env fuel) fuel
             (visit_good env fuel) IH).
Qed.

Lemma ids_new_evaluator (env : Env) (root : list Node) (search : list string) :
  ids (new_evaluator env root search).
Proof.
  assert (H : forall cs f,
             (fid (fold_left
                     (fun f c => frame_add (fst c)
                        (Color (snd c).1.1 (snd c).1.2 (snd c).2 1) f)
                     cs f),
              fblock (fold_left
                        (fun f c => frame_add (fst c)
                           (Color (snd c).1.1 (snd c).1.2 (snd c).2 1) f)
                        cs f)) = (fid f, fblock f)).
  { induction cs as [|c cs IH]; intros f; cbn [fold_left]; [reflexivity|].
    now rewrite IH. }
  unfold ids, shape. cbn [new_evaluator stack fresh map].
  unfold populateGlobalScope. rewrite H. cbn [fid fblock fst].
  split.
  - apply NoDup_singleton.
  - constructor; [|constructor]. cbn. lia.
Qed.

Lemma wf_y_bound : wf y_bound.
Proof.
  split.
  - constructor; [|constructor]. cbn. unfold root_id. lia.
  - intros id Hid. unfold y_bound in *.
    cbn [set_stack new_evaluator blocks fresh] in *.
    apply lookup_singleton_ne. unfold root_id. lia.
Qed.

Lemma ids_y_bound : ids y_bound.
Proof.
  split; [apply NoDup_singleton|]. constructor; [|constructor]. cbn. lia.
Qed.

(** X17.  No visit binds a name in a frame below the current one: when
    the visit of a node returns, or throws a Return, the frames under the
    innermost frame are the frames that were there and bind the names
    that they bound.  What a visit binds, it binds in the current frame
    or in a frame it pushed and popped again. *)
Theorem visit_leaves_outer_frames (env : Env) (fuel : nat) (n : Node)
        (s : Evaluator) :
  wf s -> ids s ->
  match visit env fuel n s with
  | Ok _ s' =>
      map frame_names (tail (stack s')) = map frame_names (tail (stack s))
  | Throw e s' =>
      is_return e = true ->
      map frame_names (tail (stack s')) = map frame_names (tail (stack s))
  | OutOfFuel => True
  end.
Proof.
  intros Hwf Hi. pose proof (visit_lexical env fuel n s Hwf Hi) as H.
  destruct (visit env fuel n s) as [r s'|e s'|]; [| |exact I].
  - now rewrite (un_below _ _ H).
  - intros He. now rewrite (un_below _ _ (H He)).
Qed.

Lemma visit_leaves_outer_frames_witness :
  match visit Std.env 3 (Ident "x" (Expression false [Unit 1 ""]) false)
              (pushed root_id (new_evaluator Std.env [] [])) with
  | Ok _ s' =>
      map frame_names (tail (stack s'))
      = map frame_names (stack (new_evaluator Std.env [] []))
  | _ => False
  end.
Proof.
  pose proof (visit_leaves_outer_frames Std.env 3
                (Ident "x" (Expression false [Unit 1 ""]) false)
                (pushed root_id (new_evaluator Std.env [] []))
                (wf_pushed root_id _ (wf_new_evaluator Std.env [] [])
                           ltac:(unfold root_id; cbn; lia))
                (ids_pushed root_id _ (ids_new_evaluator Std.env [] [])))
    as H.
  destruct (visit Std.env 3 (Ident "x" (Expression false [Unit 1 ""]) false)
              (pushed root_id (new_evaluator Std.env [] [])))
    as [r s'|e s'|] eqn:E.
  - exact H.
  - vm_compute in E. discriminate E.
  - vm_compute in E. discriminate E.
Defined.

(** X18.  The names that the statements of a block with a scope of its
    own bind are gone when the visit of the block returns: the stack
    holds the frames it held before, each binding the names it bound
    before, so that a name is defined afterwards exactly when it was
    defined before. *)
Theorem scoped_block_restores_stack (env : Env) (fuel : nat)
        (nodes : list Node) (s : Evaluator) (r : Node) (s' : Evaluator) :
  wf s -> ids s ->
  visit env (S fuel) (Block true nodes) s = Ok r s' ->
  map frame_names (stack s') = map frame_names (stack s)
  /\ forall name, is_Some (stack_lookup (stack s') name)
                  <-> is_Some (stack_lookup (stack s) name).
Proof.
  intros Hwf Hi H. cbn [visit visit_node] in H.
  pose proof (visitBlock_stack (visit env fuel) fuel true nodes s r s'
                (visit_lexical env fuel) Hwf Hi H) as E.
  cbv iota in E. split; [now rewrite E|]. intros name. now rewrite E.
Qed.

Lemma scoped_block_restores_stack_witness :
  match visit Std.env 4
          (Block true [Ident "y" (Expression false [Unit 7 ""]) false])
          y_bound with
  | Ok _ s' =>
      map frame_names (stack s') = map frame_names (stack y_bound)
      /\ is_Some (stack_lookup (stack s') "y")
  | _ => False
  end.
Proof.
  pose proof wf_y_bound as Hwf. pose proof ids_y_bound as Hi.
  destruct (visit Std.env 4
              (Block true [Ident "y" (Expression false [Unit 7 ""]) false])
              y_bound) as [r s'|e s'|] eqn:E.
  - destruct (scoped_block_restores_stack Std.env 3
                [Ident "y" (Expression false [Unit 7 ""]) false]
                y_bound r s' Hwf Hi E) as [Hs Hl].
    split; [exact Hs|]. apply Hl. eexists. reflexivity.
  - vm_compute in E. discriminate E.
  - vm_compute in E. discriminate E.
Defined.

(** X19.  The invocation of a function binds no name for its caller:
    when invokeFunction returns, the frame it pushed for the parameters
    and the locals is gone and the stack holds the frames of the caller,
    each binding the names it bound before.  It throws no Return. *)
Theorem invokeFunction_restores_stack (env : Env) (fuel : nat)
        (fname : string) (params : list Node) (bscope : bool)
        (body : list Node) (args : Node) (s : Evaluator) :
  wf s -> ids s ->
  match invokeFunction env (visit env fuel) fname params bscope body args s
  with
  | Ok _ s' => map frame_names (stack s') = map frame_names (stack s)
  | Throw e _ => is_return e = false
  | OutOfFuel => True
  end.
Proof.
  intros Hwf Hi.
  pose proof (invokeFunction_stack env (visit env fuel) fname params bscope
                body args s (visit_good env fuel) (visit_lexical env fuel)
                Hwf Hi) as H.
  destruct (invokeFunction env (visit env fuel) fname params bscope body
              args s) as [r s'|e s'|]; [|exact H|exact I].
  now rewrite (proj2 H).
Qed.

Lemma invokeFunction_restores_stack_witness :
  match invokeFunction Std.env (visit Std.env 6) "f"
          [Ident "a" Null false] true
          [Ident "y" (Expression false [Ident "a" Null false]) false]
          (Expression false [Expression false [Unit 1 ""]])
          (set_return true y_bound) with
  | Ok _ s' => map frame_names (stack s') = map frame_names (stack y_bound)
  | _ => False
  end.
Proof.
  assert (Hwf : wf (set_return true y_bound)) by exact wf_y_bound.
  assert (Hi : ids (set_return true y_bound)) by exact ids_y_bound.
  pose proof (invokeFunction_restores_stack Std.env 6 "f"
                [Ident "a" Null false] true
                [Ident "y" (Expression false [Ident "a" Null false]) false]
                (Expression false [Expression false [Unit 1 ""]])
                (set_return true y_bound) Hwf Hi) as H.
  destruct (invokeFunction Std.env (visit Std.env 6) "f"
              [Ident "a" Null false] true
              [Ident "y" (Expression false [Ident "a" Null false]) false]
              (Expression false [Expression false [Unit 1 ""]])
              (set_return true y_bound)) as [r s'|e s'|] eqn:E.
  - exact H.
  - vm_compute in E. discriminate E.
  - vm_compute in E. discriminate E.
Defined.

(** * Further properties of the parser *)

(** ** What an expression leaves of the parser's state *)

Lemma kept_refl (p : Parser.State) : kept p p.
Proof. split; [|split]; reflexivity. Qed.

Lemma kept_trans (a b c : Parser.State) : kept a b -> kept b c -> kept a c.
Proof.
  intros (I1 & A1 & T1) (I2 & A2 & T2). split; [|split]; try congruence.
  etransitivity; eauto.
Qed.

Lemma holds_pret {A : Type} (stk : list string) (a : A) :
  holds stk stk (Parser.pret a).
Proof. intros p H. split; [exact H | apply kept_refl]. Qed.

Lemma holds_pfail {A : Type} (pre post : list string) (msg : string) :
  holds pre post (@Parser.pfail A msg).
Proof. intros p H. exact I. Qed.

Lemma holds_bind {A B : Type} (a b c : list string) (m : Parser.P A)
      (k : A -> Parser.P B) :
  holds a b m -> (forall x, holds b c (k x)) -> holds a c (Parser.pbind m k).
Proof.
  intros Hm Hk p H. unfold Parser.pbind. specialize (Hm p H).
  destruct (m p) as [x p'| | |]; auto.
  destruct Hm as [Hs Hkept]. specialize (Hk x p' Hs).
  destruct (k x p') as [y p''| | |]; auto.
  destruct Hk as [Hs' Hkept']. split; [exact Hs'|].
  eapply kept_trans; eauto.
Qed.

Lemma holds_pget {A : Type} (pre post : list string)
      (k : Parser.State -> Parser.P A) :
  (forall p, holds pre post (k p)) -> holds pre post (Parser.pbind Parser.pget k).
Proof. intros Hk p H. unfold Parser.pbind, Parser.pget. now apply Hk. Qed.

(** A change of the flags of the expression level. *)
Lemma holds_pmodify (stk : list string) (f : Parser.State -> Parser.State) :
  (forall p, Parser.state (f p) = Parser.state p
             /\ Parser.inProperty (f p) = Parser.inProperty p
             /\ Parser.allowPostfix (f p) = Parser.allowPostfix p
             /\ Parser.tokens (f p) = Parser.tokens p) ->
  holds stk stk (Parser.pmodify f).
Proof.
  intros Hf p H. unfold Parser.pmodify. destruct (Hf p) as (S & I1 & A1 & T).
  split; [congruence|]. split; [|split]; auto. now rewrite T.
Qed.

Lemma holds_push (stk : list string) (st : string) :
  holds stk (st :: stk) (Parser.push_state st).
Proof.
  intros p H. unfold Parser.push_state, Parser.pmodify. cbn.
  split; [now rewrite H | split; [|split]; reflexivity].
Qed.

Lemma holds_pop (stk : list string) (st : string) :
  holds (st :: stk) stk Parser.pop_state.
Proof.
  intros p H. unfold Parser.pop_state, Parser.pmodify. cbn.
  split; [now rewrite H | split; [|split]; reflexivity].
Qed.

Lemma holds_next (stk : list string) : holds stk stk Parser.next.
Proof.
  intros p H. unfold Parser.next. split; [exact H|].
  split; [|split]; try reflexivity. cbn.
  destruct (Parser.tokens p) as [|t ts]; [reflexivity|].
  cbn. now apply suffix_cons_r.
Qed.

Lemma holds_accept (stk : list string) (ty : string) :
  holds stk stk (Parser.accept ty).
Proof.
  intros p H. unfold Parser.accept.
  destruct (String.eqb ty _); [|split; [exact H | apply kept_refl]].
  pose proof (holds_next stk p H) as N. unfold Parser.pbind.
  destruct (Parser.next p); auto.
Qed.

Lemma holds_expect (stk : list string) (ty : string) :
  holds stk stk (Parser.expect ty).
Proof.
  intros p H. unfold Parser.expect.
  destruct (String.eqb ty _); [|exact I]. now apply holds_next.
Qed.

Lemma holds_accept_any (stk : list string) (tys : list string) :
  holds stk stk (Parser.accept_any tys).
Proof.
  induction tys as [|ty tys IH]; cbn [Parser.accept_any].
  - apply holds_pret.
  - eapply holds_bind; [apply holds_accept|]. intros [t|]; [|exact IH].
    apply holds_pret.
Qed.

Lemma holds_id (stk : list string) : holds stk stk Parser.id.
Proof.
  unfold Parser.id.
  eapply holds_bind; [apply holds_expect|]. intros tok.
  eapply holds_bind; [apply holds_accept|]. intros _. apply holds_pret.
Qed.

Section HoldsGrammar.
Variable expression : Parser.P Node.
Variable fuel : nat.
Hypothesis Hexp : forall stk, holds stk stk expression.

Ltac hold_step :=
  lazymatch goal with
  | |- holds _ _ (Parser.pret _) => apply holds_pret
  | |- holds _ _ (Parser.pfail _) => apply holds_pfail
  | |- holds _ _ (Parser.pbind Parser.pget _) => apply holds_pget; intros ?
  | |- holds _ _ (Parser.pmodify _) =>
      apply holds_pmodify; intros; repeat split
  | |- holds _ _ (Parser.push_state _) => apply holds_push
  | |- holds _ _ Parser.pop_state => apply holds_pop
  | |- holds _ _ Parser.next => apply holds_next
  | |- holds _ _ (Parser.accept _) => apply holds_accept
  | |- holds _ _ (Parser.expect _) => apply holds_expect
  | |- holds _ _ (Parser.accept_any _) => apply holds_accept_any
  | |- holds _ _ Parser.id => apply holds_id
  | |- holds _ _ expression => apply Hexp
  | |- holds _ _ (Parser.pbind _ _) => eapply holds_bind; [|intros ?]
  end.

Ltac hold_auto := repeat hold_step.

Lemma holds_args_loop (stk : list string) :
  forall k acc, holds stk stk (Parser.args_loop expression k acc).
Proof.
  induction k as [|k IH]; intros acc; cbn [Parser.args_loop].
  - intros p _. exact I.
  - hold_auto. destruct x0; [apply IH | hold_auto].
Qed.

Lemma holds_functionCall (stk : list string) :
  holds stk stk (Parser.functionCall expression fuel).
Proof.
  unfold Parser.functionCall, Parser.args. hold_auto. apply holds_args_loop.
Qed.

Lemma holds_list_loop (stk : list string) :
  forall k node, holds stk stk (Parser.list_loop expression k node).
Proof.
  induction k as [|k IH]; intros node; cbn [Parser.list_loop].
  - intros p _. exact I.
  - hold_auto. destruct x; [|hold_auto]. hold_auto.
    destruct node; try apply IH. destruct isList; apply IH.
Qed.

Lemma holds_list (stk : list string) :
  holds stk stk (Parser.list_ expression fuel).
Proof. unfold Parser.list_. hold_auto. apply holds_list_loop. Qed.

Lemma holds_assignment (stk : list string) :
  holds stk stk (Parser.assignment expression fuel).
Proof.
  unfold Parser.assignment. hold_auto. destruct x0 as [op|]; [|hold_auto].
  hold_auto; [apply holds_list|].
  destruct (Parser.isEmpty _); hold_auto.
  destruct (String.eqb _ _); [hold_auto|].
  destruct (_ || _); hold_auto.
Qed.

Lemma currentState_expression (p : Parser.State) (stk : list string) :
  Parser.state p = "expression" :: stk -> Parser.currentState p = "expression".
Proof. intros H. unfold Parser.currentState. now rewrite H. Qed.

(** middleware.js, 723-798: within an expression [ident] yields an
    assignment, an ident or an expression. *)
Lemma holds_ident (stk : list string) :
  holds ("expression" :: stk) ("expression" :: stk)
        (Parser.ident expression fuel).
Proof.
  intros p H. unfold Parser.ident.
  destruct (Parser.skip_space fuel 2 p) as [la|]; [|exact I].
  destruct (Parser.mem la Parser.assignment_ops).
  { now apply holds_assignment. }
  rewrite (currentState_expression p stk H).
  destruct (Parser.mem la Parser.operation_ops).
  - destruct (bool_decide _); [now apply holds_id|].
    set (p1 := Parser.set_ident _ p).
    rewrite (currentState_expression p1 stk H).
    cbn [Parser.mem existsb String.eqb Ascii.eqb Bool.eqb orb andb].
    assert (K : forall m : Parser.P Node,
               holds ("expression" :: stk) ("expression" :: stk) m ->
               match m p1 with
               | Parser.Parsed _ p' =>
                   Parser.state p' = "expression" :: stk /\ kept p p'
               | Parser.Unsupported _ => False
               | _ => True
               end).
    { intros m Hm. exact (Hm p1 H). }
    destruct (Parser.operand p1); apply K; [apply holds_id | apply Hexp].
  - cbn [Parser.mem existsb String.eqb Ascii.eqb Bool.eqb orb andb].
    now apply holds_id.
Qed.

Lemma holds_primary (stk : list string) :
  holds ("expression" :: stk) ("expression" :: stk)
        (Parser.primary expression fuel).
Proof.
  unfold Parser.primary. hold_auto. destruct x as [open|]; hold_auto.
  destruct (Parser.mem _ _); [hold_auto|].
  destruct (String.eqb _ "ident"); [apply holds_ident|].
  destruct (String.eqb _ "function"); [apply holds_functionCall|].
  hold_auto.
Qed.

Lemma holds_subscript_loop (stk : list string) :
  forall k node, holds stk stk (Parser.subscript_loop expression k node).
Proof.
  induction k as [|k IH]; intros node; cbn [Parser.subscript_loop].
  - intros p _. exact I.
  - hold_auto. destruct x; [|hold_auto]. hold_auto. apply IH.
Qed.

Lemma holds_subscript (stk : list string) :
  holds ("expression" :: stk) ("expression" :: stk)
        (Parser.subscript expression fuel).
Proof.
  unfold Parser.subscript. hold_auto; [apply holds_primary|].
  apply holds_subscript_loop.
Qed.

Lemma holds_unary_rec (stk : list string) :
  forall k, holds ("expression" :: stk) ("expression" :: stk)
                  (Parser.unary_rec expression fuel k).
Proof.
  induction k as [|k IH]; cbn [Parser.unary_rec].
  - intros p _. exact I.
  - hold_auto. destruct x; [|apply holds_subscript]. hold_auto. apply IH.
Qed.

Lemma holds_defined (stk : list string) :
  holds ("expression" :: stk) ("expression" :: stk)
        (Parser.defined expression fuel).
Proof.
  unfold Parser.defined, Parser.unary. hold_auto; [apply holds_unary_rec|].
  destruct x0; [|hold_auto]. destruct (truthy x); hold_auto.
Qed.

Lemma holds_multiplicative_loop (stk : list string) :
  forall k node, holds ("expression" :: stk) ("expression" :: stk)
                       (Parser.multiplicative_loop expression fuel k node).
Proof.
  induction k as [|k IH]; intros node; cbn [Parser.multiplicative_loop].
  - intros p _. exact I.
  - hold_auto. destruct x; [|hold_auto]. hold_auto.
    destruct (_ && _); [hold_auto|]. destruct (truthy node); hold_auto.
    + apply holds_defined.
    + apply IH.
Qed.

Lemma holds_multiplicative (stk : list string) :
  holds ("expression" :: stk) ("expression" :: stk)
        (Parser.multiplicative expression fuel).
Proof.
  unfold Parser.multiplicative. hold_auto; [apply holds_defined|].
  apply holds_multiplicative_loop.
Qed.

Lemma holds_binary_loop (stk : list string) (ops : list string)
      (checked : bool) (level : Parser.P Node) :
  holds stk stk level ->
  forall k node, holds stk stk (Parser.binary_loop ops checked level k node).
Proof.
  intros Hl. induction k as [|k IH]; intros node; cbn [Parser.binary_loop].
  - intros p _. exact I.
  - hold_auto. destruct x; [|hold_auto]. hold_auto.
    destruct (_ && _); [hold_auto|]. hold_auto; [exact Hl|]. apply IH.
Qed.

Lemma holds_additive (stk : list string) :
  holds ("expression" :: stk) ("expression" :: stk)
        (Parser.additive expression fuel).
Proof.
  unfold Parser.additive. hold_auto; [apply holds_multiplicative|].
  apply holds_binary_loop, holds_multiplicative.
Qed.

Lemma holds_range (stk : list string) :
  holds ("expression" :: stk) ("expression" :: stk)
        (Parser.range expression fuel).
Proof.
  unfold Parser.range. hold_auto; [apply holds_additive|].
  destruct x0; [|hold_auto]. hold_auto.
  destruct (negb _); hold_auto. apply holds_additive.
Qed.

Lemma holds_relational (stk : list string) :
  holds ("expression" :: stk) ("expression" :: stk)
        (Parser.relational expression fuel).
Proof.
  unfold Parser.relational. hold_auto; [apply holds_range|].
  apply holds_binary_loop, holds_range.
Qed.

Lemma holds_in (stk : list string) :
  holds ("expression" :: stk) ("expression" :: stk)
        (Parser.in_ expression fuel).
Proof.
  unfold Parser.in_. hold_auto; [apply holds_relational|].
  apply holds_binary_loop, holds_relational.
Qed.

Lemma holds_equality (stk : list string) :
  holds ("expression" :: stk) ("expression" :: stk)
        (Parser.equality expression fuel).
Proof.
  unfold Parser.equality. hold_auto; [apply holds_in|].
  apply holds_binary_loop, holds_in.
Qed.

Lemma holds_typecheck (stk : list string) :
  holds ("expression" :: stk) ("expression" :: stk)
        (Parser.typecheck expression fuel).
Proof.
  unfold Parser.typecheck. hold_auto; [apply holds_equality|].
  apply holds_binary_loop, holds_equality.
Qed.

Lemma holds_logical_loop (stk : list string) :
  forall k node, holds ("expression" :: stk) ("expression" :: stk)
                       (Parser.logical_loop expression fuel k node).
Proof.
  induction k as [|k IH]; intros node; cbn [Parser.logical_loop].
  - intros p _. exact I.
  - hold_auto. destruct x; [|hold_auto]. hold_auto; [apply holds_typecheck|].
    apply IH.
Qed.

Lemma holds_ternary (stk : list string) :
  holds ("expression" :: stk) ("expression" :: stk)
        (Parser.ternary expression fuel).
Proof.
  unfold Parser.ternary, Parser.logical. hold_auto.
  - apply holds_typecheck.
  - apply holds_logical_loop.
  - match goal with
    | |- holds _ _ (match ?q with Some _ => _ | None => _ end) => destruct q
    end; hold_auto.
Qed.

Lemma holds_negation_rec (stk : list string) :
  forall k, holds ("expression" :: stk) ("expression" :: stk)
                  (Parser.negation_rec expression fuel k).
Proof.
  induction k as [|k IH]; cbn [Parser.negation_rec].
  - intros p _. exact I.
  - hold_auto. destruct x; [|apply holds_ternary]. hold_auto. apply IH.
Qed.

Lemma holds_expression_loop (stk : list string) :
  forall k acc, holds ("expression" :: stk) ("expression" :: stk)
                      (Parser.expression_loop expression fuel k acc).
Proof.
  induction k as [|k IH]; intros acc; cbn [Parser.expression_loop].
  - intros p _. exact I.
  - unfold Parser.negation. hold_auto; [apply holds_negation_rec|].
    destruct (truthy x); [apply IH | hold_auto].
Qed.

Lemma holds_expression_body (stk : list string) :
  holds stk stk (Parser.expression_body expression fuel).
Proof.
  unfold Parser.expression_body. hold_auto. apply holds_expression_loop.
Qed.

End HoldsGrammar.

Lemma holds_expression (fuel : nat) :
  forall stk, holds stk stk (Parser.expression fuel).
Proof.
  induction fuel as [|fuel IH]; intros stk; cbn [Parser.expression].
  - intros p _. exact I.
  - now apply holds_expression_body.
Qed.

Lemma expression_loop_shape (expression : Parser.P Node) (fuel : nat) :
  forall k acc p e p',
    Parser.expression_loop expression fuel k acc p = Parser.Parsed e p' ->
    exists nodes, e = Expression false (acc ++ nodes)
                  /\ Forall (fun n => truthy n = true) nodes.
Proof.
  induction k as [|k IH]; intros acc p e p' H; [discriminate H|].
  cbn [Parser.expression_loop] in H. unfold Parser.pbind in H.
  destruct (Parser.negation expression fuel p) as [node p1| | |];
    try discriminate H.
  destruct (truthy node) eqn:Ht.
  - destruct (IH _ _ _ _ H) as (nodes & -> & Hn).
    exists (node :: nodes). split; [now rewrite <- app_assoc|].
    now constructor.
  - injection H as <- _. exists []. split; [now rewrite app_nil_r|].
    constructor.
Qed.

(** X20.  An expression that parses leaves the parser as it found it but
    for the tokens it took and the flags of the expression level: the
    state stack is the one it was entered with, the state popped last is
    [expression], [inProperty] and [allowPostfix] are untouched and the
    tokens left are a suffix of the tokens given.  What it yields is an
    expression that is no list and holds no undefined node. *)
Theorem expression_restores_state (fuel : nat) (p : Parser.State)
        (e : Node) (p' : Parser.State) :
  Parser.expression fuel p = Parser.Parsed e p' ->
  Parser.state p' = Parser.state p
  /\ Parser.prevState p' = Some "expression"
  /\ Parser.inProperty p' = Parser.inProperty p
  /\ Parser.allowPostfix p' = Parser.allowPostfix p
  /\ Parser.tokens p' `suffix_of` Parser.tokens p
  /\ exists nodes, e = Expression false nodes
                   /\ Forall (fun n => truthy n = true) nodes.
Proof.
  intros H.
  pose proof (holds_expression fuel (Parser.state p) p eq_refl) as K.
  rewrite H in K. destruct K as (S & I1 & A1 & T).
  split; [exact S|]. split; [|split; [exact I1|split; [exact A1|split;
                                                     [exact T|]]]].
  - destruct fuel as [|fuel]; [discriminate H|].
    cbn [Parser.expression] in H. unfold Parser.expression_body in H.
    unfold Parser.pbind at 1, Parser.push_state, Parser.pmodify in H.
    unfold Parser.pbind at 1 in H.
    set (p0 := Parser.set_state _ _ p) in H.
    pose proof (holds_expression_loop (Parser.expression fuel) fuel
                  (holds_expression fuel) (Parser.state p) fuel [] p0
                  eq_refl) as L.
    destruct (Parser.expression_loop _ fuel fuel [] p0) as [x p1| | |];
      try discriminate H.
    destruct L as [L _]. unfold Parser.pbind, Parser.pop_state,
      Parser.pmodify, Parser.pret in H.
    injection H as _ <-. cbn. now rewrite L.
  - destruct fuel as [|fuel]; [discriminate H|].
    cbn [Parser.expression] in H. unfold Parser.expression_body in H.
    unfold Parser.pbind at 1, Parser.push_state, Parser.pmodify in H.
    unfold Parser.pbind at 1 in H.
    destruct (Parser.expression_loop _ fuel fuel [] _) as [x p1| | |] eqn:L;
      try discriminate H.
    unfold Parser.pbind, Parser.pop_state, Parser.pmodify, Parser.pret in H.
    injection H as <- _.
    exact (expression_loop_shape _ _ _ _ _ _ _ L).
Qed.

(** X21.  Within an expression an ident is never read as a property or
    as a selector: [ident] is entered with [expression] on top of the
    state stack, where it yields an assignment, an ident or an
    expression.  No production of the statement level is reached from
    [expression]. *)
Theorem expression_reaches_no_statement (fuel : nat) (p : Parser.State)
        (what : string) :
  Parser.expression fuel p <> Parser.Unsupported what.
Proof.
  intros H.
  pose proof (holds_expression fuel (Parser.state p) p eq_refl) as K.
  now rewrite H in K.
Qed.

(** ** Assignments, lists and the binary levels *)

Lemma accept_any_hit (tys : list string) (p : Parser.State)
      (op : Parser.Token) (rest : list Parser.Token) :
  Parser.tokens p = op :: rest ->
  Parser.type op ∈ tys ->
  Parser.accept_any tys p = Parser.Parsed (Some op) (Parser.set_tokens rest p).
Proof.
  intros Ht. induction tys as [|ty tys IH]; intros Hin; [inversion Hin|].
  cbn [Parser.accept_any]. unfold Parser.pbind at 1.
  destruct (String.eqb ty (Parser.type op)) eqn:E.
  - apply String.eqb_eq in E.
    now rewrite (accept_hit p op rest ty Ht (eq_sym E)).
  - rewrite (accept_miss p op rest ty Ht E). apply IH.
    apply elem_of_cons in Hin as [Hin|Hin]; [|exact Hin].
    apply String.eqb_neq in E. congruence.
Qed.

Lemma accept_any_miss (tys : list string) (p : Parser.State) :
  Parser.type (Parser.peek p) ∉ tys ->
  Parser.accept_any tys p = Parser.Parsed None p.
Proof.
  induction tys as [|ty tys IH]; intros Hin; [reflexivity|].
  apply not_elem_of_cons in Hin as [Hne Hin].
  cbn [Parser.accept_any]. unfold Parser.pbind at 1, Parser.accept.
  assert (E : String.eqb ty (Parser.type (Parser.peek p)) = false)
    by (apply String.eqb_neq; congruence).
  rewrite E. now apply IH.
Qed.

(** X22.  [name op rhs] with [op] one of [=], [+=], [-=], [*=], [/=] and
    [%=], with or without a space between the name and the operator: the
    right-hand side is read as a list in the state
    [assignment]; an empty one is an error; [=] yields the ident with the
    right-hand side for value, and [op=] yields the ident whose value is
    the operation [op] -- the first character of the token -- between the
    lookup of the name and the right-hand side. *)
Theorem assignment_desugars (expression : Parser.P Node) (fuel : nat)
        (p : Parser.State) (tok op : Parser.Token)
        (sp rest : list Parser.Token) (expr : Node) (p2 : Parser.State) :
  Parser.tokens p = tok :: sp ++ op :: rest ->
  Parser.type tok = "ident" ->
  optional_space sp ->
  Parser.type op ∈ ["="; "+="; "-="; "*="; "/="; "%="] ->
  Parser.list_ expression fuel
    (Parser.set_state ("assignment" :: Parser.state p) (Parser.prevState p)
                      (Parser.set_tokens rest p))
    = Parser.Parsed expr p2 ->
  Parser.assignment expression fuel p
  = if Parser.isEmpty expr
    then Parser.Failed "invalid right-hand side operand in assignment" p2
    else Parser.Parsed
           (Ident (Parser.name_of (Parser.val tok))
                  (if String.eqb (Parser.type op) "=" then expr
                   else BinOp (String.substring 0 1 (Parser.type op))
                              (Ident (Parser.name_of (Parser.val tok))
                                     Null false) expr)
                  false)
           (Parser.set_state (tail (Parser.state p2))
                             (head (Parser.state p2)) p2).
Proof.
  intros Ht Hid Hspace Hop Hl.
  unfold Parser.assignment.
  unfold Parser.pbind at 1.
  assert (Ht' : Parser.tokens (Parser.set_tokens (op :: rest) p) = op :: rest)
    by reflexivity.
  assert (Hsp : String.eqb "space" (Parser.type op) = false).
  { repeat (apply elem_of_cons in Hop as [->|Hop]); try reflexivity.
    inversion Hop. }
  rewrite (id_takes_space p tok op sp rest Ht Hid Hspace Hsp).
  unfold Parser.pbind at 1.
  rewrite (accept_any_hit _ _ op rest Ht').
  2:{ repeat (apply elem_of_cons in Hop as [->|Hop]);
        [| | | | | |inversion Hop];
        repeat (first [apply list_elem_of_here | apply list_elem_of_further]). }
  unfold Parser.pbind at 1, Parser.push_state, Parser.pmodify.
  unfold Parser.pbind at 1.
  match goal with
  | |- context [Parser.list_ _ _ ?st] =>
      change st with
        (Parser.set_state ("assignment" :: Parser.state p)
           (Parser.prevState p) (Parser.set_tokens rest p))
  end.
  rewrite Hl. destruct (Parser.isEmpty expr); [reflexivity|].
  unfold Parser.pbind at 1, Parser.pop_state, Parser.pmodify.
  repeat (apply elem_of_cons in Hop as [->|Hop]); try reflexivity.
  inversion Hop.
Qed.

Lemma accept_peek (ty : string) (p : Parser.State) :
  Parser.type (Parser.peek p) = ty ->
  Parser.accept ty p
  = Parser.Parsed (Some (Parser.peek p))
                  (Parser.set_tokens (tail (Parser.tokens p)) p).
Proof.
  intros H. unfold Parser.accept. rewrite H, String.eqb_refl. reflexivity.
Qed.

Lemma accept_other (ty : string) (p : Parser.State) :
  Parser.type (Parser.peek p) <> ty -> Parser.accept ty p = Parser.Parsed None p.
Proof.
  intros H. unfold Parser.accept.
  assert (E : String.eqb ty (Parser.type (Parser.peek p)) = false)
    by (apply String.eqb_neq; congruence).
  now rewrite E.
Qed.

Lemma list_loop_appends (expression : Parser.P Node) (items : list Node) :
  forall k ns p p',
    listed expression p items p' ->
    length items < k ->
    Parser.list_loop expression k (Expression true ns) p
    = Parser.Parsed (Expression true (ns ++ items)) p'.
Proof.
  induction items as [|e items IH]; intros k ns p p' H Hk;
    (destruct k as [|k]; [cbn in Hk; lia|]); cbn [Parser.list_loop];
    unfold Parser.pbind at 1.
  - destruct H as [Hc E]. subst p'. rewrite (accept_other "," p Hc).
    now rewrite app_nil_r.
  - destruct H as (Hc & p1 & He & Hr). rewrite (accept_peek "," p Hc).
    unfold Parser.pbind at 1. rewrite He.
    rewrite (IH k (ns ++ [e]) p1 p' Hr) by (cbn in Hk; lia).
    now rewrite <- app_assoc.
Qed.

(** The loop of [list], from an expression that is no list. *)
Lemma list_loop_collects (expression : Parser.P Node) (k : nat) (node : Node)
        (items : list Node) (p p' : Parser.State) :
  listed expression p items p' ->
  length items < k ->
  is_list node = false ->
  Parser.list_loop expression k node p
  = Parser.Parsed (match items with
                   | [] => node
                   | _ :: _ => Expression true (node :: items)
                   end) p'.
Proof.
  intros H Hk Hn. destruct items as [|e items];
    (destruct k as [|k]; [cbn in Hk; lia|]); cbn [Parser.list_loop];
    unfold Parser.pbind at 1.
  - destruct H as [Hc E]. subst p'. now rewrite (accept_other "," p Hc).
  - destruct H as (Hc & p1 & He & Hr). rewrite (accept_peek "," p Hc).
    unfold Parser.pbind at 1. rewrite He.
    assert (E : Parser.list_loop expression k (Expression true [node; e]) p1
                = Parser.Parsed (Expression true (node :: e :: items)) p').
    { rewrite (list_loop_appends expression items k [node; e] p1 p' Hr)
        by (cbn in Hk; lia). reflexivity. }
    destruct node; try exact E. destruct isList; [discriminate Hn | exact E].
Qed.

Lemma accept_any_peek (ops : list string) (p : Parser.State) :
  Parser.type (Parser.peek p) ∈ ops ->
  Parser.accept_any ops p
  = Parser.Parsed (Some (Parser.peek p))
                  (Parser.set_tokens (tail (Parser.tokens p)) p).
Proof.
  induction ops as [|ty ops IH]; intros Hin; [inversion Hin|].
  cbn [Parser.accept_any]. unfold Parser.pbind at 1.
  destruct (String.eqb ty (Parser.type (Parser.peek p))) eqn:E.
  - apply String.eqb_eq in E. now rewrite (accept_peek ty p (eq_sym E)).
  - apply String.eqb_neq in E.
    rewrite (accept_other ty p) by congruence. apply IH.
    apply elem_of_cons in Hin as [Hin|Hin]; [congruence | exact Hin].
Qed.

(** The loop of a binary level nests the operations from the left. *)
Lemma binary_loop_chain (ops : list string) (checked : bool)
        (level : Parser.P Node) (items : list (string * Node)) :
  forall (k : nat) (node : Node) (p p' : Parser.State),
    chain ops level p items p' ->
    length items < k ->
    (checked = true -> items <> [] -> truthy node = true) ->
    Parser.binary_loop ops checked level k node p
    = Parser.Parsed (fold_left (fun acc it => BinOp (fst it) acc (snd it))
                               items node) p'.
Proof.
  induction items as [|[op r] items IH]; intros k node p p' H Hk Hn;
    (destruct k as [|k]; [cbn in Hk; lia|]); cbn [Parser.binary_loop];
    unfold Parser.pbind at 1.
  - destruct H as [Hc E]. subst p'. now rewrite (accept_any_miss ops p Hc).
  - destruct H as (Hop & Hin & p2 & Hl & Hr).
    rewrite (accept_any_peek ops p) by (now rewrite Hop).
    unfold Parser.pbind at 1, Parser.pmodify.
    assert (C : checked && negb (truthy node) = false).
    { destruct checked; [|reflexivity]. now rewrite Hn. }
    rewrite C. unfold Parser.pbind at 1. rewrite Hl.
    unfold Parser.pbind at 1. rewrite Hop. cbn [fold_left fst snd].
    apply IH; [exact Hr | cbn in Hk; lia | reflexivity].
Qed.

(** X23.  [list] gathers the expressions that commas separate: when
    commas follow the first expression, it yields one expression flagged
    as a list that holds the first expression and those read after each
    comma, in order; when none follows, it yields the first expression
    itself. *)
Theorem list_collects (expression : Parser.P Node) (fuel : nat)
        (p0 : Parser.State) (node : Node) (items : list Node)
        (p p' : Parser.State) :
  expression p0 = Parser.Parsed node p ->
  is_list node = false ->
  listed expression p items p' ->
  length items < fuel ->
  Parser.list_ expression fuel p0
  = Parser.Parsed (match items with
                   | [] => node
                   | _ :: _ => Expression true (node :: items)
                   end) p'.
Proof.
  intros He Hn Hl Hk. unfold Parser.list_, Parser.pbind. rewrite He.
  now apply list_loop_collects.
Qed.

Lemma list_collects_witness :
  exists p',
    Parser.list_ (Parser.expression 4) 4 list_tokens
    = Parser.Parsed (Expression true [Expression false [Unit 1 ""];
                                      Expression false [Unit 2 ""];
                                      Expression false [Unit 3 ""]]) p'.
Proof.
  eexists.
  eapply (list_collects (Parser.expression 4) 4 list_tokens
            (Expression false [Unit 1 ""])
            [Expression false [Unit 2 ""]; Expression false [Unit 3 ""]]).
  - vm_compute. reflexivity.
  - reflexivity.
  - split; [reflexivity|]. eexists. split; [vm_compute; reflexivity|].
    split; [reflexivity|]. eexists. split; [vm_compute; reflexivity|].
    split; [|reflexivity]. vm_compute. discriminate.
  - cbn. lia.
Defined.

(** X24.  The binary levels associate to the left: a first operand
    followed by operators of the level and by operands yields the
    operations nested from the left, each operator applied to all that
    was read before it and to the operand that follows it.  So do
    [additive], [relational], [in], [equality] and [typecheck]; all but
    [additive] ask for a left operand that is not undefined. *)
Theorem binary_levels_left_assoc (expression : Parser.P Node) (fuel : nat)
        (items : list (string * Node)) (p0 : Parser.State) (node : Node)
        (p p' : Parser.State) :
  length items < fuel ->
  let nested := fold_left (fun acc it => BinOp (fst it) acc (snd it))
                          items node in
  (Parser.multiplicative expression fuel p0 = Parser.Parsed node p ->
   chain ["+"; "-"] (Parser.multiplicative expression fuel) p items p' ->
   Parser.additive expression fuel p0 = Parser.Parsed nested p')
  /\ (truthy node = true ->
      (Parser.range expression fuel p0 = Parser.Parsed node p ->
       chain [">="; "<="; "<"; ">"] (Parser.range expression fuel)
             p items p' ->
       Parser.relational expression fuel p0 = Parser.Parsed nested p')
      /\ (Parser.relational expression fuel p0 = Parser.Parsed node p ->
          chain ["in"] (Parser.relational expression fuel) p items p' ->
          Parser.in_ expression fuel p0 = Parser.Parsed nested p')
      /\ (Parser.in_ expression fuel p0 = Parser.Parsed node p ->
          chain ["=="; "!="] (Parser.in_ expression fuel) p items p' ->
          Parser.equality expression fuel p0 = Parser.Parsed nested p')
      /\ (Parser.equality expression fuel p0 = Parser.Parsed node p ->
          chain ["is a"] (Parser.equality expression fuel) p items p' ->
          Parser.typecheck expression fuel p0 = Parser.Parsed nested p')).
Proof.
  intros Hk nested. split; [|intros Ht; repeat split].
  - intros H C. unfold Parser.additive, Parser.pbind. rewrite H.
    apply binary_loop_chain; auto. discriminate.
  - intros H C. unfold Parser.relational, Parser.pbind. rewrite H.
    apply binary_loop_chain; auto.
  - intros H C. unfold Parser.in_, Parser.pbind. rewrite H.
    apply binary_loop_chain; auto.
  - intros H C. unfold Parser.equality, Parser.pbind. rewrite H.
    apply binary_loop_chain; auto.
  - intros H C. unfold Parser.typecheck, Parser.pbind. rewrite H.
    apply binary_loop_chain; auto.
Qed.

Lemma binary_levels_left_assoc_witness :
  exists p',
    Parser.additive (Parser.expression 4) 4
                    sum_tokens
    = Parser.Parsed (BinOp "-" (BinOp "+" (Unit 1 "") (Unit 2 "")) (Unit 3 ""))
                    p'.
Proof.
  eexists.
  eapply (proj1 (binary_levels_left_assoc (Parser.expression 4) 4
                   [("+", Unit 2 ""); ("-", Unit 3 "")]
                   sum_tokens
                   (Unit 1 "") _ _ ltac:(cbn; lia))).
  - vm_compute. reflexivity.
  - split; [reflexivity|]. split; [apply list_elem_of_here|].
    eexists. split; [vm_compute; reflexivity|].
    split; [reflexivity|].
    split; [apply list_elem_of_further, list_elem_of_here|].
    eexists. split; [vm_compute; reflexivity|].
    split; [|reflexivity]. vm_compute.
    intros H. repeat (apply elem_of_cons in H as [H|H]; [discriminate H|]).
    inversion H.
Defined.

Lemma expression_restores_state_witness :
  match Parser.expression 5 sum_tokens with
  | Parser.Parsed e p' =>
      Parser.state p' = ["selector"; "root"]
      /\ Parser.prevState p' = Some "expression"
      /\ e = Expression false
               [BinOp "-" (BinOp "+" (Unit 1 "") (Unit 2 "")) (Unit 3 "")]
  | _ => False
  end.
Proof.
  destruct (Parser.expression 5 sum_tokens) as [e p'| | |] eqn:E.
  - destruct (expression_restores_state 5 sum_tokens e p' E)
      as (S & P & _).
    split; [exact S|]. split; [exact P|].
    vm_compute in E. now injection E as <- _.
  - vm_compute in E. discriminate E.
  - vm_compute in E. discriminate E.
  - vm_compute in E. discriminate E.
Defined.

Lemma assignment_desugars_witness :
  exists p',
    Parser.assignment (Parser.expression 4) 4 compound_tokens
    = Parser.Parsed (Ident "x" (BinOp "+" (Ident "x" Null false)
                                      (Expression false [Unit 1 ""]))
                           false) p'.
Proof.
  eexists. etransitivity.
  - eapply (assignment_desugars (Parser.expression 4) 4 compound_tokens
              (Parser.mkToken "ident" (Ident "x" Null false) "x")
              (Parser.op_tok "+=")
              [Parser.op_tok "space"]
              [unit_tok 1; Parser.op_tok "newline"]).
    + reflexivity.
    + reflexivity.
    + right. eexists. split; reflexivity.
    + apply list_elem_of_further, list_elem_of_here.
    + vm_compute. reflexivity.
  - reflexivity.
Defined.

(** * Properties of the parser's statements *)

(** ** What a statement leaves of the parser's state *)

Ltac full_fields :=
  unfold Statements.set_core, Statements.set_css, Statements.set_bracketed;
  cbn [Statements.core Statements.css Statements.bracketed].

Lemma steady_refl (b : bool) (q : Statements.Full) :
  Parser.inProperty (Statements.core q) = false -> steady b q q.
Proof. intros H. split; [exact H | split; [reflexivity | auto]]. Qed.

Lemma steady_trans (b : bool) (x y z : Statements.Full) :
  steady b x y -> steady b y z -> steady b x z.
Proof.
  intros (I1 & T1 & C1) (I2 & T2 & C2). split; [exact I2|]. split.
  - etransitivity; eauto.
  - auto.
Qed.

Lemma level_weaken {A : Type} (b : bool) (pre post : list string)
      (m : Statements.Stm A) :
  level true pre post m -> level b pre post m.
Proof.
  intros H q Hs Hi. specialize (H q Hs Hi).
  destruct (m q) as [a q'| | |]; auto.
  destruct H as (S1 & I1 & T1 & C1). repeat split; auto.
Qed.

Lemma level_sret {A : Type} (b : bool) (stk : list string) (a : A) :
  level b stk stk (Statements.sret a).
Proof. intros q Hs Hi. split; [exact Hs | now apply steady_refl]. Qed.

Lemma level_sfail {A : Type} (b : bool) (pre post : list string)
      (msg : string) :
  level b pre post (@Statements.sfail A msg).
Proof. intros q Hs Hi. exact I. Qed.

Lemma level_starved {A : Type} (b : bool) (pre post : list string) :
  level b pre post (fun _ => @Statements.Starved A).
Proof. intros q Hs Hi. exact I. Qed.

Lemma level_bind {A B : Type} (b : bool) (x y z : list string)
      (m : Statements.Stm A) (k : A -> Statements.Stm B) :
  level b x y m -> (forall a, level b y z (k a)) ->
  level b x z (Statements.sbind m k).
Proof.
  intros Hm Hk q Hs Hi. unfold Statements.sbind. specialize (Hm q Hs Hi).
  destruct (m q) as [a q'| | |]; auto.
  destruct Hm as [Hs' Hst]. specialize (Hk a q' Hs' (proj1 Hst)).
  destruct (k a q') as [c q''| | |]; auto.
  destruct Hk as [Hs'' Hst']. split; [exact Hs''|].
  eapply steady_trans; eauto.
Qed.

Lemma level_sget {A : Type} (b : bool) (pre post : list string)
      (k : Statements.Full -> Statements.Stm A) :
  (forall q, level b pre post (k q)) ->
  level b pre post (Statements.sbind Statements.sget k).
Proof.
  intros Hk q Hs Hi. unfold Statements.sbind, Statements.sget.
  now apply Hk.
Qed.

(** A production of the expression level keeps what it keeps there. *)
Lemma level_lift {A : Type} (b : bool) (pre post : list string)
      (m : Parser.P A) :
  holds pre post m -> level b pre post (Statements.lift m).
Proof.
  intros H q Hs Hi. unfold Statements.lift. specialize (H (Statements.core q) Hs).
  destruct (m (Statements.core q)) as [a p| | |]; auto.
  destruct H as (S1 & I1 & A1 & T1). unfold steady. full_fields.
  split; [exact S1|]. split; [congruence|]. split; [exact T1 | auto].
Qed.

Lemma level_allowPostfix (b : bool) (stk : list string) (x : bool) :
  level b stk stk
    (Statements.lift (Parser.pmodify (Parser.set_allowPostfix x))).
Proof.
  intros q Hs Hi. cbn. split; [exact Hs|].
  split; [exact Hi | split; [reflexivity | auto]].
Qed.

Lemma level_set_css (stk : list string) (x : bool) :
  level false stk stk (Statements.smodify (Statements.set_css x)).
Proof.
  intros q Hs Hi. cbn. split; [exact Hs|].
  split; [exact Hi | split; [reflexivity | discriminate]].
Qed.

(** A production that reads ahead and leaves the state as it is, but
    for [bracketed]. *)
Lemma level_reader {A : Type} (b : bool) (stk : list string)
      (m : Statements.Stm A) :
  (forall q, match m q with
             | Statements.Done _ q' =>
                 Statements.core q' = Statements.core q
                 /\ Statements.css q' = Statements.css q
             | Statements.Elsewhere _ => False
             | _ => True
             end) ->
  level b stk stk m.
Proof.
  intros H q Hs Hi. specialize (H q).
  destruct (m q) as [a q'| | |]; auto. destruct H as [Hc Hcss].
  unfold steady. rewrite Hc. split; [exact Hs|].
  split; [exact Hi | split; [reflexivity | congruence]].
Qed.

Lemma level_isSelectorToken (b : bool) (stk : list string) (n : nat) :
  level b stk stk (Statements.isSelectorToken n).
Proof.
  apply level_reader. intros q. unfold Statements.isSelectorToken.
  repeat (destruct (String.eqb _ _); [now split|]). now split.
Qed.

Lemma level_isPseudoSelector (b : bool) (stk : list string) (n : nat) :
  level b stk stk (Statements.isPseudoSelector n).
Proof.
  apply level_reader. intros q. unfold Statements.isPseudoSelector.
  destruct (Parser.val _); now split.
Qed.

Lemma level_selectorToken (b : bool) (stk : list string) :
  level b stk stk Statements.selectorToken.
Proof.
  unfold Statements.selectorToken.
  eapply level_bind; [apply level_isSelectorToken|]. intros [|].
  - eapply level_bind; [apply level_lift, holds_next|]. intros t.
    apply level_sret.
  - apply level_sret.
Qed.

Lemma level_skipWhitespace (b : bool) (stk : list string) (k : nat) :
  level b stk stk (Statements.skipWhitespace k).
Proof.
  induction k as [|k IH]; cbn [Statements.skipWhitespace].
  - apply level_starved.
  - intros q Hs Hi. destruct (Parser.mem _ _).
    + apply (level_bind b stk stk stk); auto.
      apply level_lift, holds_next.
    + split; [exact Hs | now apply steady_refl].
Qed.

Lemma level_skipSpaces (b : bool) (stk : list string) (k : nat) :
  level b stk stk (Statements.skipSpaces k).
Proof.
  induction k as [|k IH]; cbn [Statements.skipSpaces].
  - apply level_starved.
  - intros q Hs Hi. destruct (String.eqb _ _).
    + apply (level_bind b stk stk stk); auto.
      apply level_lift, holds_next.
    + split; [exact Hs | now apply steady_refl].
Qed.

Lemma level_pseudo_scan (b : bool) (stk : list string) (k : nat) :
  forall i, level b stk stk (Statements.pseudo_scan k i).
Proof.
  induction k as [|k IH]; intros i; cbn [Statements.pseudo_scan].
  - apply level_starved.
  - eapply level_bind; [apply level_isSelectorToken|]. intros [|].
    + intros q Hs Hi. destruct (String.eqb _ _); [|now apply IH].
      apply (level_bind b stk stk stk); auto.
      * apply level_isPseudoSelector.
      * intros [|]; [apply level_sret | apply IH].
    + apply level_sret.
Qed.

Lemma level_looksLikeSelector (b : bool) (stk : list string) (k : nat) :
  level b stk stk (Statements.looksLikeSelector k).
Proof.
  intros q Hs Hi. unfold Statements.looksLikeSelector.
  destruct (Statements.skip_ident_lines k 1 q) as [i|]; [|exact I].
  apply (level_bind b stk stk stk); auto.
  - apply level_pseudo_scan.
  - intros [j|]; [|apply level_sret].
    apply level_reader. intros q1.
    repeat (destruct (_ && _); [now split|]).
    destruct (Statements.skip_to_separator k j q1); [now split | exact I].
Qed.

(** The value of a property (middleware.js, 839-850). *)
Lemma level_property_value (b : bool) (stk : list string) (fuel : nat)
      (ident : list Node) :
  level b stk stk (Statements.lift (Parser.property_value fuel ident)).
Proof.
  intros q Hs Hi. unfold Statements.lift, Parser.property_value.
  unfold Parser.pbind at 1. unfold Parser.push_state at 1.
  unfold Parser.pmodify at 1. unfold Parser.pbind at 1.
  unfold Parser.pmodify at 1.
  set (p1 := Parser.set_inProperty true _).
  assert (S1 : Parser.state p1 = "property" :: stk) by (cbn; now rewrite Hs).
  pose proof (holds_list _ fuel (holds_expression fuel) _ p1 S1) as L.
  unfold Parser.pbind at 1.
  destruct (Parser.list_ _ _ p1) as [e p2| | |]; auto.
  destruct L as (S2 & I2 & A2 & T2).
  unfold Parser.pbind at 1. unfold Parser.pmodify at 1.
  unfold Parser.pbind at 1. unfold Parser.pmodify at 1.
  unfold Parser.pbind at 1. unfold Parser.pop_state at 1.
  unfold Parser.pmodify at 1.
  set (p3 := Parser.set_state _ _ _).
  assert (S3 : Parser.state p3 = stk) by (cbn; now rewrite S2).
  pose proof (holds_accept stk ";" p3 S3) as Acc.
  unfold Parser.pbind.
  destruct (Parser.accept ";" p3) as [t p4| | |]; auto.
  destruct Acc as (S4 & I4 & A4 & T4). unfold Parser.pret, steady.
  full_fields. split; [exact S4|]. split; [rewrite I4; reflexivity|].
  split; [|auto]. etransitivity; [exact T4|]. exact T2.
Qed.

Lemma sbind_done {A B : Type} (m : Statements.Stm A)
      (k : A -> Statements.Stm B) (q q' : Statements.Full) (b : B) :
  Statements.sbind m k q = Statements.Done b q' ->
  exists a q1, m q = Statements.Done a q1 /\ k a q1 = Statements.Done b q'.
Proof.
  unfold Statements.sbind. destruct (m q) as [a q1| | |]; try discriminate.
  intros H. now exists a, q1.
Qed.

Lemma lift_css {A : Type} (m : Parser.P A) (q q' : Statements.Full) (a : A) :
  Statements.lift m q = Statements.Done a q' ->
  Statements.css q' = Statements.css q.
Proof.
  unfold Statements.lift. destruct (m (Statements.core q)); try discriminate.
  intros H. injection H as _ <-. reflexivity.
Qed.

Lemma skipWhitespace_css (k : nat) :
  forall q q' u, Statements.skipWhitespace k q = Statements.Done u q' ->
                 Statements.css q' = Statements.css q.
Proof.
  induction k as [|k IH]; intros q q' u; cbn [Statements.skipWhitespace].
  - discriminate.
  - destruct (Parser.mem _ _).
    + intros H. apply sbind_done in H as (t & q1 & N & H).
      apply lift_css in N. apply IH in H. congruence.
    + intros H. injection H as _ <-. reflexivity.
Qed.

Lemma skipSpaces_css (k : nat) :
  forall q q' u, Statements.skipSpaces k q = Statements.Done u q' ->
                 Statements.css q' = Statements.css q.
Proof.
  induction k as [|k IH]; intros q q' u; cbn [Statements.skipSpaces].
  - discriminate.
  - destruct (String.eqb _ _).
    + intros H. apply sbind_done in H as (t & q1 & N & H).
      apply lift_css in N. apply IH in H. congruence.
    + intros H. injection H as _ <-. reflexivity.
Qed.

(** The end of a block in either style: the mode of the braces is put
    back, or it is off. *)
Lemma closing_css (k : nat) (saved : bool) (skip : bool)
      (q q' : Statements.Full) (u : unit) :
  (if Statements.css q
   then Statements.sbind (Statements.skipWhitespace k) (fun _ =>
        Statements.sbind (Statements.expect "}") (fun _ =>
        if skip
        then Statements.sbind (Statements.skipSpaces k) (fun _ =>
             Statements.smodify (Statements.set_css saved))
        else Statements.smodify (Statements.set_css saved)))
   else Statements.sbind (Statements.expect "outdent") (fun _ =>
        Statements.sret tt)) q = Statements.Done u q' ->
  Statements.css q' = true -> saved = true.
Proof.
  destruct (Statements.css q) eqn:C; intros H.
  - apply sbind_done in H as (u1 & q1 & _ & H).
    apply sbind_done in H as (t & q2 & _ & H).
    destruct skip.
    + apply sbind_done in H as (u2 & q3 & _ & H).
      injection H as _ <-. auto.
    + injection H as _ <-. auto.
  - apply sbind_done in H as (t & q1 & E & H).
    injection H as _ <-. apply lift_css in E. congruence.
Qed.

Section LevelGrammar.
Variable stitch : list Parser.Token -> string.
Variable statement : Statements.Stm Node.
Variable fuel : nat.
Hypothesis Hstm : forall stk, level true stk stk statement.

Create HintDb level_db.

Ltac level_step :=
  lazymatch goal with
  | |- level _ _ _ (Statements.sret _) => apply level_sret
  | |- level _ _ _ (Statements.sfail _) => apply level_sfail
  | |- level _ _ _ (fun _ => Statements.Starved) => apply level_starved
  | |- level _ _ _ (Statements.sbind Statements.sget _) =>
      apply level_sget; intros ?
  | |- level _ _ _ (Statements.accept _) => apply level_lift, holds_accept
  | |- level _ _ _ (Statements.expect _) => apply level_lift, holds_expect
  | |- level _ _ _ (Statements.accept_any _) =>
      apply level_lift, holds_accept_any
  | |- level _ _ _ Statements.next => apply level_lift, holds_next
  | |- level _ _ _ (Statements.push_state _) => apply level_lift, holds_push
  | |- level _ _ _ Statements.pop_state => apply level_lift, holds_pop
  | |- level _ _ _ (Statements.lift Parser.id) => apply level_lift, holds_id
  | |- level _ _ _ (Statements.lift
                      (Parser.pmodify (Parser.set_allowPostfix _))) =>
      apply level_allowPostfix
  | |- level _ _ _ (Statements.lift (Parser.property_value _ _)) =>
      apply level_property_value
  | |- level _ _ _ (Statements.expression _) =>
      apply level_lift, holds_expression
  | |- level _ _ _ (Statements.skipWhitespace _) => apply level_skipWhitespace
  | |- level _ _ _ (Statements.skipSpaces _) => apply level_skipSpaces
  | |- level _ _ _ Statements.selectorToken => apply level_selectorToken
  | |- level _ _ _ (Statements.looksLikeSelector _) =>
      apply level_looksLikeSelector
  | |- level false _ _ (Statements.smodify (Statements.set_css _)) =>
      apply level_set_css
  | |- level _ _ _ statement => apply level_weaken, Hstm
  | |- level _ _ _ (Statements.sbind _ _) => eapply level_bind; [|intros ?]
  | |- level _ _ _ (match ?x with Some _ => _ | None => _ end) => destruct x
  | |- level _ _ _ (if ?x then _ else _) => destruct x
  | |- level _ _ _ _ => solve [eauto 2 with level_db]
  end.

Ltac level_auto := repeat level_step.

Lemma level_block_loop (b : bool) (stk : list string) (k : nat) :
  forall delim acc,
    level b stk stk (Statements.block_loop statement fuel k delim acc).
Proof.
  induction k as [|k IH]; intros delim acc; cbn [Statements.block_loop].
  - apply level_starved.
  - intros q Hs Hi. destruct (String.eqb _ _).
    + split; [exact Hs | now apply steady_refl].
    + cbv zeta. apply (level_bind b stk stk stk); auto; [level_auto|].
      intros [t|]; [apply IH|]. level_auto; apply IH.
Qed.

(** But for the mode of the braces. *)
Lemma level_block_nodes_plain (stk : list string) :
  level false stk stk (Statements.block_nodes statement fuel).
Proof.
  unfold Statements.block_nodes. level_auto; apply level_block_loop.
Qed.

Lemma block_nodes_css (q q' : Statements.Full) (ns : list Node) :
  Statements.block_nodes statement fuel q = Statements.Done ns q' ->
  Statements.css q' = true -> Statements.css q = true.
Proof.
  unfold Statements.block_nodes. intros H.
  apply sbind_done in H as (q0 & q1 & G & H).
  injection G as <- <-.
  apply sbind_done in H as (brace & q2 & _ & H).
  apply sbind_done in H as (u1 & q3 & _ & H).
  apply sbind_done in H as (u2 & q4 & _ & H).
  apply sbind_done in H as (nodes & q5 & _ & H).
  apply sbind_done in H as (q6 & q7 & G & H).
  injection G as <- <-.
  apply sbind_done in H as (u3 & q8 & C & H).
  injection H as _ <-.
  exact (closing_css fuel (Statements.css q) true q5 q8 u3 C).
Qed.

Lemma level_block_nodes (b : bool) (stk : list string) :
  level b stk stk (Statements.block_nodes statement fuel).
Proof.
  apply level_weaken. intros q Hs Hi.
  pose proof (level_block_nodes_plain stk q Hs Hi) as P.
  pose proof (block_nodes_css q) as C.
  destruct (Statements.block_nodes statement fuel q) as [ns q'| | |]; auto.
  destruct P as (S1 & I1 & T1 & _).
  split; [exact S1|]. split; [exact I1|]. split; [exact T1|].
  intros _. now apply (C q' ns).
Qed.
#[local] Hint Resolve level_block_nodes : level_db.

Lemma level_block (b : bool) (stk : list string) (scope : bool) :
  level b stk stk (Statements.block statement fuel scope).
Proof. unfold Statements.block. level_auto. Qed.
#[local] Hint Resolve level_block : level_db.

Lemma level_for (b : bool) (stk : list string) :
  level b stk stk (Statements.for_ statement fuel).
Proof. unfold Statements.for_. level_auto. Qed.

Lemma level_return (b : bool) (stk : list string) :
  level b stk stk (Statements.return_ fuel).
Proof. unfold Statements.return_. level_auto. Qed.

Lemma level_unless (b : bool) (stk : list string) :
  level b stk stk (Statements.unless statement fuel).
Proof. unfold Statements.unless. level_auto. Qed.

Lemma level_else_loop (b : bool) (stk : list string) (k : nat) :
  forall elses,
    level b stk stk (Statements.else_loop statement fuel k elses).
Proof.
  induction k as [|k IH]; intros elses; cbn [Statements.else_loop].
  - apply level_starved.
  - level_auto.
Qed.
#[local] Hint Resolve level_else_loop : level_db.

Lemma level_if (b : bool) (stk : list string) :
  level b stk stk (Statements.if_ statement fuel).
Proof. unfold Statements.if_. level_auto. Qed.

Lemma level_media (b : bool) (stk : list string) :
  level b stk stk (Statements.media statement fuel).
Proof. unfold Statements.media. level_auto. Qed.

Lemma level_import (b : bool) (stk : list string) :
  level b stk stk Statements.import.
Proof. unfold Statements.import. level_auto. Qed.

Lemma level_charset (b : bool) (stk : list string) :
  level b stk stk Statements.charset.
Proof. unfold Statements.charset. level_auto. Qed.

Lemma level_page (b : bool) (stk : list string) :
  level b stk stk (Statements.page statement fuel).
Proof. unfold Statements.page. level_auto. Qed.

Lemma level_keyframes_loop (b : bool) (stk : list string) (k : nat) :
  forall frames,
    level b stk stk (Statements.keyframes_loop statement fuel k frames).
Proof.
  induction k as [|k IH]; intros frames; cbn [Statements.keyframes_loop].
  - apply level_starved.
  - level_auto.
Qed.
#[local] Hint Resolve level_keyframes_loop : level_db.

Lemma level_keyframes_plain (stk : list string) :
  level false stk stk (Statements.keyframes statement fuel).
Proof. unfold Statements.keyframes. level_auto. Qed.

Lemma keyframes_css (q q' : Statements.Full) (n : Node) :
  Statements.keyframes statement fuel q = Statements.Done n q' ->
  Statements.css q' = true -> Statements.css q = true.
Proof.
  unfold Statements.keyframes. intros H.
  apply sbind_done in H as (t & q1 & E & H). apply lift_css in E.
  apply sbind_done in H as (q0 & q2 & G & H).
  injection G as <- <-.
  apply sbind_done in H as (name & q3 & _ & H).
  apply sbind_done in H as (brace & q4 & _ & H).
  apply sbind_done in H as (u1 & q5 & _ & H).
  apply sbind_done in H as (u2 & q6 & _ & H).
  apply sbind_done in H as (frames & q7 & _ & H).
  apply sbind_done in H as (q8 & q9 & G & H).
  injection G as <- <-.
  apply sbind_done in H as (u3 & q10 & C & H).
  injection H as _ <-. rewrite <- E.
  exact (closing_css fuel (Statements.css q1) false q7 q10 u3 C).
Qed.

Lemma level_keyframes (b : bool) (stk : list string) :
  level b stk stk (Statements.keyframes statement fuel).
Proof.
  apply level_weaken. intros q Hs Hi.
  pose proof (level_keyframes_plain stk q Hs Hi) as P.
  pose proof (keyframes_css q) as C.
  destruct (Statements.keyframes statement fuel q) as [n q'| | |]; auto.
  destruct P as (S1 & I1 & T1 & _).
  split; [exact S1|]. split; [exact I1|]. split; [exact T1|].
  intros _. now apply (C q' n).
Qed.

Lemma level_literal (b : bool) (stk : list string) :
  level b stk stk Statements.literal.
Proof. unfold Statements.literal. level_auto. Qed.

Lemma level_interpolate_loop (b : bool) (stk : list string) (k : nat) :
  forall segs, level b stk stk (Statements.interpolate_loop fuel k segs).
Proof.
  induction k as [|k IH]; intros segs; cbn [Statements.interpolate_loop].
  - apply level_starved.
  - level_auto.
Qed.
#[local] Hint Resolve level_interpolate_loop : level_db.

Lemma level_interpolate (b : bool) (stk : list string) :
  level b stk stk (Statements.interpolate fuel).
Proof.
  unfold Statements.interpolate. level_auto.
Qed.
#[local] Hint Resolve level_interpolate : level_db.

Lemma level_selector_tokens (b : bool) (stk : list string) (k : nat) :
  forall acc, level b stk stk (Statements.selector_tokens k acc).
Proof.
  induction k as [|k IH]; intros acc; cbn [Statements.selector_tokens].
  - apply level_starved.
  - level_auto.
Qed.
#[local] Hint Resolve level_selector_tokens : level_db.

Lemma level_selector_loop (b : bool) (stk : list string) (k : nat) :
  forall acc, level b stk stk (Statements.selector_loop stitch fuel k acc).
Proof.
  induction k as [|k IH]; intros acc; cbn [Statements.selector_loop].
  - apply level_starved.
  - level_auto.
Qed.
#[local] Hint Resolve level_selector_loop : level_db.

Lemma level_selector (b : bool) (stk : list string) :
  level b stk stk (Statements.selector stitch statement fuel).
Proof. unfold Statements.selector. level_auto. Qed.
#[local] Hint Resolve level_selector : level_db.

Lemma level_property (b : bool) (stk : list string) :
  level b stk stk (Statements.property stitch statement fuel).
Proof. unfold Statements.property. level_auto. Qed.
#[local] Hint Resolve level_property : level_db.

Lemma level_params_loop (b : bool) (stk : list string) (k : nat) :
  forall params, level b stk stk (Statements.params_loop fuel k params).
Proof.
  induction k as [|k IH]; intros params; cbn [Statements.params_loop].
  - apply level_starved.
  - level_auto.
Qed.

Lemma level_functionDefinition (b : bool) (stk : list string) :
  level b stk stk (Statements.functionDefinition statement fuel).
Proof.
  unfold Statements.functionDefinition, Statements.params. level_auto.
  apply level_params_loop.
Qed.

Lemma level_function (b : bool) (stk : list string) :
  level b stk stk (Statements.function_ statement fuel).
Proof.
  intros q Hs Hi. unfold Statements.function_.
  destruct (Statements.pair_parens fuel 2 1 q) as [i|]; [|exact I].
  destruct (String.eqb _ _).
  - apply (level_lift b stk stk); auto.
    apply holds_functionCall, holds_expression.
  - destruct (Statements.looksLikeFunctionDefinition i q).
    + now apply level_functionDefinition.
    + apply (level_lift b stk stk); auto. apply holds_expression.
Qed.

Lemma level_ident (b : bool) (stk : list string) :
  level b stk stk (Statements.ident stitch statement fuel).
Proof.
  intros q Hs Hi. unfold Statements.ident.
  destruct (Parser.skip_space fuel 2 (Statements.core q)) as [la|];
    [|exact I].
  destruct (Parser.mem la Parser.assignment_ops).
  { apply (level_lift b stk stk); auto.
    apply holds_assignment, holds_expression. }
  destruct (Parser.mem la Parser.operation_ops).
  - destruct (bool_decide _).
    { apply (level_lift b stk stk); auto. apply holds_id. }
    cbv zeta.
    set (q1 := Statements.set_core _ q).
    assert (S1 : Parser.state (Statements.core q1) = stk) by exact Hs.
    assert (I1 : Parser.inProperty (Statements.core q1) = false) by exact Hi.
    assert (R : forall (m : Statements.Stm Node),
               level b stk stk m ->
               match m q1 with
               | Statements.Done _ q' =>
                   Parser.state (Statements.core q') = stk /\ steady b q q'
               | Statements.Elsewhere _ => False
               | _ => True
               end).
    { intros m Hm. specialize (Hm q1 S1 I1).
      destruct (m q1) as [a q'| | |]; auto. }
    destruct (Parser.mem _ _); [apply R, level_property|].
    destruct (String.eqb _ _); [apply R, level_selector|].
    destruct (Parser.operand _).
    + apply R, level_lift, holds_id.
    + apply R, level_lift, holds_expression.
  - cbv zeta. destruct (String.eqb _ _); [now apply level_selector|].
    destruct (Parser.mem _ _); [now apply level_property|].
    apply (level_lift b stk stk); auto. apply holds_id.
Qed.

Lemma level_stmt (b : bool) (stk : list string) :
  level b stk stk (Statements.stmt stitch statement fuel).
Proof.
  intros q Hs Hi. unfold Statements.stmt. cbv zeta.
  destruct (String.eqb _ "selector"); [now apply level_selector|].
  destruct (String.eqb _ "literal"); [now apply level_literal|].
  destruct (String.eqb _ "keyframes"); [now apply level_keyframes|].
  destruct (String.eqb _ "charset"); [now apply level_charset|].
  destruct (String.eqb _ "import"); [now apply level_import|].
  destruct (String.eqb _ "media"); [now apply level_media|].
  destruct (String.eqb _ "page"); [now apply level_page|].
  destruct (String.eqb _ "ident"); [now apply level_ident|].
  destruct (String.eqb _ "unless"); [now apply level_unless|].
  destruct (String.eqb _ "function"); [now apply level_function|].
  destruct (String.eqb _ "for"); [now apply level_for|].
  destruct (String.eqb _ "if"); [now apply level_if|].
  destruct (String.eqb _ "return"); [now apply level_return|].
  destruct (String.eqb _ "{"); [now apply level_property|].
  destruct (_ && _); [now apply level_selector|].
  apply (level_bind b stk stk stk); auto; [level_auto|].
  intros e. level_auto.
Qed.
#[local] Hint Resolve level_stmt : level_db.

Lemma level_statement_body (stk : list string) :
  level true stk stk (Statements.statement_body stitch statement fuel).
Proof.
  unfold Statements.statement_body. level_auto.
  all: match goal with
       | |- level _ _ _ (if ?c then _ else _) => destruct c
       end; level_auto.
Qed.

Lemma level_parse_loop (b : bool) (stk : list string) (k : nat) :
  forall acc, level b stk stk (Statements.parse_loop statement k acc).
Proof.
  induction k as [|k IH]; intros acc; cbn [Statements.parse_loop].
  - apply level_starved.
  - intros q Hs Hi. destruct (String.eqb _ _).
    + split; [exact Hs | now apply steady_refl].
    + apply (level_bind b stk stk stk); auto; [level_auto|].
      intros [t|]; [apply IH|]. level_auto; apply IH.
Qed.

End LevelGrammar.

Lemma level_statement (stitch : list Parser.Token -> string) (fuel : nat) :
  forall stk, level true stk stk (Statements.statement stitch fuel).
Proof.
  induction fuel as [|fuel IH]; intros stk; cbn [Statements.statement].
  - apply level_starved.
  - now apply level_statement_body.
Qed.

Lemma lift_kept {A : Type} (m : Parser.P A) (q q' : Statements.Full) (a : A) :
  (forall stk, holds stk stk m) ->
  Statements.lift m q = Statements.Done a q' ->
  kept (Statements.core q) (Statements.core q').
Proof.
  intros Hm. unfold Statements.lift.
  pose proof (Hm _ (Statements.core q) eq_refl) as K.
  destruct (m (Statements.core q)) as [x p| | |]; try discriminate.
  intros H. injection H as _ <-. exact (proj2 K).
Qed.

(** X25.  A statement leaves the parser's state stack as it found it:
    whatever statement is read where no value of a property is being
    read -- a rule, a property, a definition, a conditional, a loop, a
    directive or an expression, with the blocks nested in it -- every
    state pushed on the way has been popped when statement returns.  No
    value of a property is being read then, the tokens left are a suffix
    of the tokens given, and the mode of the braces is not on unless it
    was on before. *)
Theorem statement_restores_state (stitch : list Parser.Token -> string)
        (fuel : nat) (q : Statements.Full) (s : Node)
        (q' : Statements.Full) :
  Parser.inProperty (Statements.core q) = false ->
  Statements.statement stitch fuel q = Statements.Done s q' ->
  Parser.state (Statements.core q') = Parser.state (Statements.core q)
  /\ Parser.inProperty (Statements.core q') = false
  /\ Parser.tokens (Statements.core q')
     `suffix_of` Parser.tokens (Statements.core q)
  /\ (Statements.css q' = true -> Statements.css q = true).
Proof.
  intros Hi H.
  pose proof (level_statement stitch fuel _ q eq_refl Hi) as L.
  rewrite H in L. destruct L as (S1 & I1 & T1 & C1).
  repeat split; auto.
Qed.

Lemma statement_restores_state_witness :
  match Statements.statement joined 6 (Statements.new_parser rule_tokens)
  with
  | Statements.Done s q' =>
      Parser.state (Statements.core q') = ["root"]
      /\ Parser.inProperty (Statements.core q') = false
      /\ s = Group ["body"]
               (Block true
                  [Property [Ident "color" Null false]
                     (Expression false [Ident "red" Null false])
                     None false])
  | _ => False
  end.
Proof.
  destruct (Statements.statement joined 6
              (Statements.new_parser rule_tokens)) as [s q'| | |] eqn:E.
  - destruct (statement_restores_state joined 6
                (Statements.new_parser rule_tokens) s q' eq_refl E)
      as (S1 & I1 & _).
    split; [exact S1|]. split; [exact I1|].
    vm_compute in E. now injection E as <- _.
  - vm_compute in E. discriminate E.
  - vm_compute in E. discriminate E.
  - vm_compute in E. discriminate E.
Defined.

(** X26.  The flag allowPostfix never outlives the statement that set
    it: when statement returns, the flag is off, whether or not a
    conditional followed -- a property, an import or a charset lets a
    conditional follow itself, not the statement after it. *)
Theorem statement_clears_allowPostfix (stitch : list Parser.Token -> string)
        (fuel : nat) (q : Statements.Full) (s : Node)
        (q' : Statements.Full) :
  Statements.statement stitch fuel q = Statements.Done s q' ->
  Parser.allowPostfix (Statements.core q') = false.
Proof.
  destruct fuel as [|fuel]; [discriminate|].
  cbn [Statements.statement]. unfold Statements.statement_body. intros H.
  apply sbind_done in H as (s0 & q1 & _ & H).
  apply sbind_done in H as (x & y & G & H). injection G as <- <-.
  cbv zeta in H.
  apply sbind_done in H as (u & q2 & C & H).
  assert (A2 : Parser.allowPostfix (Statements.core q2) = false).
  { destruct (Parser.allowPostfix (Statements.core q1)) eqn:AP.
    - injection C as _ <-. reflexivity.
    - injection C as _ <-. exact AP. }
  clear C.
  match type of H with
  | (if ?c then _ else _) _ = _ => destruct c
  end; [|injection H as _ <-; exact A2].
  apply sbind_done in H as (op & q3 & Acc & H).
  apply (lift_kept _ _ _ _ (fun stk => holds_accept_any stk _)) in Acc.
  destruct Acc as (_ & A3 & _).
  destruct op as [op|]; [|injection H as _ <-; congruence].
  apply sbind_done in H as (c & q4 & E & H).
  apply (lift_kept _ _ _ _ (holds_expression fuel)) in E.
  destruct E as (_ & A4 & _).
  apply sbind_done in H as (t & q5 & Ac & H).
  apply (lift_kept _ _ _ _ (fun stk => holds_accept stk _)) in Ac.
  destruct Ac as (_ & A5 & _).
  injection H as _ <-. congruence.
Qed.

Lemma statement_clears_allowPostfix_witness :
  match Statements.statement joined 6 (Statements.new_parser rule_tokens)
  with
  | Statements.Done _ q' =>
      Parser.allowPostfix (Statements.core q') = false
  | _ => False
  end.
Proof.
  destruct (Statements.statement joined 6
              (Statements.new_parser rule_tokens)) as [s q'| | |] eqn:E.
  - exact (statement_clears_allowPostfix joined 6
             (Statements.new_parser rule_tokens) s q' E).
  - vm_compute in E. discriminate E.
  - vm_compute in E. discriminate E.
  - vm_compute in E. discriminate E.
Defined.

Lemma parse_loop_done (statement : Statements.Stm Node) (k : nat) :
  forall acc q nodes q',
    Statements.parse_loop statement k acc q = Statements.Done nodes q' ->
    Statements.peek_type q' = "eos"
    /\ (Forall (fun n => truthy n = true) acc ->
        Forall (fun n => truthy n = true) nodes).
Proof.
  induction k as [|k IH]; intros acc q nodes q';
    cbn [Statements.parse_loop]; [discriminate|].
  destruct (String.eqb "eos" (Statements.peek_type q)) eqn:E.
  - intros H. injection H as <- <-. apply String.eqb_eq in E.
    split; [now symmetry | auto].
  - intros H. apply sbind_done in H as (nl & q1 & _ & H).
    destruct nl as [t|]; [now apply IH in H|].
    apply sbind_done in H as (s & q2 & _ & H).
    apply sbind_done in H as (t & q3 & _ & H).
    destruct (truthy s) eqn:T; [|discriminate H].
    apply IH in H as [P F]. split; [exact P|].
    intros Hacc. apply F. apply Forall_app. split; [exact Hacc|].
    now constructor.
Qed.

(** X27.  parse returns only at the end of the input: when it returns,
    the next token is eos, the state stack is the one it started with
    (root, for a new parser), the mode of the braces is not left on, and
    none of the statements pushed onto the root is undefined. *)
Theorem parse_reaches_eos (stitch : list Parser.Token -> string)
        (fuel : nat) (q : Statements.Full) (nodes : list Node)
        (q' : Statements.Full) :
  Parser.inProperty (Statements.core q) = false ->
  Statements.parse stitch fuel q = Statements.Done nodes q' ->
  Statements.peek_type q' = "eos"
  /\ Parser.state (Statements.core q') = Parser.state (Statements.core q)
  /\ Forall (fun n => truthy n = true) nodes
  /\ (Statements.css q' = true -> Statements.css q = true).
Proof.
  intros Hi H. unfold Statements.parse in H.
  pose proof (level_parse_loop _ (level_statement stitch fuel) true _ fuel
                [] q eq_refl Hi) as L.
  rewrite H in L. destruct L as (S1 & _ & _ & C1).
  apply parse_loop_done in H as [P F].
  split; [exact P|]. split; [exact S1|]. split; [now apply F | auto].
Qed.

Lemma parse_reaches_eos_witness :
  match Statements.parse joined 6 (Statements.new_parser rule_tokens) with
  | Statements.Done nodes q' =>
      Statements.peek_type q' = "eos"
      /\ Parser.state (Statements.core q') = ["root"]
      /\ length nodes = 1
  | _ => False
  end.
Proof.
  destruct (Statements.parse joined 6 (Statements.new_parser rule_tokens))
    as [nodes q'| | |] eqn:E.
  - destruct (parse_reaches_eos joined 6
                (Statements.new_parser rule_tokens) nodes q' eq_refl E)
      as (P & S1 & _).
    split; [exact P|]. split; [exact S1|].
    vm_compute in E. now injection E as <- _.
  - vm_compute in E. discriminate E.
  - vm_compute in E. discriminate E.
  - vm_compute in E. discriminate E.
Defined.

(** ** The lookahead of function *)

Lemma paren_step_open (ty : string) :
  String.eqb ty "function" || String.eqb ty "(" = true -> paren_step ty = 1%Z.
Proof. unfold paren_step. now intros ->. Qed.

Lemma paren_step_close (ty : string) :
  String.eqb ty "function" || String.eqb ty "(" = false ->
  String.eqb ty ")" = true -> paren_step ty = (-1)%Z.
Proof. unfold paren_step. now intros -> ->. Qed.

Lemma paren_step_other (ty : string) :
  String.eqb ty "function" || String.eqb ty "(" = false ->
  String.eqb ty ")" = false -> paren_step ty = 0%Z.
Proof. unfold paren_step. now intros -> ->. Qed.

Lemma pair_parens_closing (q : Statements.Full) (n : nat) :
  forall k i parens,
    1 <= parens ->
    Statements.la_type (i + n) q = ")" ->
    (Z.of_nat parens + paren_depth q i (S n) = 0)%Z ->
    (forall m, m <= n -> (0 < Z.of_nat parens + paren_depth q i m)%Z) ->
    n < k ->
    Statements.pair_parens k i parens q = Some (i + n + 1).
Proof.
  induction n as [|n IH]; intros k i parens Hp Hc Hz Hpos Hk;
    (destruct k as [|k]; [lia|]); cbn [Statements.pair_parens]; cbv zeta.
  - rewrite Nat.add_0_r in Hc. rewrite Hc. cbn [orb String.eqb].
    cbn [paren_depth] in Hz. rewrite Hc in Hz.
    change (paren_step ")") with (-1)%Z in Hz.
    replace (parens - 1) with 0 by lia. cbn [Nat.eqb]. f_equal. lia.
  - change (paren_depth q i (S (S n)))
      with (paren_step (Statements.la_type i q)
            + paren_depth q (S i) (S n))%Z in Hz.
    pose proof (Hpos 1 ltac:(lia)) as H1. cbn [paren_depth] in H1.
    assert (Hpos' : forall d : Z,
               (forall m, m <= S n ->
                  (0 < Z.of_nat parens + paren_depth q i m)%Z) ->
               forall m, m <= n ->
                  (0 < Z.of_nat parens
                       + (paren_step (Statements.la_type i q)
                          + paren_depth q (S i) m))%Z).
    { intros _ Hall m Hm. exact (Hall (S m) ltac:(lia)). }
    specialize (Hpos' 0%Z Hpos).
    replace (i + S n) with (S i + n) in Hc by lia.
    replace (i + S n + 1) with (S i + n + 1) by lia.
    destruct (String.eqb (Statements.la_type i q) "function"
              || String.eqb (Statements.la_type i q) "(") eqn:O.
    + rewrite (paren_step_open _ O) in *.
      apply IH; [lia | exact Hc | lia | | lia]. intros m Hm.
      specialize (Hpos' m Hm). lia.
    + destruct (String.eqb (Statements.la_type i q) ")") eqn:C.
      * rewrite (paren_step_close _ O C) in *.
        destruct (Nat.eqb (parens - 1) 0) eqn:Z0.
        { apply Nat.eqb_eq in Z0. lia. }
        apply IH; [lia | exact Hc | lia | | lia]. intros m Hm.
        specialize (Hpos' m Hm). lia.
      * rewrite (paren_step_other _ O C) in *.
        apply IH; [lia | exact Hc | lia | | lia]. intros m Hm.
        specialize (Hpos' m Hm). lia.
Qed.

Lemma pair_parens_unclosed (q : Statements.Full) (k : nat) :
  forall i parens,
    1 <= parens ->
    (forall m, (0 < Z.of_nat parens + paren_depth q i m)%Z) ->
    Statements.pair_parens k i parens q = None.
Proof.
  induction k as [|k IH]; intros i parens Hp Hpos;
    cbn [Statements.pair_parens]; cbv zeta; [reflexivity|].
  pose proof (Hpos 1) as H1. cbn [paren_depth] in H1.
  assert (Hpos' : forall m,
             (0 < Z.of_nat parens
                  + (paren_step (Statements.la_type i q)
                     + paren_depth q (S i) m))%Z).
  { intros m. exact (Hpos (S m)). }
  destruct (String.eqb (Statements.la_type i q) "function"
            || String.eqb (Statements.la_type i q) "(") eqn:O.
  - rewrite (paren_step_open _ O) in *.
    apply IH; [lia|]. intros m. specialize (Hpos' m). lia.
  - destruct (String.eqb (Statements.la_type i q) ")") eqn:C.
    + rewrite (paren_step_close _ O C) in *.
      destruct (Nat.eqb (parens - 1) 0) eqn:Z0.
      { apply Nat.eqb_eq in Z0. lia. }
      apply IH; [lia|]. intros m. specialize (Hpos' m). lia.
    + rewrite (paren_step_other _ O C) in *.
      apply IH; [lia|]. intros m. specialize (Hpos' m). lia.
Qed.

(** X28.  The lookahead of function pairs the parentheses.  Counting the
    tokens after the function token, with the count at 1 for the
    parenthesis the function token opens, one more for each function
    token or opening parenthesis and one less for each closing
    parenthesis: where the count first comes to 0, at the n-th token
    after the first, the lookahead stops, and outside an expression the
    function token starts a definition exactly when the token after that
    parenthesis is an indent or an opening brace; it is read as an
    expression otherwise. *)
Theorem function_pairs_parentheses (statement : Statements.Stm Node)
        (fuel : nat) (q : Statements.Full) (n : nat) :
  Statements.la_type (2 + n) q = ")" ->
  (1 + paren_depth q 2 (S n) = 0)%Z ->
  (forall m, m <= n -> (0 < 1 + paren_depth q 2 m)%Z) ->
  n < fuel ->
  Parser.currentState (Statements.core q) <> "expression" ->
  Statements.pair_parens fuel 2 1 q = Some (n + 3)
  /\ Statements.function_ statement fuel q
     = if String.eqb "indent" (Statements.la_type (n + 3) q)
          || String.eqb "{" (Statements.la_type (n + 3) q)
       then Statements.functionDefinition statement fuel q
       else Statements.expression fuel q.
Proof.
  intros Hc Hz Hpos Hk Hst.
  assert (P : Statements.pair_parens fuel 2 1 q = Some (n + 3)).
  { replace (n + 3) with (2 + n + 1) by lia.
    apply pair_parens_closing; auto. }
  split; [exact P|]. unfold Statements.function_. rewrite P.
  destruct (String.eqb _ "expression") eqn:E.
  - apply String.eqb_eq in E. contradiction.
  - reflexivity.
Qed.

Lemma function_pairs_parentheses_witness :
  Statements.pair_parens 5 2 1 (Statements.new_parser definition_tokens)
  = Some 6
  /\ Statements.function_ (Statements.statement joined 4) 5
       (Statements.new_parser definition_tokens)
     = Statements.functionDefinition (Statements.statement joined 4) 5
         (Statements.new_parser definition_tokens).
Proof.
  refine (function_pairs_parentheses (Statements.statement joined 4) 5
            (Statements.new_parser definition_tokens) 3
            eq_refl eq_refl _ _ _).
  - intros m Hm.
    destruct m as [|[|[|[|m]]]]; [vm_compute; reflexivity ..|lia].
  - lia.
  - vm_compute. discriminate.
Defined.

Lemma unclosed_depth (i m : nat) :
  2 <= i ->
  paren_depth (Statements.new_parser unclosed_tokens) i m = 0%Z.
Proof.
  revert i. induction m as [|m IH]; intros i Hi; [reflexivity|].
  cbn [paren_depth]. rewrite IH by lia.
  destruct i as [|[|[|[|i]]]]; try lia; reflexivity.
Qed.

(** X29.  A parenthesis that is never closed makes function look ahead
    without end: when the count of open parentheses never comes to 0 in
    the tokens after a function token, the lookahead finds no place to
    stop, past the end of the input too, where the lexer keeps yielding
    eos.  function returns nothing and throws nothing, whatever the
    fuel. *)
Theorem function_unclosed_never_returns (statement : Statements.Stm Node)
        (q : Statements.Full) :
  (forall m, (0 < 1 + paren_depth q 2 m)%Z) ->
  forall fuel, Statements.function_ statement fuel q = Statements.Starved.
Proof.
  intros Hpos fuel. unfold Statements.function_.
  now rewrite (pair_parens_unclosed q fuel 2 1 ltac:(lia) Hpos).
Qed.

Lemma function_unclosed_never_returns_witness :
  Statements.function_ (Statements.statement joined 9) 9
    (Statements.new_parser unclosed_tokens)
  = Statements.Starved.
Proof.
  refine (function_unclosed_never_returns _ _ _ 9).
  intros m. rewrite unclosed_depth; [reflexivity | lia].
Defined.

(** ** The conditional after a statement *)

(** X30.  Whether a conditional may follow a literal is decided by what
    was read before it.  literal pops no state, so statement tests the
    state popped last by earlier input: after an assignment, an
    expression or the arguments of a call, [if cond] (or [unless cond])
    behind the literal wraps it into a conditional; otherwise -- at the
    start of the input, or after a block -- the literal is the whole
    statement and the conditional's keyword is left as the next
    token. *)
Theorem literal_postfix_follows_history
        (stitch : list Parser.Token -> string) (k : nat)
        (q : Statements.Full) (lit op : Parser.Token)
        (rest : list Parser.Token) (negate : bool) (c : Node)
        (p2 : Parser.State) :
  Parser.tokens (Statements.core q) = lit :: op :: rest ->
  Parser.type lit = "literal" ->
  Parser.type op = (if negate then "unless" else "if") ->
  Parser.allowPostfix (Statements.core q) = false ->
  Parser.expression k (Parser.set_tokens rest (Statements.core q))
  = Parser.Parsed c p2 ->
  if follows_postfix (Statements.core q)
  then exists q',
      Statements.statement stitch (S k) q
      = Statements.Done (If c (Parser.val lit) [] negate) q'
  else
    Statements.statement stitch (S k) q
    = Statements.Done (Parser.val lit)
        (Statements.set_core
           (Parser.set_tokens (op :: rest) (Statements.core q)) q).
Proof.
  destruct q as [[toks st prev inP par opd idn ap] css br].
  destruct lit as [lty lval ltx]. destruct op as [oty oval otx].
  cbn [Statements.core Parser.tokens Parser.type Parser.allowPostfix
       Parser.val].
  intros -> -> -> -> E. unfold follows_postfix, Parser.set_tokens in *.
  cbn [Statements.core Parser.tokens Parser.state Parser.prevState
       Parser.inProperty Parser.parens Parser.operand Parser.ident_
       Parser.allowPostfix] in *.
  set (Q1 := {| Statements.core :=
                  Parser.mkState
                    (Parser.mkToken (if negate then "unless" else "if")
                       oval otx :: rest)
                    st prev inP par opd idn false;
                Statements.css := css; Statements.bracketed := br |}).
  set (Q2 := {| Statements.core :=
                  Parser.mkState rest st prev inP par opd idn false;
                Statements.css := css; Statements.bracketed := br |}).
  set (Q := {| Statements.core := _; Statements.css := css;
               Statements.bracketed := br |}).
  assert (St : Statements.stmt stitch (Statements.statement stitch k) k Q
               = Statements.Done lval Q1) by reflexivity.
  assert (Body :
    Statements.statement stitch (S k) Q
    = (if match prev with
          | Some st0 => Parser.mem st0 Statements.postfix_states
          | None => false
          end
       then
         Statements.sbind (Statements.accept_any ["if"; "unless"])
           (fun op =>
              match op with
              | Some op0 =>
                  Statements.sbind (Statements.expression k)
                    (fun c =>
                       Statements.sbind (Statements.accept ";")
                         (fun _ =>
                            Statements.sret
                              (If c lval []
                                  (String.eqb "unless" (Parser.type op0)))))
              | None => Statements.sret lval
              end)
       else Statements.sret lval) Q1).
  { cbn [Statements.statement]. unfold Statements.statement_body.
    unfold Statements.sbind at 1. rewrite St. reflexivity. }
  rewrite Body. clear Body St.
  destruct (match prev with
            | Some st0 => Parser.mem st0 Statements.postfix_states
            | None => false
            end); [|reflexivity].
  assert (A : Statements.accept_any ["if"; "unless"] Q1
              = Statements.Done
                  (Some (Parser.mkToken (if negate then "unless" else "if")
                           oval otx)) Q2).
  { unfold Q1, Q2. destruct negate; reflexivity. }
  unfold Statements.sbind at 1. rewrite A.
  unfold Statements.sbind at 1, Statements.expression, Statements.lift at 1.
  unfold Q2 at 1. cbn [Statements.core]. rewrite E.
  unfold Statements.sbind.
  destruct (Statements.accept ";" _) as [t q'| | |] eqn:Acc.
  - eexists. unfold Statements.sret. f_equal. f_equal.
    cbn [Parser.type]. now destruct negate.
  - exfalso. unfold Statements.accept, Statements.lift, Parser.accept in Acc.
    destruct (String.eqb _ _) in Acc; discriminate Acc.
  - exfalso. unfold Statements.accept, Statements.lift, Parser.accept in Acc.
    destruct (String.eqb _ _) in Acc; discriminate Acc.
  - exfalso. unfold Statements.accept, Statements.lift, Parser.accept in Acc.
    destruct (String.eqb _ _) in Acc; discriminate Acc.
Qed.

Lemma literal_postfix_follows_history_witness :
  Statements.statement joined 5 (Statements.new_parser literal_tokens)
  = Statements.Done (Literal "@x")
      (Statements.new_parser (tail literal_tokens))
  /\ exists q',
      Statements.statement joined 5 (after_expression literal_tokens)
      = Statements.Done
          (If (Expression false [Ident "x" Null false]) (Literal "@x") []
              false) q'.
Proof.
  split.
  - refine (literal_postfix_follows_history joined 4
              (Statements.new_parser literal_tokens)
              (Parser.mkToken "literal" (Literal "@x") "@x")
              (Parser.op_tok "if")
              [ident_tok "x"; Parser.op_tok "newline"] false
              (Expression false [Ident "x" Null false])
              (Parser.mkState [Parser.op_tok "newline"] ["root"]
                 (Some "expression") false false false None false)
              eq_refl eq_refl eq_refl eq_refl _).
    vm_compute. reflexivity.
  - refine (literal_postfix_follows_history joined 4
              (after_expression literal_tokens)
              (Parser.mkToken "literal" (Literal "@x") "@x")
              (Parser.op_tok "if")
              [ident_tok "x"; Parser.op_tok "newline"] false
              (Expression false [Ident "x" Null false])
              (Parser.mkState [Parser.op_tok "newline"] ["root"]
                 (Some "expression") false false false None false)
              eq_refl eq_refl eq_refl eq_refl _).
    vm_compute. reflexivity.
Defined.
